(** * interval-node: the IO rendering protocol and its host

    A shallow embedding of the TypeScript sources

    - the host controller: [autoTry] (module [AutoTry]) and
      [createIntervalHost] with its handlers (module [Host])
    - [src/classes/TransactionLoadingState.ts] (module [TransactionLoadingState])
    - [src/component.ts]                       (module [Component])
    - the class [IOClient] with its render loop (module [IOClient])

    JavaScript objects that are mutated in place become records threaded
    through the functions; promises become a three-state cell; an [async]
    function whose promise nobody awaits leaves its outcome in an explicit
    field.  Numbers are integers ([Z]); the value codec, the schema registry
    and the UUID generator are parameters of the sections that use them. *)

From stdpp Require Import base option list strings pretty gmap.
From Stdlib Require Import ZArith Lia.

Local Open Scope string_scope.
Local Open Scope list_scope.
Local Open Scope Z_scope.

(** ** JavaScript values and promises *)

Module JS.

(** The values that cross the wire: JSON data plus [undefined]. *)
#[local] Unset Elimination Schemes.
Inductive Value : Type :=
| VUndefined
| VNull
| VBool (b : bool)
| VNum (z : Z)
| VStr (s : string)
| VArr (items : list Value)
| VObj (fields : list (string * Value)).
#[local] Set Elimination Schemes.

(** [if (v)] on a value: [undefined], [null], [false], [0] and the empty
    string are falsy, everything else (arrays and objects too) is truthy. *)
Definition truthy (v : Value) : bool :=
  match v with
  | VUndefined | VNull => false
  | VBool b => b
  | VNum z => negb (z =? 0)
  | VStr s => negb (String.eqb s "")
  | VArr _ | VObj _ => true
  end.

(** [if (s)] on a [string | undefined]. *)
Definition truthy_str (s : option string) : bool :=
  match s with
  | None => false
  | Some s => negb (String.eqb s "")
  end.

(** [if (n)] on a [number | undefined]. *)
Definition truthy_num (n : option Z) : bool :=
  match n with
  | None => false
  | Some z => negb (z =? 0)
  end.

(** What the program throws. *)
Inductive IOErrorKind : Type := CANCELED | TRANSACTION_CLOSED.

Inductive Error : Type :=
| IOError (kind : IOErrorKind)
| PlainError (message : string)
| ZodError
| TypeError.

(** What a call that may throw gives back. *)
Inductive Result (A : Type) : Type :=
| Ok (a : A)
| Throw (e : Error).
Arguments Ok {A} a.
Arguments Throw {A} e.

(** A promise is pending until it is settled, and settles once: [resolve]
    and [reject] on a settled promise do nothing. *)
Inductive Promise (A : Type) : Type :=
| Pending
| Fulfilled (value : A)
| Rejected (reason : Error).
Arguments Pending {A}.
Arguments Fulfilled {A} value.
Arguments Rejected {A} reason.

Definition resolve {A} (p : Promise A) (v : A) : Promise A :=
  match p with
  | Pending => Fulfilled v
  | _ => p
  end.

Definition reject {A} (p : Promise A) (e : Error) : Promise A :=
  match p with
  | Pending => Rejected e
  | _ => p
  end.

Definition fulfilled_value {A} (p : Promise A) : option A :=
  match p with
  | Fulfilled v => Some v
  | _ => None
  end.

End JS.
Import JS.

(** ** The reconnect scheduler: [autoTry]

    [autoTry(fn)] keeps one timer armed.  When the timer fires, the callback
    runs [fn], counts the try, moves to the next step after the sixth try at
    a step, and arms the next timer through [tick]. *)

Module AutoTry.

(** [const steps = [1000, 3000, 10000]] (milliseconds). *)
Definition steps : list Z := [1000; 3000; 10000].

(** A timer of the runtime: the handle [setTimeout] returned and its delay. *)
Record Timer : Type := { handle : nat; delay : Z }.

(** The closure variables of one [autoTry] call, with the part of the
    runtime they touch: the armed timer, the next fresh handle, and how many
    times [fn] ran. *)
Record State : Type := {
  triesAtStep : Z;
  pos : nat;
  timeout : option nat;
  armed : option Timer;
  next_handle : nat;
  fn_calls : nat
}.

(** [steps[pos]]; [setTimeout] with an undefined delay waits 1 ms. *)
Definition step_delay (p : nat) : Z := default 1 (steps !! p).

(** [tick]: [timeout = setTimeout(callback, steps[pos])]. *)
Definition tick (s : State) : State :=
  {| triesAtStep := triesAtStep s;
     pos := pos s;
     timeout := Some (next_handle s);
     armed := Some {| handle := next_handle s; delay := step_delay (pos s) |};
     next_handle := S (next_handle s);
     fn_calls := fn_calls s |}.

(** The body of the timer callback when [fn()] returns: [fn()], count, maybe
    advance, [tick()]. *)
Definition callback (s : State) : State :=
  let tries := triesAtStep s + 1 in
  let advance := 5 <? tries in
  tick {| triesAtStep := if advance then 0 else tries;
          pos := if advance then (if (2 <=? pos s)%nat then 0%nat else S (pos s))
                 else pos s;
          timeout := timeout s;
          armed := None;
          next_handle := next_handle s;
          fn_calls := S (fn_calls s) |}.

(** The body of the timer callback when [fn()] throws: the exception leaves
    the callback at [fn()], before the count and before [tick()].  The timer
    that fired is gone and no other is armed. *)
Definition callback_throwing (s : State) : State :=
  {| triesAtStep := triesAtStep s;
     pos := pos s;
     timeout := timeout s;
     armed := None;
     next_handle := next_handle s;
     fn_calls := S (fn_calls s) |}.

(** The runtime fires the armed timer, if there is one: the result is the
    delay that elapsed and the state after the callback, for an [fn] that
    returns. *)
Definition fire (s : State) : option (Z * State) :=
  match armed s with
  | None => None
  | Some t => Some (delay t, callback s)
  end.

(** [cancel]: [if (timeout) clearTimeout(timeout)]. Clearing a handle that
    is not armed does nothing. *)
Definition cancel (s : State) : State :=
  match timeout s with
  | None => s
  | Some h =>
      {| triesAtStep := triesAtStep s;
         pos := pos s;
         timeout := timeout s;
         armed := match armed s with
                  | Some t => if decide (handle t = h) then None else Some t
                  | None => None
                  end;
         next_handle := next_handle s;
         fn_calls := fn_calls s |}
  end.

(** [autoTry(fn)]: initialise the closure, [tick()], return [cancel]. *)
Definition autoTry : State * (State -> State) :=
  (tick {| triesAtStep := 0; pos := 0%nat; timeout := None; armed := None;
           next_handle := 0%nat; fn_calls := 0%nat |},
   cancel).

(** The delays of the first [n] firings from [s], in order, and the state
    they leave.  The list stops early when no timer is armed. *)
Fixpoint run (n : nat) (s : State) : list Z * State :=
  match n with
  | O => ([], s)
  | S n' =>
      match fire s with
      | None => ([], s)
      | Some (d, s') => let '(ds, s'') := run n' s' in (d :: ds, s'')
      end
  end.

Definition delays (n : nat) : list Z := fst (run n (fst autoTry)).

(** The same for any [fn], given by its outcomes: [throws k] says whether
    the call of [fn] after [k] earlier ones throws. *)
Definition fire_with (throws : nat -> bool) (s : State) : option (Z * State) :=
  match armed s with
  | None => None
  | Some t =>
      Some (delay t,
            if throws (fn_calls s) then callback_throwing s else callback s)
  end.

Fixpoint run_with (throws : nat -> bool) (n : nat) (s : State) : list Z * State :=
  match n with
  | O => ([], s)
  | S n' =>
      match fire_with throws s with
      | None => ([], s)
      | Some (d, s') =>
          let '(ds, s'') := run_with throws n' s' in (d :: ds, s'')
      end
  end.

(** The delay before attempt [k+1] (attempts are numbered from 1), if it
    takes place. *)
Definition attempt_delay (k : nat) : option Z := delays (S k) !! k.

(** *** Properties *)

#[local] Arguments Nat.div : simpl never.
#[local] Arguments Nat.modulo : simpl never.

(** A state in which the timer [tick] armed last is still armed, in step
    with the cycle: what holds between two firings. *)
Definition in_cycle (n : nat) (s : State) : Prop :=
  triesAtStep s = Z.of_nat (n mod 6) /\
  pos s = ((n / 6) mod 3)%nat /\
  fn_calls s = n /\
  (exists h, timeout s = Some h /\
             armed s = Some {| handle := h; delay := step_delay (pos s) |}).

Lemma in_cycle_start : in_cycle 0 (fst autoTry).
Proof. repeat split; simpl; eauto. Qed.

Lemma succ_mod6 (n : nat) :
  (n mod 6 = 5 /\ S n mod 6 = 0 /\ S n / 6 = S (n / 6))%nat \/
  (n mod 6 < 5 /\ S n mod 6 = S (n mod 6) /\ S n / 6 = n / 6)%nat.
Proof.
  pose proof (Nat.div_mod_eq n 6) as E.
  pose proof (Nat.mod_upper_bound n 6 ltac:(lia)) as B.
  destruct (decide (n mod 6 = 5)%nat) as [H5|H5]; [left|right].
  - assert (S n = 6 * S (n / 6) + 0)%nat as E' by lia.
    split; [done|]. split.
    + symmetry. apply (Nat.mod_unique (S n) 6 (S (n / 6)) 0); lia.
    + symmetry. apply (Nat.div_unique (S n) 6 (S (n / 6)) 0); lia.
  - assert (S n = 6 * (n / 6) + S (n mod 6))%nat as E' by lia.
    split; [lia|]. split.
    + symmetry. apply (Nat.mod_unique (S n) 6 (n / 6) (S (n mod 6))); lia.
    + symmetry. apply (Nat.div_unique (S n) 6 (n / 6) (S (n mod 6))); lia.
Qed.

Lemma succ_mod3 (q : nat) :
  (S q mod 3 = if (2 <=? q mod 3) then 0 else S (q mod 3))%nat.
Proof.
  pose proof (Nat.div_mod_eq q 3) as E.
  pose proof (Nat.mod_upper_bound q 3 ltac:(lia)) as B.
  destruct (2 <=? q mod 3)%nat eqn:C.
  - apply Nat.leb_le in C.
    symmetry. apply (Nat.mod_unique (S q) 3 (S (q / 3)) 0); lia.
  - apply Nat.leb_gt in C.
    symmetry. apply (Nat.mod_unique (S q) 3 (q / 3) (S (q mod 3))); lia.
Qed.

(** One firing keeps the cycle going and takes the delay of the step. *)
Lemma fire_in_cycle (n : nat) (s : State) :
  in_cycle n s ->
  exists s', fire s = Some (step_delay ((n / 6) mod 3), s') /\ in_cycle (S n) s'.
Proof.
  intros (Ht & Hp & Hc & h & Hto & Ha).
  unfold fire. rewrite Ha. cbn [delay]. rewrite Hp.
  eexists. split; [reflexivity|].
  unfold callback, tick, in_cycle.
  cbn [triesAtStep pos timeout armed next_handle fn_calls].
  rewrite Ht, Hp, Hc.
  destruct (succ_mod6 n) as [(M & M' & D)|(M & M' & D)]; rewrite M', D.
  - rewrite M. replace (5 <? Z.of_nat 5 + 1) with true by reflexivity.
    rewrite succ_mod3. repeat split; eauto.
  - replace (5 <? Z.of_nat (n mod 6) + 1) with false
      by (symmetry; apply Z.ltb_ge; lia).
    repeat split; eauto. lia.
Qed.

Lemma run_in_cycle (k n : nat) (s : State) :
  in_cycle n s ->
  length (fst (run k s)) = k /\
  in_cycle (k + n) (snd (run k s)) /\
  forall i, (i < k)%nat ->
    fst (run k s) !! i = Some (step_delay (((n + i) / 6) mod 3)).
Proof.
  revert n s. induction k as [|k IH]; intros n s Hs.
  - simpl. split; [done|]. split; [done|]. intros i Hi. lia.
  - destruct (fire_in_cycle n s Hs) as (s' & Hf & Hs').
    simpl. rewrite Hf. destruct (run k s') as [ds s''] eqn:R.
    destruct (IH (S n) s' Hs') as (L & C & D). rewrite R in L, C, D.
    simpl in *. split; [lia|]. split.
    + replace (S (k + n)) with (k + S n)%nat by lia. done.
    + intros [|i] Hi; simpl.
      * by rewrite Nat.add_0_r.
      * rewrite D by lia. by replace (n + S i)%nat with (S (n + i)) by lia.
Qed.

Lemma step_delay_in_range (p : nat) :
  (p < 3)%nat -> steps !! p = Some (step_delay p).
Proof.
  intros Hp. destruct p as [|[|[|p]]]; try reflexivity. lia.
Qed.

(** Cancelling between two firings disarms the timer. *)
Lemma cancel_in_cycle (n : nat) (s : State) :
  in_cycle n s -> fire (cancel s) = None.
Proof.
  intros (_ & _ & _ & h & Hto & Ha).
  unfold fire, cancel. rewrite Hto, Ha. simpl.
  by rewrite decide_True.
Qed.

(** C5: over 20 consecutive firings the delays are 1s for attempts 1-6, 3s
    for attempts 7-12, 10s for attempts 13-18 and 1s again for attempts
    19-20; in general attempt [k+1] waits [steps[(k / 6) mod 3]], the cyclic
    schedule [1s, 3s, 10s] with six tries per step; and [autoTry] returns the
    [cancel] handle, which disarms the pending timer whenever it is used
    between two attempts. *)
Theorem autoTry_backoff_schedule :
  delays 20 =
    replicate 6 1000 ++ replicate 6 3000 ++ replicate 6 10000 ++
    replicate 2 1000 /\
  (forall k : nat, attempt_delay k = steps !! ((k / 6) mod 3)%nat) /\
  snd autoTry = cancel /\
  (forall n : nat, fire (snd autoTry (snd (run n (fst autoTry)))) = None).
Proof.
  split; [reflexivity|]. split; [|split; [reflexivity|]].
  - intros k. unfold attempt_delay, delays.
    destruct (run_in_cycle (S k) 0 (fst autoTry) in_cycle_start) as (_ & _ & D).
    rewrite (D k) by lia. rewrite Nat.add_0_l.
    symmetry. apply step_delay_in_range.
    apply Nat.mod_upper_bound. lia.
  - intros n.
    destruct (run_in_cycle n 0 (fst autoTry) in_cycle_start) as (_ & C & _).
    apply (cancel_in_cycle _ _ C).
Qed.

(** *** Further properties of the scheduler *)

(** The callback when [fn] itself calls the [cancel] handle: the timer that
    is firing has left the runtime, so [clearTimeout] finds nothing to clear,
    and the callback goes on to count the try and to [tick]. *)
Definition callback_cancelling (s : State) : State :=
  let fired :=
    {| triesAtStep := triesAtStep s; pos := pos s; timeout := timeout s;
       armed := None; next_handle := next_handle s; fn_calls := fn_calls s |} in
  let s := cancel fired in
  let tries := triesAtStep s + 1 in
  let advance := 5 <? tries in
  tick {| triesAtStep := if advance then 0 else tries;
          pos := if advance then (if (2 <=? pos s)%nat then 0%nat else S (pos s))
                 else pos s;
          timeout := timeout s;
          armed := None;
          next_handle := next_handle s;
          fn_calls := S (fn_calls s) |}.

(** While [fn] returns, the general run is the run of [callback]. *)
Lemma run_with_returning (throws : nat -> bool) (k n : nat) (s : State) :
  in_cycle n s ->
  (forall j, (n <= j < n + k)%nat -> throws j = false) ->
  run_with throws k s = run k s.
Proof.
  revert n s. induction k as [|k IH]; intros n s Hs Hret; [done|].
  destruct (fire_in_cycle n s Hs) as (s' & Hf & Hs').
  assert (fire_with throws s = fire s) as E.
  { unfold fire_with, fire. destruct (armed s); [|done].
    destruct Hs as (_ & _ & -> & _). by rewrite Hret by lia. }
  cbn [run_with run]. rewrite E, Hf.
  rewrite (IH (S n) s' Hs'); [done|]. intros j Hj. apply Hret. lia.
Qed.

(** Once [fn] has thrown, nothing fires. *)
Lemma run_with_stopped (throws : nat -> bool) (m : nat) (s : State) :
  armed s = None -> run_with throws m s = ([], s).
Proof.
  intros Ha. destruct m; [done|]. cbn [run_with]. unfold fire_with.
  by rewrite Ha.
Qed.

(** The scheduler stops by itself exactly when [fn] throws.  While [fn]
    returns, every firing takes place: [n] firings give [n] delays, [fn] has
    run once per firing, and between two firings one timer is armed, [pos] is
    a valid index of [steps] and [triesAtStep] is between 0 and 5.  When the
    call of [fn] after [k] earlier ones is the first to throw, that firing is
    the last: [k+1] attempts take place, with the delays of the schedule, and
    no timer is armed afterwards, however long one waits. *)
Theorem autoTry_stops_when_fn_throws (throws : nat -> bool) (n : nat) :
  ((forall j, (j < n)%nat -> throws j = false) ->
   run_with throws n (fst autoTry) = run n (fst autoTry) /\
   length (delays n) = n /\
   fn_calls (snd (run n (fst autoTry))) = n /\
   (pos (snd (run n (fst autoTry))) < 3)%nat /\
   0 <= triesAtStep (snd (run n (fst autoTry))) <= 5 /\
   is_Some (armed (snd (run n (fst autoTry))))) /\
  (forall k : nat,
      (k < n)%nat ->
      throws k = true ->
      (forall j, (j < k)%nat -> throws j = false) ->
      fst (run_with throws n (fst autoTry)) = delays (S k) /\
      fn_calls (snd (run_with throws n (fst autoTry))) = S k /\
      armed (snd (run_with throws n (fst autoTry))) = None).
Proof.
  split.
  - intros Hret. split.
    { apply (run_with_returning throws n 0 _ in_cycle_start).
      intros j Hj. apply Hret. lia. }
    destruct (run_in_cycle n 0 (fst autoTry) in_cycle_start)
      as (L & (Ht & Hp & Hc & h & _ & Ha) & _).
    rewrite Nat.add_0_r in *.
    pose proof (Nat.mod_upper_bound n 6 ltac:(lia)).
    pose proof (Nat.mod_upper_bound (n / 6) 3 ltac:(lia)).
    split; [exact L|]. split; [exact Hc|]. split; [lia|]. split; [lia|].
    rewrite Ha. eauto.
  - intros k Hk Hthrow Hret.
    assert (forall (m i : nat) (s : State),
              in_cycle i s -> (i <= k)%nat -> (k - i < m)%nat ->
              fst (run_with throws m s) = fst (run (S (k - i)) s) /\
              fn_calls (snd (run_with throws m s)) = S k /\
              armed (snd (run_with throws m s)) = None) as Hgen.
    { induction m as [|m IH]; intros i s Hs Hi Hm; [lia|].
      destruct (fire_in_cycle i s Hs) as (s' & Hf & Hs').
      pose proof Hs as (_ & _ & Hcalls & h & _ & Ha).
      cbn [run_with]. unfold fire_with. rewrite Ha, Hcalls. cbn [delay].
      destruct (decide (i = k)) as [->|Hne].
      - rewrite Hthrow. rewrite run_with_stopped by done.
        rewrite Nat.sub_diag. cbn [run]. rewrite Hf. simpl.
        unfold fire in Hf. rewrite Ha in Hf. cbn [delay] in Hf.
        injection Hf as Hd _. rewrite Hd. by rewrite Hcalls.
      - rewrite Hret by lia.
        unfold fire in Hf. rewrite Ha in Hf. cbn [delay] in Hf.
        injection Hf as Hd Hs'eq. rewrite Hs'eq.
        destruct (IH (S i) s' Hs' ltac:(lia) ltac:(lia)) as (H1 & H2 & H3).
        replace (S (k - i)) with (S (S (k - S i))) by lia.
        set (r := S (k - S i)) in *.
        cbn [run]. unfold fire at 1. rewrite Ha. cbn [delay]. rewrite Hs'eq.
        destruct (run_with throws m s') as [ds s2].
        destruct (run r s') as [ds' s3].
        simpl in *. split; [by rewrite H1|]. split; [exact H2|exact H3]. }
    destruct (Hgen n 0%nat (fst autoTry) in_cycle_start ltac:(lia) ltac:(lia))
      as (H1 & H2 & H3).
    rewrite Nat.sub_0_r in H1. by split; [|split].
Qed.

(** Every attempt takes place after one of the three delays, so never
    after more than ten seconds, and the schedule repeats every 18
    attempts. *)
Theorem autoTry_delays_bounded_periodic (k : nat) :
  (exists d, attempt_delay k = Some d /\ (d = 1000 \/ d = 3000 \/ d = 10000)) /\
  attempt_delay (k + 18) = attempt_delay k.
Proof.
  assert (forall j, attempt_delay j = Some (step_delay ((j / 6) mod 3))) as E.
  { intros j. unfold attempt_delay, delays.
    destruct (run_in_cycle (S j) 0 (fst autoTry) in_cycle_start) as (_ & _ & D).
    by rewrite (D j) by lia. }
  split.
  - rewrite E. eexists. split; [reflexivity|].
    pose proof (Nat.mod_upper_bound (k / 6) 3 ltac:(lia)) as B.
    destruct ((k / 6) mod 3)%nat as [|[|[|p]]]; [auto|auto|auto|lia].
  - rewrite !E. do 2 f_equal.
    replace (k + 18)%nat with (k + 3 * 6)%nat by lia.
    rewrite Nat.div_add by lia.
    replace (k / 6 + 3)%nat with (k / 6 + 1 * 3)%nat by lia.
    apply Nat.Div0.mod_add.
Qed.

Lemma cancel_idempotent (s : State) : cancel (cancel s) = cancel s.
Proof.
  unfold cancel. destruct (timeout s) as [h|] eqn:Hto; [|by rewrite Hto].
  simpl. f_equal.
  destruct (armed s) as [t|]; [|done].
  destruct (decide (handle t = h)) as [E|E]; [done|].
  by rewrite decide_False.
Qed.

(** Once [cancel] is called between two attempts, no attempt follows
    however long one waits, [fn] has run exactly as often as before, and a
    second [cancel] changes nothing. *)
Theorem cancel_is_final (n k : nat) :
  run k (cancel (snd (run n (fst autoTry)))) =
    ([], cancel (snd (run n (fst autoTry)))) /\
  fn_calls (cancel (snd (run n (fst autoTry)))) = n /\
  cancel (cancel (snd (run n (fst autoTry)))) =
    cancel (snd (run n (fst autoTry))).
Proof.
  destruct (run_in_cycle n 0 (fst autoTry) in_cycle_start) as (_ & C & _).
  rewrite Nat.add_0_r in C.
  pose proof (cancel_in_cycle _ _ C) as F.
  destruct C as (_ & _ & Hc & h & Hto & Ha).
  split; [|split].
  - destruct k; [done|]. cbn [run]. by rewrite F.
  - unfold cancel. rewrite Hto. exact Hc.
  - apply cancel_idempotent.
Qed.

(** A [cancel] that [fn] calls from inside the callback stops nothing: the
    callback arms the next timer as if [cancel] had not been called. *)
Theorem cancel_inside_fn_is_lost (s : State) :
  callback_cancelling s = callback s /\
  is_Some (armed (callback_cancelling s)) /\
  fire (callback_cancelling s) <> None.
Proof.
  assert (callback_cancelling s = callback s) as E.
  { unfold callback_cancelling, callback, cancel. simpl.
    by destruct (timeout s). }
  split; [exact E|]. rewrite E. unfold callback, tick, fire. simpl.
  split; [eauto|done].
Qed.

(** An [fn] whose third call throws: three attempts, one second apart, and
    then nothing. *)
Lemma autoTry_stops_when_fn_throws_witness :
  fst (run_with (fun k => (k =? 2)%nat) 10 (fst autoTry)) = [1000; 1000; 1000] /\
  fn_calls (snd (run_with (fun k => (k =? 2)%nat) 10 (fst autoTry))) = 3%nat /\
  armed (snd (run_with (fun k => (k =? 2)%nat) 10 (fst autoTry))) = None.
Proof.
  apply (proj2 (autoTry_stops_when_fn_throws (fun k => (k =? 2)%nat) 10) 2%nat);
    [lia|reflexivity|].
  intros [|[|j]] Hj; [reflexivity|reflexivity|lia].
Defined.

End AutoTry.

(** ** [TransactionLoadingState]: progress updates of a running action *)

Module TransactionLoadingState.

(** A property of an options object literal: left out, written with the
    value [undefined], or written with a value.  Spread and [Object.assign]
    copy the last two and skip the first. *)
Inductive Field (A : Type) : Type :=
| Absent
| Undefined
| Present (a : A).
Arguments Absent {A}.
Arguments Undefined {A}.
Arguments Present {A} a.

(** Modelled from the spec: the types [LoadingOptions] and [LoadingState] of
    [internalRpcSchema], which is not among the sources.  The state is
    [{ title?, description?, itemsInQueue?, itemsCompleted? }]; the options a
    caller passes are the same without [itemsCompleted], which only
    [start], [update] and [completeOne] write. *)
Record LoadingOptions : Type := {
  o_title : Field string;
  o_description : Field string;
  o_itemsInQueue : Field Z
}.

Record LoadingState : Type := {
  title : option string;
  description : option string;
  itemsInQueue : option Z;
  itemsCompleted : option Z
}.

(** The argument [options?: string | LoadingOptions]. *)
Inductive Options : Type :=
| NoOptions
| Title (s : string)
| Opts (o : LoadingOptions).

Inductive LogEntry : Type :=
| LogWarn (message : string)
| LogError (message : string)
| LogDebugErr.

(** The object: the private [#state], with what it handed to [#sender] and
    wrote to [#logger] so far. *)
Record T : Type := {
  state : option LoadingState;
  sent : list LoadingState;
  log : list LogEntry
}.

Section WithSender.

(** Whether [config.send] resolves for a state ([true]) or rejects. *)
Variable sender_ok : LoadingState -> bool.

(** The constructor leaves [#state] undefined. *)
Definition new : T := {| state := None; sent := []; log := [] |}.

(** [{}] *)
Definition empty_state : LoadingState :=
  {| title := None; description := None; itemsInQueue := None;
     itemsCompleted := None |}.

(** [typeof options === 'string' ? { title: options } : options ?? {}] *)
Definition normalise (options : Options) : LoadingOptions :=
  match options with
  | Title s =>
      {| o_title := Present s; o_description := Absent;
         o_itemsInQueue := Absent |}
  | NoOptions =>
      {| o_title := Absent; o_description := Absent; o_itemsInQueue := Absent |}
  | Opts o => o
  end.

(** Reading a property of an object built by spread. *)
Definition spread_field {A} (f : Field A) : option A :=
  match f with
  | Present a => Some a
  | Absent | Undefined => None
  end.

(** [Object.assign] on one property. *)
Definition assign_field {A} (old : option A) (f : Field A) : option A :=
  match f with
  | Absent => old
  | Undefined => None
  | Present a => Some a
  end.

(** [#sendState]: [await this.#sender(this.#state ?? {})], a failure is
    logged and not thrown. *)
Definition sendState (t : T) : T :=
  let payload := default empty_state (state t) in
  {| state := state t;
     sent := sent t ++ [payload];
     log := if sender_ok payload then log t
            else log t ++ [LogError "Failed sending loading state to Interval";
                           LogDebugErr] |}.

Definition set_itemsCompleted (v : option Z) (s : LoadingState) : LoadingState :=
  {| title := title s; description := description s;
     itemsInQueue := itemsInQueue s; itemsCompleted := v |}.

(** [start(options)] *)
Definition start (options : Options) (t : T) : T :=
  let o := normalise options in
  let s := {| title := spread_field (o_title o);
              description := spread_field (o_description o);
              itemsInQueue := spread_field (o_itemsInQueue o);
              itemsCompleted := None |} in
  let s := if truthy_num (itemsInQueue s) then set_itemsCompleted (Some 0) s
           else s in
  sendState {| state := Some s; sent := sent t; log := log t |}.

(** [update(options)] *)
Definition update (options : Options) (t : T) : T :=
  match state t with
  | None =>
      start options
        {| state := state t; sent := sent t;
           log := log t ++
             [LogWarn "Please call `loading.start` before `loading.update`"] |}
  | Some s =>
      let o := normalise options in
      let s := {| title := assign_field (title s) (o_title o);
                  description := assign_field (description s) (o_description o);
                  itemsInQueue := assign_field (itemsInQueue s) (o_itemsInQueue o);
                  itemsCompleted := itemsCompleted s |} in
      let s := if truthy_num (itemsInQueue s) &&
                  bool_decide (itemsCompleted s = None)
               then set_itemsCompleted (Some 0) s else s in
      sendState {| state := Some s; sent := sent t; log := log t |}
  end.

(** [!this.#state || !this.#state.itemsInQueue] *)
Definition no_queue (t : T) : bool :=
  match state t with
  | None => true
  | Some s => negb (truthy_num (itemsInQueue s))
  end.

(** [completeOne()] *)
Definition completeOne (t : T) : T :=
  if no_queue t then
    {| state := state t; sent := sent t;
       log := log t ++
         [LogWarn "Please call `loading.start` with `itemsInQueue` before `loading.completeOne`, failing to do so does nothing."] |}
  else
    match state t with
    | None => t
    | Some s =>
        let done := default 0 (itemsCompleted s) in
        sendState {| state := Some (set_itemsCompleted (Some (done + 1)) s);
                     sent := sent t; log := log t |}
    end.

(** The three operations, and a sequence of calls. *)
Inductive Op : Type :=
| Start (options : Options)
| Update (options : Options)
| CompleteOne.

Definition apply (op : Op) (t : T) : T :=
  match op with
  | Start o => start o t
  | Update o => update o t
  | CompleteOne => completeOne t
  end.

Definition run (ops : list Op) (t : T) : T := foldl (fun t op => apply op t) t ops.

Definition is_start (op : Op) : bool :=
  match op with Start _ => true | _ => false end.

(** [this.state.itemsCompleted] and [this.state.itemsInQueue] as a caller
    reads them. *)
Definition completed (t : T) : option Z := state t ≫= itemsCompleted.
Definition queued (t : T) : option Z := state t ≫= itemsInQueue.

(** [new] is not below [old]: a count stays a count and does not shrink. *)
Definition not_decreased (old new : option Z) : Prop :=
  match old, new with
  | None, _ => True
  | Some n, Some m => n <= m
  | Some _, None => False
  end.

(** *** Properties *)

Lemma not_decreased_refl (a : option Z) : not_decreased a a.
Proof. destruct a; simpl; [lia|done]. Qed.

Lemma not_decreased_trans (a b c : option Z) :
  not_decreased a b -> not_decreased b c -> not_decreased a c.
Proof. destruct a, b, c; simpl; try done; lia. Qed.

Lemma completed_sendState (t : T) : completed (sendState t) = completed t.
Proof. reflexivity. Qed.

Lemma update_not_decreased (o : Options) (t : T) :
  not_decreased (completed t) (completed (update o t)).
Proof.
  unfold update, completed. destruct (state t) as [s|] eqn:E; simpl; [|done].
  destruct (truthy_num _); simpl.
  - destruct (itemsCompleted s) eqn:C; simpl; [lia|done].
  - apply not_decreased_refl.
Qed.

Lemma completeOne_not_decreased (t : T) :
  not_decreased (completed t) (completed (completeOne t)).
Proof.
  unfold completeOne, completed, no_queue.
  destruct (state t) as [s|] eqn:E; simpl; [|done].
  destruct (truthy_num _); simpl; [|apply not_decreased_refl].
  destruct (itemsCompleted s); simpl; [lia|done].
Qed.

Lemma run_snoc (ops : list Op) (op : Op) (t : T) :
  run (ops ++ [op]) t = apply op (run ops t).
Proof. unfold run. by rewrite foldl_app. Qed.

Lemma run_not_decreased (ops : list Op) (t : T) :
  forallb (fun op => negb (is_start op)) ops = true ->
  not_decreased (completed t) (completed (run ops t)).
Proof.
  revert t. induction ops as [|op ops IH]; intros t H.
  - apply not_decreased_refl.
  - simpl in H. apply andb_prop in H as [Hop Hops].
    eapply not_decreased_trans; [|apply (IH _ Hops)].
    destruct op; simpl in *; [done| |].
    + apply update_not_decreased.
    + apply completeOne_not_decreased.
Qed.

(** C7 (amended): over every sequence of [update] and [completeOne] calls
    [itemsCompleted] never decreases; [completeOne] without a state or with
    [itemsInQueue] unset (or zero) leaves the state alone and sends nothing;
    [start] builds a fresh state whose [itemsCompleted] is 0 when
    [itemsInQueue] is non-zero and undefined otherwise; and when [update]
    leaves a non-zero [itemsInQueue] where [itemsCompleted] was undefined,
    [itemsCompleted] is 0. *)
Theorem loading_progress_monotone :
  (forall (ops : list Op) (t : T),
      forallb (fun op => negb (is_start op)) ops = true ->
      not_decreased (completed t) (completed (run ops t))) /\
  (forall t : T,
      truthy_num (queued t) = false ->
      state (completeOne t) = state t /\ sent (completeOne t) = sent t) /\
  (forall (o : Options) (t : T),
      completed (start o t) =
        if truthy_num (queued (start o t)) then Some 0 else None) /\
  (forall (o : Options) (t : T),
      truthy_num (queued (update o t)) = true ->
      completed t = None ->
      completed (update o t) = Some 0).
Proof.
  split; [apply run_not_decreased|]. split; [|split].
  - intros t Hq. unfold completeOne, no_queue, queued in *.
    destruct (state t) as [s|]; simpl in *; [|done].
    by rewrite Hq.
  - intros o t. unfold start, queued, completed. simpl.
    destruct (truthy_num (spread_field _)) eqn:Q; simpl; by rewrite Q.
  - intros o t. unfold update, queued, completed.
    destruct (state t) as [s|]; simpl.
    + intros Hq Hc. rewrite Hc in *. simpl in *.
      destruct (truthy_num (assign_field _ _)) eqn:Q; simpl in *; [done|].
      congruence.
    + intros Hq _.
      destruct (truthy_num (spread_field _)) eqn:Q; simpl in *; [done|].
      congruence.
Qed.

(** *** Further properties of the loading state *)

(** The getter [state]: a copy of [#state], the empty object when there is
    none. *)
Definition get_state (t : T) : LoadingState := default empty_state (state t).

(** After any calls on a new object, the state sent last is the current
    state: nothing was sent while there is none, and no call changes the
    state without sending it. *)
Theorem last_sent_is_current_state (ops : list Op) :
  last (sent (run ops new)) = state (run ops new).
Proof.
  assert (forall t, last (sent t) = state t ->
                    forall op, last (sent (apply op t)) = state (apply op t))
    as Hstep.
  { intros t Ht [o|o|]; simpl.
    - unfold start, sendState. simpl. by rewrite last_snoc.
    - unfold update. destruct (state t) as [s|].
      + unfold sendState. simpl. by rewrite last_snoc.
      + unfold start, sendState. simpl. by rewrite last_snoc.
    - unfold completeOne. destruct (no_queue t); [done|].
      destruct (state t) as [s|] eqn:E; [|by rewrite E].
      unfold sendState. simpl. by rewrite last_snoc. }
  assert (forall t, last (sent t) = state t ->
                    last (sent (run ops t)) = state (run ops t)) as Hrun.
  { induction ops as [|op ops IH]; intros t Ht; [done|].
    apply (IH (apply op t)), Hstep, Ht. }
  by apply Hrun.
Qed.

(** [completeOne] has no upper bound: after a [start] with a non-zero
    [itemsInQueue], [n] calls leave [itemsCompleted] at [n], also beyond
    [itemsInQueue], and each of them sends the state. *)
Theorem completeOne_counts_without_bound (o : LoadingOptions) (q : Z)
    (n : nat) (t : T) :
  o_itemsInQueue o = Present q ->
  q <> 0 ->
  completed (run (replicate n CompleteOne) (start (Opts o) t)) =
    Some (Z.of_nat n) /\
  queued (run (replicate n CompleteOne) (start (Opts o) t)) = Some q /\
  length (sent (run (replicate n CompleteOne) (start (Opts o) t))) =
    (length (sent t) + 1 + n)%nat.
Proof.
  intros Ho Hq.
  assert (forall (m : nat) (k : Z) (t' : T),
            queued t' = Some q -> completed t' = Some k ->
            completed (run (replicate m CompleteOne) t') = Some (k + Z.of_nat m) /\
            queued (run (replicate m CompleteOne) t') = Some q /\
            length (sent (run (replicate m CompleteOne) t')) =
              (length (sent t') + m)%nat) as Hloop.
  { induction m as [|m IH]; intros k t' Hqu Hco.
    - simpl. rewrite Hco. split; [f_equal; lia|]. split; [done|lia].
    - change (run (replicate (S m) CompleteOne) t')
        with (run (replicate m CompleteOne) (completeOne t')).
      unfold queued, completed in Hqu, Hco.
      destruct (state t') as [s|] eqn:E; [|done]. simpl in Hqu, Hco.
      assert (completeOne t' =
                sendState {| state := Some (set_itemsCompleted (Some (k + 1)) s);
                             sent := sent t'; log := log t' |}) as ->.
      { unfold completeOne, no_queue. rewrite E, Hqu, Hco. simpl.
        by apply Z.eqb_neq in Hq as ->. }
      destruct (IH (k + 1) (sendState
                   {| state := Some (set_itemsCompleted (Some (k + 1)) s);
                      sent := sent t'; log := log t' |}))
        as (H1 & H2 & H3); [done|done|].
      rewrite H1, H2, H3. split; [f_equal; lia|]. split; [done|].
      unfold sendState. simpl. rewrite length_app. simpl. lia. }
  assert (queued (start (Opts o) t) = Some q) as Hqu.
  { unfold queued, start. simpl. rewrite Ho. simpl.
    by apply Z.eqb_neq in Hq as ->. }
  assert (completed (start (Opts o) t) = Some 0) as Hco.
  { unfold completed, start. simpl. rewrite Ho. simpl.
    by apply Z.eqb_neq in Hq as ->. }
  destruct (Hloop n 0 (start (Opts o) t) Hqu Hco) as (H1 & H2 & H3).
  split; [by rewrite H1|]. split; [done|].
  rewrite H3. unfold start, sendState. simpl. rewrite length_app. simpl. lia.
Qed.

(** An [update] with a title keeps the progress of a started state: the
    queue length stays, and the count stays once it is defined; a [start]
    with a title drops both. *)
Theorem update_title_keeps_progress (x : string) (t : T) (s : LoadingState)
    (k : Z) :
  state t = Some s ->
  itemsCompleted s = Some k ->
  (title (get_state (update (Title x) t)) = Some x /\
   description (get_state (update (Title x) t)) = description s /\
   queued (update (Title x) t) = itemsInQueue s /\
   completed (update (Title x) t) = Some k) /\
  (title (get_state (start (Title x) t)) = Some x /\
   queued (start (Title x) t) = None /\
   completed (start (Title x) t) = None).
Proof.
  intros Hs Hk. split; [|done].
  unfold update, queued, completed, get_state. rewrite Hs. simpl.
  rewrite Hk. rewrite andb_false_r. simpl. done.
Qed.

(** An [update] repeated with the same options leaves the state of the
    first: merging is idempotent (only a second copy is sent). *)
Theorem update_idempotent (o : Options) (t : T) :
  state (update o (update o t)) = state (update o t) /\
  sent (update o (update o t)) =
    sent (update o t) ++ [get_state (update o t)].
Proof.
  unfold update, start, sendState, get_state.
  destruct (normalise o) as [ft fd fq].
  destruct (state t) as [[a b c d]|]; simpl.
  - destruct ft, fd, fq, c, d; simpl;
      repeat (case_match; simpl in *; simplify_eq);
      first [done | congruence | by split].
  - destruct ft, fd, fq; simpl;
      repeat (case_match; simpl in *; simplify_eq);
      first [done | congruence | by split].
Qed.

End WithSender.

(** Whether [config.send] resolves or rejects changes the log only: the
    state and what is handed to the sender are the same for any two
    senders, so a failing transport never stops or alters the updates. *)
Theorem sender_failures_do_not_matter (ok1 ok2 : LoadingState -> bool)
    (ops : list Op) (t : T) :
  state (run ok1 ops t) = state (run ok2 ops t) /\
  sent (run ok1 ops t) = sent (run ok2 ops t).
Proof.
  assert (forall t1 t2 : T,
            state t1 = state t2 -> sent t1 = sent t2 ->
            state (run ok1 ops t1) = state (run ok2 ops t2) /\
            sent (run ok1 ops t1) = sent (run ok2 ops t2)) as H.
  { induction ops as [|op ops IH]; intros t1 t2 Hs Hse; [done|].
    apply (IH (apply ok1 op t1) (apply ok2 op t2)).
    - destruct op as [o|o|]; simpl.
      + done.
      + unfold update. rewrite Hs. by destruct (state t2).
      + unfold completeOne, no_queue. rewrite Hs.
        destruct (state t2) as [s|]; [|done].
        by destruct (negb _).
    - destruct op as [o|o|]; simpl.
      + unfold start, sendState. simpl. by rewrite Hse.
      + unfold update. rewrite Hs. destruct (state t2);
          unfold start, sendState; simpl; by rewrite Hse.
      + unfold completeOne, no_queue. rewrite Hs.
        destruct (state t2) as [s|]; [|done].
        destruct (negb _); [done|].
        unfold sendState. simpl. by rewrite Hse. }
  by apply H.
Qed.

(** Sample calls: a queue of three items, and a queue of none. *)
Definition queue_of (n : Z) : Options :=
  Opts {| o_title := Absent; o_description := Absent;
          o_itemsInQueue := Present n |}.

Definition always_sent (_ : LoadingState) : bool := true.

Definition two_of_three : T :=
  run always_sent [Start (queue_of 3); CompleteOne; CompleteOne] new.

Lemma loading_progress_monotone_witness :
  not_decreased
    (completed two_of_three)
    (completed (run always_sent [Update (queue_of 5); CompleteOne]
                  two_of_three)) /\
  (state (completeOne always_sent new) = state new /\
   sent (completeOne always_sent new) = sent new) /\
  completed (start always_sent (queue_of 3) two_of_three) = Some 0 /\
  completed (update always_sent (queue_of 3) new) = Some 0.
Proof.
  destruct (loading_progress_monotone always_sent) as (H1 & H2 & H3 & H4).
  split; [|split; [|split]].
  - apply H1. reflexivity.
  - apply H2. reflexivity.
  - apply (H3 (queue_of 3) two_of_three).
  - apply H4; reflexivity.
Defined.

(** C7 as stated fails on [start]: after two of three items are completed,
    a second [start] takes [itemsCompleted] from 2 back to 0; and a [start]
    with [itemsInQueue: 0] sets [itemsInQueue] and leaves [itemsCompleted]
    undefined. *)
Lemma start_resets_progress :
  completed two_of_three = Some 2 /\
  completed (apply always_sent (Start (queue_of 3)) two_of_three) = Some 0 /\
  ~ not_decreased
      (completed two_of_three)
      (completed (apply always_sent (Start (queue_of 3)) two_of_three)) /\
  queued (start always_sent (queue_of 0) new) = Some 0 /\
  completed (start always_sent (queue_of 0) new) = None.
Proof.
  split; [reflexivity|]. split; [reflexivity|]. split; [|done].
  simpl. lia.
Qed.

Lemma completeOne_counts_without_bound_witness :
  completed (run always_sent (replicate 5 CompleteOne)
               (start always_sent (queue_of 2) new)) = Some 5 /\
  queued (run always_sent (replicate 5 CompleteOne)
            (start always_sent (queue_of 2) new)) = Some 2 /\
  length (sent (run always_sent (replicate 5 CompleteOne)
                  (start always_sent (queue_of 2) new))) = 6%nat.
Proof.
  apply (completeOne_counts_without_bound always_sent
           {| o_title := Absent; o_description := Absent;
              o_itemsInQueue := Present 2 |} 2 5 new).
  - reflexivity.
  - lia.
Defined.

Lemma update_title_keeps_progress_witness :
  (title (get_state (update always_sent (Title "almost") two_of_three)) =
     Some "almost" /\
   description (get_state (update always_sent (Title "almost") two_of_three)) =
     None /\
   queued (update always_sent (Title "almost") two_of_three) = Some 3 /\
   completed (update always_sent (Title "almost") two_of_three) = Some 2) /\
  (title (get_state (start always_sent (Title "almost") two_of_three)) =
     Some "almost" /\
   queued (start always_sent (Title "almost") two_of_three) = None /\
   completed (start always_sent (Title "almost") two_of_three) = None).
Proof.
  apply (update_title_keeps_progress always_sent "almost" two_of_three
           {| title := None; description := None; itemsInQueue := Some 3;
              itemsCompleted := Some 2 |} 2).
  - reflexivity.
  - reflexivity.
Defined.

End TransactionLoadingState.

(** ** [component.ts]: an IO component *)

Module Component.

Definition MethodName : Type := string.

(** [ComponentInstance] *)
Record ComponentInstance : Type := {
  methodName : MethodName;
  label : string;
  props : Value;
  state : Value
}.

(** [ComponentRenderInfo] *)
Record ComponentRenderInfo : Type := {
  ri_methodName : MethodName;
  ri_label : string;
  ri_props : Value
}.

(** What a call does besides changing the component: lines on the console,
    and a call of the registered state-change handler. *)
Inductive Effect (Observer : Type) : Type :=
| ConsoleWarn (message : string)
| ConsoleLog (message : string)
| Notify (handler : Observer).
Arguments ConsoleWarn {Observer} message.
Arguments ConsoleLog {Observer} message.
Arguments Notify {Observer} handler.

Section WithSchema.

(** The handlers [onStateChange] registers are named by values of
    [Observer]; who is notified decides what such a name stands for. *)
Context {Observer : Type}.

(** The registry [ioSchema]: [ioSchema[m].returns.parse] and
    [ioSchema[m].state.parse] give the parsed value or throw a [ZodError]
    ([None]). *)
Variable returns_parse : MethodName -> Value -> option Value.
Variable state_parse : MethodName -> Value -> option Value.

(** The closure [component(...)] builds: the instance and the variables
    around it. [handleStateChange] is the caller's function; it gives the new
    props or rejects. *)
Record T : Type := {
  instance : ComponentInstance;
  onStateChangeHandler : option Observer;
  resolver : bool;
  returnValue : Promise Value;
  schema : MethodName;
  handleStateChange : option (Value -> Result Value)
}.

(** [component(methodName, label, initialProps, handleStateChange)].  The
    promise executor runs at once, so [resolver] is set when the constructor
    returns. *)
Definition component (methodName : MethodName) (label : string)
    (initialProps : Value) (handleStateChange : option (Value -> Result Value))
    : T :=
  {| instance := {| methodName := methodName; label := label;
                    props := initialProps; state := VNull |};
     onStateChangeHandler := None;
     resolver := true;
     returnValue := Pending;
     schema := methodName;
     handleStateChange := handleStateChange |}.

Definition set_props (newProps : Value) (c : T) : T :=
  {| instance := {| methodName := methodName (instance c);
                    label := label (instance c);
                    props := newProps;
                    state := state (instance c) |};
     onStateChangeHandler := onStateChangeHandler c;
     resolver := resolver c;
     returnValue := returnValue c;
     schema := schema c;
     handleStateChange := handleStateChange c |}.

(** [onStateChangeHandler && onStateChangeHandler()] *)
Definition notify (c : T) : list (Effect Observer) :=
  match onStateChangeHandler c with
  | Some h => [Notify h]
  | None => []
  end.

(** [setReturnValue(value)] *)
Definition setReturnValue (value : Value) (c : T) : T * Result unit :=
  match returns_parse (schema c) value with
  | None => (c, Throw ZodError)
  | Some parsed =>
      if resolver c then
        ({| instance := instance c;
            onStateChangeHandler := onStateChangeHandler c;
            resolver := resolver c;
            returnValue := resolve (returnValue c) parsed;
            schema := schema c;
            handleStateChange := handleStateChange c |}, Ok ())
      else (c, Ok ())
  end.

(** [setState(newState)]: the component after the call, what it printed and
    whom it notified, and the instance it resolves with or the error. *)
Definition setState (newState : Value) (c : T)
    : T * list (Effect Observer) * Result ComponentInstance :=
  match state_parse (schema c) newState with
  | None => (c, [], Throw ZodError)
  | Some parsedState =>
      let logged := [ConsoleLog "set state!"] ++ notify c in
      match handleStateChange c with
      | Some handle =>
          match handle parsedState with
          | Throw e => (c, [], Throw e)
          | Ok newProps =>
              let c' := set_props newProps c in
              (c', logged, Ok (instance c'))
          end
      | None =>
          let warned :=
            match parsedState with
            | VNull => []
            | _ => [ConsoleWarn "Received non-null state, but no method was defined to handle."]
            end in
          (c, warned ++ logged, Ok (instance c))
      end
  end.

(** [setProps(newProps)] *)
Definition setProps (newProps : Value) (c : T) : T * list (Effect Observer) :=
  let c' := set_props newProps c in (c', notify c').

(** [onStateChange(fn)] *)
Definition onStateChange (fn : Observer) (c : T) : T :=
  {| instance := instance c;
     onStateChangeHandler := Some fn;
     resolver := resolver c;
     returnValue := returnValue c;
     schema := schema c;
     handleStateChange := handleStateChange c |}.

Definition getInstance (c : T) : ComponentInstance := instance c.

Definition getRenderInfo (c : T) : ComponentRenderInfo :=
  {| ri_methodName := methodName (instance c);
     ri_label := label (instance c);
     ri_props := props (instance c) |}.

(** The calls a holder of the component can make, and a sequence of them
    (effects and results left aside). *)
Inductive Call : Type :=
| SetReturnValue (value : Value)
| SetState (newState : Value)
| SetProps (newProps : Value)
| OnStateChange (fn : Observer).

Definition apply (call : Call) (c : T) : T :=
  match call with
  | SetReturnValue v => fst (setReturnValue v c)
  | SetState st => fst (fst (setState st c))
  | SetProps p => fst (setProps p c)
  | OnStateChange fn => onStateChange fn c
  end.

Definition run (calls : list Call) (c : T) : T :=
  foldl (fun c call => apply call c) c calls.

(** The raw values of the [setReturnValue] calls of a sequence, in order. *)
Definition returned (calls : list Call) : list Value :=
  omap (fun call => match call with SetReturnValue v => Some v | _ => None end)
       calls.

(** The first of the raw values that the returns schema accepts, parsed. *)
Definition first_valid (m : MethodName) (values : list Value) : option Value :=
  head (omap (returns_parse m) values).

(** *** Properties *)

(** No call touches [resolver], [schema] or the [state] of the instance. *)
Lemma apply_frame (call : Call) (c : T) :
  resolver (apply call c) = resolver c /\
  schema (apply call c) = schema c /\
  state (instance (apply call c)) = state (instance c).
Proof.
  destruct call as [v|st|p|fn]; simpl; [| |done|done].
  - unfold setReturnValue. destruct (returns_parse _ _); [|done].
    destruct (resolver c) eqn:R; simpl; auto.
  - unfold setState. destruct (state_parse _ _); [|done].
    destruct (handleStateChange c) as [handle|]; [|done].
    destruct (handle _); simpl; auto.
Qed.

Lemma run_frame (calls : list Call) (c : T) :
  resolver (run calls c) = resolver c /\
  schema (run calls c) = schema c /\
  state (instance (run calls c)) = state (instance c).
Proof.
  revert c. induction calls as [|call calls IH]; intros c; [done|].
  simpl. destruct (IH (apply call c)) as (R & S & St).
  destruct (apply_frame call c) as (R' & S' & St').
  unfold run in *. simpl. rewrite R, S, St. done.
Qed.

(** Only [setReturnValue] writes the promise, and only through [resolve]. *)
Lemma apply_returnValue (call : Call) (c : T) :
  resolver c = true ->
  returnValue (apply call c) =
    match call with
    | SetReturnValue v =>
        match returns_parse (schema c) v with
        | Some parsed => resolve (returnValue c) parsed
        | None => returnValue c
        end
    | _ => returnValue c
    end.
Proof.
  intros R. destruct call as [v|st|p|fn]; simpl; [| |done|done].
  - unfold setReturnValue. destruct (returns_parse _ _); [|done].
    by rewrite R.
  - unfold setState. destruct (state_parse _ _); [|done].
    destruct (handleStateChange c) as [handle|]; [|done].
    by destruct (handle _).
Qed.

Lemma run_returnValue (calls : list Call) (c : T) :
  resolver c = true ->
  returnValue (run calls c) =
    match returnValue c with
    | Pending =>
        match first_valid (schema c) (returned calls) with
        | Some v => Fulfilled v
        | None => Pending
        end
    | settled => settled
    end.
Proof.
  revert c. induction calls as [|call calls IH]; intros c R.
  - simpl. by destruct (returnValue c).
  - destruct (apply_frame call c) as (R' & S' & _).
    change (run (call :: calls) c) with (run calls (apply call c)).
    rewrite IH by congruence. rewrite S', (apply_returnValue call c R).
    unfold first_valid.
    destruct call as [v|st|p|fn]; simpl; try done.
    destruct (returns_parse (schema c) v) as [parsed|]; simpl; [|done].
    by destruct (returnValue c).
Qed.

(** Once the promise is fulfilled, [setReturnValue] changes nothing. *)
Lemma setReturnValue_settled (raw v : Value) (c : T) :
  returnValue c = Fulfilled v -> fst (setReturnValue raw c) = c.
Proof.
  intros F. destruct c as [i o r rv sc h]. simpl in F. subst rv.
  unfold setReturnValue. simpl.
  destruct (returns_parse _ _); [|done].
  by destruct r.
Qed.

Lemma run_settled (calls : list Call) (v : Value) (c : T) :
  returnValue c = Fulfilled v -> returnValue (run calls c) = Fulfilled v.
Proof.
  revert c. induction calls as [|call calls IH]; intros c F; [done|].
  change (run (call :: calls) c) with (run calls (apply call c)).
  apply IH. destruct call as [raw|st|p|fn]; simpl; try done.
  - by rewrite (setReturnValue_settled raw v c F).
  - unfold setState. destruct (state_parse _ _); [|done].
    destruct (handleStateChange c) as [handle|]; [|done].
    by destruct (handle _).
Qed.

(** C3: whatever calls are made on a component, its [returnValue] promise
    is fulfilled with the first value passed to [setReturnValue] that the
    returns schema accepts (and stays pending while there is none); after
    that a call of [setReturnValue] leaves the component as it is, and no
    sequence of calls changes the settled value. *)
Theorem setReturnValue_single_resolve :
  (forall (m : MethodName) (lbl : string) (initialProps : Value)
          (h : option (Value -> Result Value)) (calls : list Call),
      returnValue (run calls (component m lbl initialProps h)) =
        match first_valid m (returned calls) with
        | Some v => Fulfilled v
        | None => Pending
        end) /\
  (forall (raw v : Value) (c : T),
      returnValue c = Fulfilled v -> fst (setReturnValue raw c) = c) /\
  (forall (calls : list Call) (v : Value) (c : T),
      returnValue c = Fulfilled v -> returnValue (run calls c) = Fulfilled v).
Proof.
  split; [|split].
  - intros m lbl initialProps h calls.
    by rewrite run_returnValue.
  - apply setReturnValue_settled.
  - apply run_settled.
Qed.

(** *** Further properties of a component *)

(** The handlers a call notified, in order. *)
Definition notified (effects : list (Effect Observer)) : list Observer :=
  omap (fun e => match e with Notify h => Some h | _ => None end) effects.

(** The handler in the slot after a sequence of calls: the one registered
    last, or the one that was there. *)
Definition last_registered (calls : list Call) (slot : option Observer)
    : option Observer :=
  foldl (fun slot call =>
           match call with OnStateChange fn => Some fn | _ => slot end)
        slot calls.

(** A [setState] that fails, because the state schema refuses the value or
    because [handleStateChange] rejects, leaves the component as it was and
    prints and notifies nothing.  One that succeeds resolves with the
    instance of the component after the call and notifies the registered
    handler once, or nobody when none is registered. *)
Theorem setState_fails_cleanly_or_notifies (newState : Value) (c : T) :
  match (setState newState c).2 with
  | Throw _ => (setState newState c).1 = (c, [])
  | Ok i =>
      i = instance (setState newState c).1.1 /\
      notified (setState newState c).1.2 =
        match onStateChangeHandler c with Some h => [h] | None => [] end /\
      onStateChangeHandler (setState newState c).1.1 = onStateChangeHandler c /\
      returnValue (setState newState c).1.1 = returnValue c
  end.
Proof.
  unfold setState, notify.
  destruct (state_parse _ _) as [parsed|]; [|done].
  destruct (handleStateChange c) as [handle|].
  - destruct (handle parsed); [|done]. simpl.
    by destruct (onStateChangeHandler c).
  - simpl. destruct parsed; by destruct (onStateChangeHandler c).
Qed.

(** What a component is does not change: whatever calls are made, the
    method name and the label it renders with, and the schema it validates
    against, are those of the start. *)
Theorem render_identity_is_fixed (calls : list Call) (c : T) :
  ri_methodName (getRenderInfo (run calls c)) = ri_methodName (getRenderInfo c) /\
  ri_label (getRenderInfo (run calls c)) = ri_label (getRenderInfo c) /\
  schema (run calls c) = schema c.
Proof.
  revert c. induction calls as [|call calls IH]; intros c; [done|].
  change (run (call :: calls) c) with (run calls (apply call c)).
  destruct (IH (apply call c)) as (-> & -> & ->).
  destruct call as [v|st|p|fn]; simpl; [| |done|done].
  - unfold setReturnValue. destruct (returns_parse _ _); [|done].
    by destruct (resolver c).
  - unfold setState. destruct (state_parse _ _); [|done].
    destruct (handleStateChange c) as [handle|]; [|done].
    by destruct (handle _).
Qed.

(** The state-change slot holds one handler: after any calls it is the one
    registered last, and [setProps] notifies that handler once and no earlier
    one. *)
Theorem only_last_handler_is_notified (calls : list Call) (c : T)
    (newProps : Value) :
  onStateChangeHandler (run calls c) =
    last_registered calls (onStateChangeHandler c) /\
  notified (setProps newProps (run calls c)).2 =
    match last_registered calls (onStateChangeHandler c) with
    | Some h => [h]
    | None => []
    end.
Proof.
  assert (onStateChangeHandler (run calls c) =
            last_registered calls (onStateChangeHandler c)) as E.
  { revert c. induction calls as [|call calls IH]; intros c; [done|].
    change (run (call :: calls) c) with (run calls (apply call c)).
    rewrite IH. simpl. f_equal.
    destruct call as [v|st|p|fn]; simpl; [| |done|done].
    - unfold setReturnValue. destruct (returns_parse _ _); [|done].
      by destruct (resolver c).
    - unfold setState. destruct (state_parse _ _); [|done].
      destruct (handleStateChange c) as [handle|]; [|done].
      by destruct (handle _). }
  split; [done|]. unfold setProps, notify. simpl. rewrite E.
  by destruct (last_registered _ _).
Qed.

End WithSchema.

(** A sample registry: text inputs return strings, any state is accepted. *)
Definition text_returns (_ : MethodName) (v : Value) : option Value :=
  match v with
  | VStr _ => Some v
  | _ => None
  end.

Definition any_state (_ : MethodName) (v : Value) : option Value := Some v.

Definition answered : @T nat :=
  run text_returns any_state
    [SetReturnValue (VNum 7); SetReturnValue (VStr "ok")]
    (component "INPUT_TEXT" "name" VUndefined None).

Lemma setReturnValue_single_resolve_witness :
  returnValue answered = Fulfilled (VStr "ok") /\
  fst (setReturnValue text_returns (VStr "again") answered) = answered /\
  returnValue
    (run text_returns any_state
       [SetReturnValue (VStr "late"); SetState VNull; SetReturnValue (VNum 3)]
       answered) = Fulfilled (VStr "ok").
Proof.
  destruct (@setReturnValue_single_resolve nat text_returns any_state)
    as (H1 & H2 & H3).
  split; [apply (H1 "INPUT_TEXT" "name" VUndefined None
                    [SetReturnValue (VNum 7); SetReturnValue (VStr "ok")])|].
  split.
  - apply (H2 (VStr "again") (VStr "ok")). reflexivity.
  - apply H3. reflexivity.
Defined.

End Component.

(** ** The host controller: [createIntervalHost]

    The host connects, installs the handlers [START_TRANSACTION] and
    [IO_RESPONSE], and performs the [INITIALIZE_HOST] handshake.  The
    actions of the configuration are the caller's functions: an invocation
    is a promise that settles later, which is an event here. *)

Module Host.

(** An action function of the configuration, by name of its identity. *)
Definition ActionFunction : Type := nat.

(** [InternalConfig].  [config.actions] is an object: [own_actions] are its
    own properties, in the order [Object.keys] lists them, and [inherited] is
    what a read finds on its prototype when the object has no such key of its
    own.  For an object literal these are the members of [Object.prototype]
    ([constructor], [toString], [valueOf], [hasOwnProperty], ...): they are
    truthy and none of them is an action; an object without prototype
    inherits nothing. *)
Record InternalConfig : Type := {
  apiKey : string;
  own_actions : list (string * ActionFunction);
  inherited : gmap string ActionFunction;
  endpoint : option string;
  logLevel : option string
}.

(** The own properties of [config.actions] by name. *)
Definition actions (config : InternalConfig) : gmap string ActionFunction :=
  list_to_map (own_actions config).

(** The calls the host makes through [serverRpc]. *)
Inductive ServerCall : Type :=
| INITIALIZE_HOST (apiKey : string) (callableActionNames : list string)
| SEND_IO_CALL (transactionId : string) (ioCall : string)
| MARK_TRANSACTION_COMPLETE (transactionId : string).

(** [io.replyHandler] of the caller that the n-th [createCaller] built. *)
Definition ReplyHandler : Type := nat.

(** A call [fn(io.client)]: the transaction it serves, the function, the
    caller it was given, and the promise it returned.  When [fn] is not an
    action but a value the object inherits, the call or the [.then] on its
    result throws a [TypeError]: no promise comes back, which the record
    keeps as a promise rejected from the start. *)
Record Invocation : Type := {
  inv_transactionId : string;
  inv_fn : ActionFunction;
  inv_io : ReplyHandler;
  inv_promise : Promise unit
}.

(** What [createIntervalHost] holds once the handlers are installed. *)
Record State : Type := {
  inProgressTransactions : gmap string ReplyHandler;
  invocations : list Invocation;
  server_calls : list ServerCall;
  delivered : list (ReplyHandler * string);
  debug_log : list string
}.

Definition initial : State :=
  {| inProgressTransactions := ∅; invocations := []; server_calls := [];
     delivered := []; debug_log := [] |}.

Definition log_debug (line : string) (s : State) : State :=
  {| inProgressTransactions := inProgressTransactions s;
     invocations := invocations s;
     server_calls := server_calls s;
     delivered := delivered s;
     debug_log := debug_log s ++ [line] |}.

(** [serverRpc(...)] *)
Definition serverRpc (call : ServerCall) (s : State) : State :=
  {| inProgressTransactions := inProgressTransactions s;
     invocations := invocations s;
     server_calls := server_calls s ++ [call];
     delivered := delivered s;
     debug_log := debug_log s |}.

Section WithConfig.

Variable config : InternalConfig.

(** The handler of [START_TRANSACTION].  [config.actions[actionName]] is a
    property read: it finds an own property, or else an inherited one, and
    is [undefined] otherwise.  An inherited value passes [if (!fn)], so the
    caller is created and registered before [fn(io.client).then(...)] throws
    the [TypeError] that rejects the promise of the handler. *)
Definition START_TRANSACTION (transactionId actionName : string) (s : State)
    : State :=
  let s := log_debug "fn" (log_debug "action called" s) in
  match actions config !! actionName with
  | None =>
      match inherited config !! actionName with
      | None => log_debug "No fn called" s
      | Some member =>
          let io : ReplyHandler := length (invocations s) in
          {| inProgressTransactions :=
               <[transactionId := io]> (inProgressTransactions s);
             invocations := invocations s ++
               [{| inv_transactionId := transactionId; inv_fn := member;
                   inv_io := io; inv_promise := Rejected TypeError |}];
             server_calls := server_calls s;
             delivered := delivered s;
             debug_log := debug_log s |}
      end
  | Some fn =>
      let io : ReplyHandler := length (invocations s) in
      {| inProgressTransactions := <[transactionId := io]> (inProgressTransactions s);
         invocations := invocations s ++
           [{| inv_transactionId := transactionId; inv_fn := fn; inv_io := io;
               inv_promise := Pending |}];
         server_calls := server_calls s;
         delivered := delivered s;
         debug_log := debug_log s |}
  end.

(** The handler of [IO_RESPONSE]. *)
Definition IO_RESPONSE (transactionId value : string) (s : State) : State :=
  let s := log_debug "got io response" s in
  match inProgressTransactions s !! transactionId with
  | None => log_debug "Missing reply handler for" s
  | Some replyHandler =>
      {| inProgressTransactions := inProgressTransactions s;
         invocations := invocations s;
         server_calls := server_calls s;
         delivered := delivered s ++ [(replyHandler, value)];
         debug_log := debug_log s |}
  end.

(** The [send] given to [createCaller]: the action of invocation [k] emits
    an IO call. *)
Definition send (k : nat) (text : string) (s : State) : State :=
  match invocations s !! k with
  | None => s
  | Some inv =>
      log_debug "sent"
        (serverRpc (SEND_IO_CALL (inv_transactionId inv) text)
           (log_debug "emitting" s))
  end.

(** The promise of invocation [k] settles.  A fulfilled promise runs the
    [then] callback, which calls [MARK_TRANSACTION_COMPLETE]; a settled
    promise does not settle again. *)
Definition settle (k : nat) (outcome : Result unit) (s : State) : State :=
  match invocations s !! k with
  | None => s
  | Some inv =>
      match inv_promise inv, outcome with
      | Pending, Ok _ =>
          serverRpc (MARK_TRANSACTION_COMPLETE (inv_transactionId inv))
            {| inProgressTransactions := inProgressTransactions s;
               invocations := <[k := {| inv_transactionId := inv_transactionId inv;
                                        inv_fn := inv_fn inv; inv_io := inv_io inv;
                                        inv_promise := Fulfilled () |}]>
                                (invocations s);
               server_calls := server_calls s;
               delivered := delivered s;
               debug_log := debug_log s |}
      | Pending, Throw e =>
          {| inProgressTransactions := inProgressTransactions s;
             invocations := <[k := {| inv_transactionId := inv_transactionId inv;
                                      inv_fn := inv_fn inv; inv_io := inv_io inv;
                                      inv_promise := Rejected e |}]>
                              (invocations s);
             server_calls := server_calls s;
             delivered := delivered s;
             debug_log := debug_log s |}
      | _, _ => s
      end
  end.

(** What can happen to a connected host. *)
Inductive Event : Type :=
| StartTransaction (transactionId actionName : string)
| IOResponse (transactionId value : string)
| ActionSends (k : nat) (text : string)
| ActionSettles (k : nat) (outcome : Result unit).

Definition step (ev : Event) (s : State) : State :=
  match ev with
  | StartTransaction tx name => START_TRANSACTION tx name s
  | IOResponse tx value => IO_RESPONSE tx value s
  | ActionSends k text => send k text s
  | ActionSettles k outcome => settle k outcome s
  end.

Definition run (evs : list Event) (s : State) : State :=
  foldl (fun s ev => step ev s) s evs.

(** What the server answers while [setup] runs: whether [ws.connect()]
    succeeds, and the reply to [INITIALIZE_HOST] (an object with a dashboard
    URL, [false], or a rejection). *)
Record Server : Type := {
  connect : Result unit;
  loggedIn : Result (option string)
}.

(** [setup()]: the promise of the [async] function, the [serverRpc] calls
    it made, and what it printed with [log.prod]. *)
Record SetupRun : Type := {
  setup_promise : Promise unit;
  setup_calls : list ServerCall;
  setup_printed : list string
}.

Definition setup (server : Server) : SetupRun :=
  match connect server with
  | Throw e =>
      {| setup_promise := Rejected e; setup_calls := []; setup_printed := [] |}
  | Ok _ =>
      let handshake :=
        INITIALIZE_HOST (apiKey config) (own_actions config).*1 in
      match loggedIn server with
      | Throw e =>
          {| setup_promise := Rejected e; setup_calls := [handshake];
             setup_printed := [] |}
      | Ok None =>
          {| setup_promise :=
               Rejected (PlainError "The provided API key is not valid");
             setup_calls := [handshake]; setup_printed := [] |}
      | Ok (Some dashboardUrl) =>
          {| setup_promise := Fulfilled (); setup_calls := [handshake];
             setup_printed :=
               ["Connected! Access your actions at: " +:+ dashboardUrl] |}
      end
  end.

(** [createIntervalHost(config)]: it calls [setup()] without awaiting it and
    returns [true].  [returned] is the promise the caller gets, [floating]
    the run of [setup()] whose promise nobody holds. *)
Record Created : Type := {
  returned : Promise bool;
  floating : SetupRun
}.

Definition createIntervalHost (server : Server) : Created :=
  {| returned := Fulfilled true; floating := setup server |}.

(** *** Properties *)

(** No event removes a key of the transaction table. *)
Lemma step_keeps_transaction (ev : Event) (tx : string) (s : State) :
  is_Some (inProgressTransactions s !! tx) ->
  is_Some (inProgressTransactions (step ev s) !! tx).
Proof.
  intros H. destruct ev as [tx' name|tx' value|k text|k outcome]; simpl.
  - unfold START_TRANSACTION.
    destruct (actions config !! name);
      [|destruct (inherited config !! name); [|done]].
    all: simpl; destruct (decide (tx' = tx)) as [->|Hne];
      [rewrite lookup_insert_eq; eauto | by rewrite lookup_insert_ne].
  - unfold IO_RESPONSE. simpl. by destruct (inProgressTransactions s !! tx').
  - unfold send. by destruct (invocations s !! k).
  - unfold settle. destruct (invocations s !! k) as [inv|]; [|done].
    destruct (inv_promise inv); [|done|done]. by destruct outcome.
Qed.

Lemma run_keeps_transaction (evs : list Event) (tx : string) (s : State) :
  is_Some (inProgressTransactions s !! tx) ->
  is_Some (inProgressTransactions (run evs s) !! tx).
Proof.
  revert s. induction evs as [|ev evs IH]; intros s H; [done|].
  apply (IH (step ev s)). by apply step_keeps_transaction.
Qed.

(** An invocation keeps its place and its transaction. *)
Lemma step_keeps_invocation (ev : Event) (k : nat) (tx : string) (s : State) :
  inv_transactionId <$> invocations s !! k = Some tx ->
  inv_transactionId <$> invocations (step ev s) !! k = Some tx.
Proof.
  intros H. destruct ev as [tx' name|tx' value|j text|j outcome]; simpl.
  - unfold START_TRANSACTION.
    destruct (actions config !! name);
      [|destruct (inherited config !! name); [|done]].
    all: simpl; destruct (invocations s !! k) as [inv|] eqn:E; [|done].
    all: by rewrite (lookup_app_l_Some _ _ _ _ E).
  - unfold IO_RESPONSE. simpl. by destruct (inProgressTransactions s !! tx').
  - unfold send. by destruct (invocations s !! j).
  - unfold settle. destruct (invocations s !! j) as [inv|] eqn:E; [|done].
    destruct (inv_promise inv); [|done|done].
    destruct outcome; simpl.
    all: destruct (decide (j = k)) as [->|Hne];
      [ rewrite list_lookup_insert_eq by (by eapply lookup_lt_Some);
        rewrite E in H; by simpl in *
      | by rewrite list_lookup_insert_ne ].
Qed.

Lemma run_keeps_invocation (evs : list Event) (k : nat) (tx : string) (s : State) :
  inv_transactionId <$> invocations s !! k = Some tx ->
  inv_transactionId <$> invocations (run evs s) !! k = Some tx.
Proof.
  revert s. induction evs as [|ev evs IH]; intros s H; [done|].
  apply (IH (step ev s)). by apply step_keeps_invocation.
Qed.

(** C8 (amended): [START_TRANSACTION] with a known action name registers
    the transaction id in the table and invokes the action without calling
    the server; whatever happens next, when the promise of that invocation is
    fulfilled the host calls [MARK_TRANSACTION_COMPLETE] for that id, and the
    table is left as it is: the id stays registered after every event. *)
Theorem start_transaction_marks_complete
    (s : State) (tx name : string) (fn : ActionFunction) :
  actions config !! name = Some fn ->
  let s1 := START_TRANSACTION tx name s in
  let k := length (invocations s) in
  inProgressTransactions s1 !! tx = Some k /\
  invocations s1 !! k =
    Some {| inv_transactionId := tx; inv_fn := fn; inv_io := k;
            inv_promise := Pending |} /\
  server_calls s1 = server_calls s /\
  forall evs : list Event,
    let s2 := run evs s1 in
    is_Some (inProgressTransactions s2 !! tx) /\
    forall inv : Invocation,
      invocations s2 !! k = Some inv ->
      inv_promise inv = Pending ->
      server_calls (settle k (Ok ()) s2) =
        server_calls s2 ++ [MARK_TRANSACTION_COMPLETE tx] /\
      inProgressTransactions (settle k (Ok ()) s2) = inProgressTransactions s2.
Proof.
  intros Hfn s1 k.
  assert (inProgressTransactions s1 !! tx = Some k) as Htab.
  { subst s1 k. unfold START_TRANSACTION. rewrite Hfn. simpl.
    apply lookup_insert_eq. }
  assert (invocations s1 !! k =
            Some {| inv_transactionId := tx; inv_fn := fn; inv_io := k;
                    inv_promise := Pending |}) as Hinv.
  { subst s1 k. unfold START_TRANSACTION. rewrite Hfn. simpl.
    by rewrite list_lookup_middle. }
  split; [done|]. split; [done|]. split.
  { subst s1. unfold START_TRANSACTION. by rewrite Hfn. }
  intros evs s2. split.
  - apply run_keeps_transaction. exists k. exact Htab.
  - intros inv Hk Hp.
    pose proof (run_keeps_invocation evs k tx s1) as Hkeep.
    rewrite Hinv in Hkeep. specialize (Hkeep eq_refl).
    fold s2 in Hkeep. rewrite Hk in Hkeep. simpl in Hkeep.
    injection Hkeep as Htx.
    unfold settle. rewrite Hk, Hp. simpl. by rewrite Htx.
Qed.

(** C9: whatever the server answers, the promise [createIntervalHost]
    returns is fulfilled with [true]; when the handshake answers [false] or
    rejects, the error is the rejection of the promise of [setup()], which is
    not awaited. *)
Theorem createIntervalHost_returns_true :
  (forall server : Server,
      returned (createIntervalHost server) = Fulfilled true) /\
  setup_promise
    (floating (createIntervalHost {| connect := Ok (); loggedIn := Ok None |})) =
    Rejected (PlainError "The provided API key is not valid") /\
  (forall e : Error,
      setup_promise
        (floating (createIntervalHost {| connect := Ok (); loggedIn := Throw e |})) =
        Rejected e).
Proof. done. Qed.

(** *** Further properties of the host *)

(** What the read [config.actions[name]] finds. *)
Definition found (name : string) : option ActionFunction :=
  match actions config !! name with
  | Some fn => Some fn
  | None => inherited config !! name
  end.

(** An event that registers transaction [tx]: a [START_TRANSACTION] for it
    whose action name the read finds, as an action or as an inherited
    value. *)
Definition starts (tx : string) (ev : Event) : bool :=
  match ev with
  | StartTransaction tx' name =>
      bool_decide (tx' = tx) && bool_decide (is_Some (found name))
  | _ => false
  end.

(** The transactions of the [MARK_TRANSACTION_COMPLETE] calls, in order. *)
Definition marked (s : State) : list string :=
  omap (fun call =>
          match call with MARK_TRANSACTION_COMPLETE tx => Some tx | _ => None end)
       (server_calls s).

Definition is_fulfilled (inv : Invocation) : bool :=
  match inv_promise inv with Fulfilled _ => true | _ => false end.

(** The transactions whose action has resolved, in the order they were
    started. *)
Definition resolved (s : State) : list string :=
  inv_transactionId <$> filter (fun inv => is_fulfilled inv = true) (invocations s).

Lemma step_table_frame (ev : Event) (tx : string) (s : State) :
  starts tx ev = false ->
  inProgressTransactions (step ev s) !! tx = inProgressTransactions s !! tx.
Proof.
  intros H. destruct ev as [tx' name|tx' value|k text|k outcome]; simpl in *.
  - unfold START_TRANSACTION. unfold found in H.
    destruct (actions config !! name) as [fn|] eqn:E;
      [|destruct (inherited config !! name) as [fn|] eqn:E'; [|done]].
    all: simpl; rewrite (bool_decide_eq_true_2 (is_Some (Some fn))) in H by eauto.
    all: rewrite andb_true_r in H; apply bool_decide_eq_false in H.
    all: by rewrite lookup_insert_ne.
  - unfold IO_RESPONSE. simpl. by destruct (inProgressTransactions s !! tx').
  - unfold send. by destruct (invocations s !! k).
  - unfold settle. destruct (invocations s !! k) as [inv|]; [|done].
    destruct (inv_promise inv); [|done|done]. by destruct outcome.
Qed.

Lemma run_table_frame (evs : list Event) (tx : string) (s : State) :
  forallb (fun ev => negb (starts tx ev)) evs = true ->
  inProgressTransactions (run evs s) !! tx = inProgressTransactions s !! tx.
Proof.
  revert s. induction evs as [|ev evs IH]; intros s H; [done|].
  simpl in H. apply andb_prop in H as [Hev Hevs].
  change (run (ev :: evs) s) with (run evs (step ev s)).
  rewrite (IH _ Hevs). apply step_table_frame. by apply negb_true_iff.
Qed.

(** A response reaches the caller of the latest start of its transaction:
    after [START_TRANSACTION] for [tx] with a name that the read
    [config.actions[name]] finds, as an action or as an inherited value, and
    any events that do not start [tx] again in this way, [IO_RESPONSE] for
    [tx] hands the value to the reply handler created by that start, whether
    or not [tx] was registered before. *)
Theorem response_reaches_latest_start (s : State) (tx name value : string)
    (evs : list Event) :
  is_Some (found name) ->
  forallb (fun ev => negb (starts tx ev)) evs = true ->
  delivered (IO_RESPONSE tx value (run evs (START_TRANSACTION tx name s))) =
    delivered (run evs (START_TRANSACTION tx name s)) ++
    [(length (invocations s), value)].
Proof.
  intros Hfn Hevs. unfold IO_RESPONSE. simpl.
  rewrite (run_table_frame evs tx _ Hevs).
  unfold START_TRANSACTION at 1. unfold found in Hfn.
  destruct (actions config !! name);
    [|destruct (inherited config !! name); [|by destruct Hfn]].
  all: simpl; by rewrite lookup_insert_eq.
Qed.

(** A response for a transaction that no [START_TRANSACTION] registered is
    dropped: when no event started [tx] with a name that the read
    [config.actions[name]] finds, nothing is delivered, no call is made and
    no action runs.  This includes a [START_TRANSACTION] for [tx] that named
    neither an action nor an inherited value. *)
Theorem unstarted_response_is_dropped (tx value : string) (evs : list Event) :
  forallb (fun ev => negb (starts tx ev)) evs = true ->
  delivered (IO_RESPONSE tx value (run evs initial)) = delivered (run evs initial) /\
  server_calls (IO_RESPONSE tx value (run evs initial)) =
    server_calls (run evs initial) /\
  invocations (IO_RESPONSE tx value (run evs initial)) =
    invocations (run evs initial) /\
  inProgressTransactions (IO_RESPONSE tx value (run evs initial)) =
    inProgressTransactions (run evs initial).
Proof.
  intros Hevs. unfold IO_RESPONSE. simpl.
  rewrite (run_table_frame evs tx _ Hevs). done.
Qed.

Lemma filter_insert_fulfilled (k : nat) (old new : Invocation)
    (l : list Invocation) :
  l !! k = Some old ->
  is_fulfilled old = false ->
  inv_transactionId new = inv_transactionId old ->
  inv_transactionId <$> filter (fun inv => is_fulfilled inv = true) (<[k := new]> l)
    ≡ₚ (if is_fulfilled new then [inv_transactionId old] else []) ++
       (inv_transactionId <$> filter (fun inv => is_fulfilled inv = true) l).
Proof.
  intros Hk Hold Hnew.
  rewrite <- (take_drop_middle l k old Hk) at 2.
  rewrite (insert_take_drop l k new) by (by eapply lookup_lt_Some).
  rewrite !filter_app, !filter_cons, !fmap_app.
  rewrite (decide_False (P := is_fulfilled old = true)) by (by rewrite Hold).
  destruct (is_fulfilled new) eqn:E.
  - rewrite (decide_True (P := true = true)) by done.
    rewrite fmap_cons, Hnew. by rewrite <- Permutation_middle.
  - by rewrite (decide_False (P := false = true)).
Qed.

(** [MARK_TRANSACTION_COMPLETE] is called once per resolved action and for
    nothing else: after any events on a new host, the transactions marked
    complete are, up to order, those of the invocations whose promise is
    fulfilled.  An action that rejects or is still running is never marked,
    and none is marked twice. *)
Theorem marked_are_the_resolved (evs : list Event) :
  marked (run evs initial) ≡ₚ resolved (run evs initial).
Proof.
  assert (forall ev s, marked s ≡ₚ resolved s ->
                       marked (step ev s) ≡ₚ resolved (step ev s)) as Hstep.
  { intros ev s H. unfold marked, resolved in *.
    destruct ev as [tx name|tx value|k text|k outcome]; simpl.
    - unfold START_TRANSACTION.
      destruct (actions config !! name);
        [|destruct (inherited config !! name); [|done]].
      all: simpl; rewrite filter_app, filter_cons, decide_False by done.
      all: by rewrite filter_nil, app_nil_r.
    - unfold IO_RESPONSE. simpl. by destruct (inProgressTransactions s !! tx).
    - unfold send. destruct (invocations s !! k); [|done]. simpl.
      rewrite omap_app. simpl. by rewrite app_nil_r.
    - unfold settle. destruct (invocations s !! k) as [inv|] eqn:E; [|done].
      destruct (inv_promise inv) eqn:P; [|done|done].
      destruct outcome as [[]|e]; simpl.
      + rewrite omap_app. simpl.
        rewrite (filter_insert_fulfilled k inv _ _ E) by (by unfold is_fulfilled; rewrite ?P).
        simpl. rewrite H. by rewrite <- Permutation_cons_append.
      + rewrite (filter_insert_fulfilled k inv _ _ E) by (by unfold is_fulfilled; rewrite ?P).
        done. }
  assert (forall s, marked s ≡ₚ resolved s ->
                    marked (run evs s) ≡ₚ resolved (run evs s)) as Hrun.
  { induction evs as [|ev evs IH]; intros s H; [done|].
    apply (IH (step ev s)), Hstep, H. }
  by apply Hrun.
Qed.

(** An IO call of an action carries the transaction id of its own
    invocation, whatever happened since it was started. *)
Theorem io_call_carries_own_transaction (s : State) (tx name text : string)
    (fn : ActionFunction) (evs : list Event) :
  actions config !! name = Some fn ->
  server_calls
    (send (length (invocations s)) text (run evs (START_TRANSACTION tx name s))) =
    server_calls (run evs (START_TRANSACTION tx name s)) ++ [SEND_IO_CALL tx text].
Proof.
  intros Hfn.
  pose proof (run_keeps_invocation evs (length (invocations s)) tx
                (START_TRANSACTION tx name s)) as Hkeep.
  unfold START_TRANSACTION at 1 in Hkeep. rewrite Hfn in Hkeep. simpl in Hkeep.
  rewrite list_lookup_middle in Hkeep by done. specialize (Hkeep eq_refl).
  unfold send.
  destruct (invocations (run evs (START_TRANSACTION tx name s)) !! _)
    as [inv|]; [|done].
  simpl in *. by injection Hkeep as ->.
Qed.

(** [setup] succeeds exactly when the connection opens and the handshake
    answers with an object.  Whenever the connection opens, whatever the
    answer, [setup] makes one call: [INITIALIZE_HOST] with the API key and the
    own keys of [config.actions] in the order of the object, which are the
    names [START_TRANSACTION] finds as actions.  When the connection fails it
    makes no call. *)
Theorem setup_succeeds_iff_logged_in (server : Server) :
  (setup_promise (setup server) = Fulfilled () <->
   connect server = Ok () /\ exists url, loggedIn server = Ok (Some url)) /\
  (connect server = Ok () ->
   setup_calls (setup server) =
     [INITIALIZE_HOST (apiKey config) (own_actions config).*1] /\
   forall name,
     name ∈ (own_actions config).*1 <-> is_Some (actions config !! name)) /\
  (setup_calls (setup server) = [] <-> exists e, connect server = Throw e).
Proof.
  unfold setup. split; [|split].
  - destruct (connect server) as [[]|e]; simpl.
    + destruct (loggedIn server) as [[url|]|e]; simpl; split;
        try done; try (intros [_ [? [=]]]); eauto.
    + split; [done|]. by intros [[=] _].
  - intros ->. split.
    + by destruct (loggedIn server) as [[?|]|?].
    + intros name. unfold actions. split.
      * intros Hin. destruct (list_to_map (own_actions config) !! name)
          as [fn|] eqn:E; [eauto|].
        by apply not_elem_of_list_to_map in E.
      * intros [fn Hfn]. apply elem_of_list_to_map_2 in Hfn.
        apply list_elem_of_fmap. by exists (name, fn).
  - destruct (connect server) as [[]|e]; simpl.
    + destruct (loggedIn server) as [[url|]|e]; simpl; split;
        try done; by intros [? [=]].
    + split; eauto.
Qed.

End WithConfig.

(** The members of [Object.prototype], each under an identity of its own. *)
Definition Object_prototype : gmap string ActionFunction :=
  list_to_map
    [("constructor", 100%nat); ("__defineGetter__", 101%nat);
     ("__defineSetter__", 102%nat); ("hasOwnProperty", 103%nat);
     ("__lookupGetter__", 104%nat); ("__lookupSetter__", 105%nat);
     ("isPrototypeOf", 106%nat); ("propertyIsEnumerable", 107%nat);
     ("toString", 108%nat); ("valueOf", 109%nat); ("__proto__", 110%nat);
     ("toLocaleString", 111%nat)].

(** A host with one action, given in an object literal. *)
Definition refunds : InternalConfig :=
  {| apiKey := "live_key"; own_actions := [("refund", 0%nat)];
     inherited := Object_prototype;
     endpoint := None; logLevel := None |}.

Lemma start_transaction_marks_complete_witness :
  inProgressTransactions (START_TRANSACTION refunds "tx1" "refund" initial)
    !! "tx1" = Some 0%nat /\
  server_calls
    (run refunds
       [StartTransaction "tx1" "refund"; IOResponse "tx1" "42";
        ActionSettles 0 (Ok ())] initial) =
    [MARK_TRANSACTION_COMPLETE "tx1"] /\
  is_Some
    (inProgressTransactions
       (run refunds
          [StartTransaction "tx1" "refund"; IOResponse "tx1" "42";
           ActionSettles 0 (Ok ())] initial) !! "tx1").
Proof.
  assert (actions refunds !! "refund" = Some 0%nat) as Hfn
    by (vm_compute; reflexivity).
  destruct (start_transaction_marks_complete refunds initial "tx1" "refund"
              0%nat Hfn) as (H1 & H2 & H3 & H4).
  split; [exact H1|].
  destruct (H4 [IOResponse "tx1" "42"]) as (_ & Hdone).
  destruct (H4 [IOResponse "tx1" "42"; ActionSettles 0 (Ok ())]) as (Hkept & _).
  split; [|exact Hkept].
  eapply (proj1 (Hdone _ _ _)).
  Unshelve.
  - exact {| inv_transactionId := "tx1"; inv_fn := 0%nat; inv_io := 0%nat;
             inv_promise := Pending |}.
  - vm_compute. reflexivity.
  - reflexivity.
Defined.

(** C8 as stated fails: after the action of ["tx1"] has resolved and
    [MARK_TRANSACTION_COMPLETE] was called, ["tx1"] is still in the table. *)
Lemma completed_transaction_stays_registered :
  server_calls
    (run refunds [StartTransaction "tx1" "refund"; ActionSettles 0 (Ok ())]
       initial) = [MARK_TRANSACTION_COMPLETE "tx1"] /\
  inProgressTransactions
    (run refunds [StartTransaction "tx1" "refund"; ActionSettles 0 (Ok ())]
       initial) !! "tx1" = Some 0%nat.
Proof. split; vm_compute; reflexivity. Qed.

(** The latest start of ["tx1"] names [toString], which the object inherits:
    the response goes to the caller of that start, the third one, and not to
    the action started first. *)
Lemma response_reaches_latest_start_witness :
  delivered
    (IO_RESPONSE "tx1" "42"
       (run refunds [IOResponse "tx1" "first"; StartTransaction "tx2" "refund";
                     StartTransaction "tx1" "unknown"]
          (START_TRANSACTION refunds "tx1" "toString"
             (run refunds [StartTransaction "tx1" "refund";
                           StartTransaction "tx3" "refund"] initial)))) =
    delivered
      (run refunds [IOResponse "tx1" "first"; StartTransaction "tx2" "refund";
                    StartTransaction "tx1" "unknown"]
         (START_TRANSACTION refunds "tx1" "toString"
            (run refunds [StartTransaction "tx1" "refund";
                          StartTransaction "tx3" "refund"] initial))) ++
    [(2%nat, "42")].
Proof.
  apply (response_reaches_latest_start refunds
           (run refunds [StartTransaction "tx1" "refund";
                         StartTransaction "tx3" "refund"] initial)
           "tx1" "toString" "42"
           [IOResponse "tx1" "first"; StartTransaction "tx2" "refund";
            StartTransaction "tx1" "unknown"]).
  - vm_compute. eauto.
  - vm_compute. reflexivity.
Defined.

Lemma unstarted_response_is_dropped_witness :
  delivered
    (IO_RESPONSE "tx9" "42"
       (run refunds [StartTransaction "tx1" "refund";
                     StartTransaction "tx9" "unknown"] initial)) =
    delivered
      (run refunds [StartTransaction "tx1" "refund";
                    StartTransaction "tx9" "unknown"] initial) /\
  server_calls
    (IO_RESPONSE "tx9" "42"
       (run refunds [StartTransaction "tx1" "refund";
                     StartTransaction "tx9" "unknown"] initial)) =
    server_calls
      (run refunds [StartTransaction "tx1" "refund";
                    StartTransaction "tx9" "unknown"] initial) /\
  invocations
    (IO_RESPONSE "tx9" "42"
       (run refunds [StartTransaction "tx1" "refund";
                     StartTransaction "tx9" "unknown"] initial)) =
    invocations
      (run refunds [StartTransaction "tx1" "refund";
                    StartTransaction "tx9" "unknown"] initial) /\
  inProgressTransactions
    (IO_RESPONSE "tx9" "42"
       (run refunds [StartTransaction "tx1" "refund";
                     StartTransaction "tx9" "unknown"] initial)) =
    inProgressTransactions
      (run refunds [StartTransaction "tx1" "refund";
                    StartTransaction "tx9" "unknown"] initial).
Proof.
  apply (unstarted_response_is_dropped refunds "tx9" "42"
           [StartTransaction "tx1" "refund"; StartTransaction "tx9" "unknown"]).
  vm_compute. reflexivity.
Defined.

Lemma io_call_carries_own_transaction_witness :
  server_calls
    (send 0 "render"
       (run refunds [StartTransaction "tx2" "refund"; ActionSends 1 "other"]
          (START_TRANSACTION refunds "tx1" "refund" initial))) =
    server_calls
      (run refunds [StartTransaction "tx2" "refund"; ActionSends 1 "other"]
         (START_TRANSACTION refunds "tx1" "refund" initial)) ++
    [SEND_IO_CALL "tx1" "render"].
Proof.
  apply (io_call_carries_own_transaction refunds initial "tx1" "refund"
           "render" 0%nat
           [StartTransaction "tx2" "refund"; ActionSends 1 "other"]).
  vm_compute. reflexivity.
Defined.

Lemma setup_succeeds_iff_logged_in_witness :
  setup_promise
    (setup refunds {| connect := Ok (); loggedIn := Ok (Some "https://dash") |}) =
    Fulfilled () /\
  setup_calls
    (setup refunds {| connect := Ok (); loggedIn := Ok None |}) =
    [INITIALIZE_HOST "live_key" ["refund"]].
Proof.
  destruct (setup_succeeds_iff_logged_in refunds
              {| connect := Ok (); loggedIn := Ok (Some "https://dash") |})
    as (H1 & _ & _).
  destruct (setup_succeeds_iff_logged_in refunds
              {| connect := Ok (); loggedIn := Ok None |})
    as (_ & H2 & _).
  split.
  - apply H1. split; [reflexivity|]. by exists "https://dash".
  - apply (proj1 (H2 eq_refl)).
Defined.

End Host.

(** ** [IOClient]: the render loop of a transaction

    A call of [renderComponents] leaves a closure behind: the input group
    key, the flag [isReturned], the validation message, the components, and
    the [resolve]/[reject] pair of the promise it returned.  The client keeps
    the closure of the last call as [onResponseHandler]; the components keep
    its [render] as their state-change handler.  In [onResponseHandler_of]
    and [step] a response is handled in one piece, as when the validators and
    state handlers the handler awaits finish before the next event; the
    section on the handler across its awaits runs it from one await to the
    next, with other events in between. *)

Module IOClient.

Import Component.

(** [T_IO_RESPONSE] *)
Inductive ResponseKind : Type := K_RETURN | K_SET_STATE | K_CANCELED.

Record T_IO_RESPONSE : Type := {
  r_inputGroupKey : option string;
  r_kind : ResponseKind;
  r_values : list Value;
  r_valuesMeta : Value
}.

(** [T_IO_RENDER_INPUT], whose [kind] is always ['RENDER']. *)
Record RenderItem : Type := {
  item_methodName : MethodName;
  item_label : string;
  item_props : Value;
  item_propsMeta : Value
}.

Record T_IO_RENDER_INPUT : Type := {
  p_id : string;
  p_inputGroupKey : string;
  p_toRender : list RenderItem;
  p_validationErrorMessage : option string
}.

(** Modelled from the spec: the per-return validator of a component.  The
    class [IOComponent] ([validator], [handleValidation]) is not among the
    sources; [validate(fn)] attaches a validator that gives a message for a
    value it refuses, and [handleValidation] gives that message back.  The
    rest of the component is [component.ts], with the loops as observers.
    [renderComponents] reads one thing of the result, whether it is
    [undefined]; the variable [validationErrorMessage] is local to the call
    of [renderComponents], so no method of a component can assign it. *)
Record IOComponent : Type := {
  base : @Component.T nat;
  validator : option (Value -> option string)
}.

Definition handleValidation (c : IOComponent) (v : Value) : option string :=
  match validator c with
  | Some validate => validate v
  | None => None
  end.

(** The closure of one [renderComponents] call. [outer] is the promise the
    call returned, as [resolve] and [reject] left it. *)
Record Loop : Type := {
  inputGroupKey : string;
  isReturned : bool;
  validationErrorMessage : option string;
  components : list IOComponent;
  groupValidator : option (list Value -> option string);
  outer : Promise (list Value)
}.

(** The client with the closures it created, what it passed to [send], the
    number of UUIDs drawn, and the lines written to the logger and the
    console. *)
Record World : Type := {
  loops : list Loop;
  isCanceled : bool;
  onResponseHandler : option nat;
  sent : list T_IO_RENDER_INPUT;
  uuids : nat;
  logger : list string;
  console : list string
}.

(** [new IOClient({ logger, send })] *)
Definition new : World :=
  {| loops := []; isCanceled := false; onResponseHandler := None; sent := [];
     uuids := 0; logger := []; console := [] |}.

(** Field updates. *)
Definition set_loops (ls : list Loop) (w : World) : World :=
  {| loops := ls; isCanceled := isCanceled w;
     onResponseHandler := onResponseHandler w; sent := sent w;
     uuids := uuids w; logger := logger w; console := console w |}.

Definition set_isCanceled (b : bool) (w : World) : World :=
  {| loops := loops w; isCanceled := b;
     onResponseHandler := onResponseHandler w; sent := sent w;
     uuids := uuids w; logger := logger w; console := console w |}.

Definition set_onResponseHandler (h : option nat) (w : World) : World :=
  {| loops := loops w; isCanceled := isCanceled w;
     onResponseHandler := h; sent := sent w;
     uuids := uuids w; logger := logger w; console := console w |}.

Definition set_sent (s : list T_IO_RENDER_INPUT) (w : World) : World :=
  {| loops := loops w; isCanceled := isCanceled w;
     onResponseHandler := onResponseHandler w; sent := s;
     uuids := uuids w; logger := logger w; console := console w |}.

Definition set_uuids (n : nat) (w : World) : World :=
  {| loops := loops w; isCanceled := isCanceled w;
     onResponseHandler := onResponseHandler w; sent := sent w;
     uuids := n; logger := logger w; console := console w |}.

Definition set_logger (lines : list string) (w : World) : World :=
  {| loops := loops w; isCanceled := isCanceled w;
     onResponseHandler := onResponseHandler w; sent := sent w;
     uuids := uuids w; logger := lines; console := console w |}.

Definition set_console (lines : list string) (w : World) : World :=
  {| loops := loops w; isCanceled := isCanceled w;
     onResponseHandler := onResponseHandler w; sent := sent w;
     uuids := uuids w; logger := logger w; console := lines |}.

Definition set_isReturned (b : bool) (l : Loop) : Loop :=
  {| inputGroupKey := inputGroupKey l; isReturned := b;
     validationErrorMessage := validationErrorMessage l;
     components := components l; groupValidator := groupValidator l;
     outer := outer l |}.

Definition set_validationErrorMessage (m : option string) (l : Loop) : Loop :=
  {| inputGroupKey := inputGroupKey l; isReturned := isReturned l;
     validationErrorMessage := m;
     components := components l; groupValidator := groupValidator l;
     outer := outer l |}.

Definition set_components (cs : list IOComponent) (l : Loop) : Loop :=
  {| inputGroupKey := inputGroupKey l; isReturned := isReturned l;
     validationErrorMessage := validationErrorMessage l;
     components := cs; groupValidator := groupValidator l;
     outer := outer l |}.

Definition set_outer (p : Promise (list Value)) (l : Loop) : Loop :=
  {| inputGroupKey := inputGroupKey l; isReturned := isReturned l;
     validationErrorMessage := validationErrorMessage l;
     components := components l; groupValidator := groupValidator l;
     outer := p |}.

Definition set_base (b : @Component.T nat) (c : IOComponent) : IOComponent :=
  {| base := b; validator := validator c |}.

(** *** Computations on the client: state, and a result or an exception *)

Definition M (A : Type) : Type := World -> World * Result A.

Definition ret {A} (a : A) : M A := fun w => (w, Ok a).

Definition throw {A} (e : Error) : M A := fun w => (w, Throw e).

Definition bind {A B} (m : M A) (k : A -> M B) : M B :=
  fun w =>
    match m w with
    | (w', Ok a) => k a w'
    | (w', Throw e) => (w', Throw e)
    end.

Notation "'let*' x ':=' m 'in' k" := (bind m (fun x => k))
  (at level 10, x name, m at level 100, k at level 200, only parsing).

Definition gets {A} (f : World -> A) : M A := fun w => (w, Ok (f w)).

Definition modify (f : World -> World) : M unit := fun w => (f w, Ok ()).

(** A statement per element of an array, with its index, in order. *)
Fixpoint for_each {A} (body : nat -> A -> M unit) (index : nat) (l : list A)
    : M unit :=
  match l with
  | [] => ret ()
  | a :: rest =>
      let* _ := body index a in
      for_each body (S index) rest
  end.

(** [Promise.all(array.map(async (v, index) => ...))] *)
Fixpoint map_indexed {A B} (body : nat -> A -> M B) (index : nat) (l : list A)
    : M (list B) :=
  match l with
  | [] => ret []
  | a :: rest =>
      let* b := body index a in
      let* bs := map_indexed body (S index) rest in
      ret (b :: bs)
  end.

Section Client.

(** The [n]-th UUID that [v4()] draws. *)
Variable v4 : nat -> string.

(** [JSON.stringify], which gives [undefined] for some values. *)
Variable json_stringify : Value -> option string.

(** The value codec: [superjson.serialize] gives [json] and [meta],
    [superjson.deserialize] takes the values and their [meta]. *)
Variable superjson_serialize : Value -> Value * Value.
Variable superjson_deserialize : list Value -> Value -> list Value.
Variable stripUndefined : Value -> Value.

(** The registry [ioSchema]. *)
Variable returns_parse : MethodName -> Value -> option Value.
Variable state_parse : MethodName -> Value -> option Value.

(** The closure variables of loop [lid]. *)
Definition loop (lid : nat) : M Loop :=
  fun w =>
    match loops w !! lid with
    | Some l => (w, Ok l)
    | None => (w, Throw TypeError)
    end.

Definition update_loop (lid : nat) (f : Loop -> Loop) : M unit :=
  modify (fun w => set_loops (alter f lid (loops w)) w).

(** [components[index]], whose members are read next: a [TypeError] when
    the index is out of range. *)
Definition component_at (lid index : nat) : M IOComponent :=
  let* l := loop lid in
  match components l !! index with
  | Some c => ret c
  | None => throw TypeError
  end.

Definition set_component (lid index : nat) (c : IOComponent) : M unit :=
  update_loop lid (fun l => set_components (<[index := c]> (components l)) l).

Definition logger_debug (line : string) : M unit :=
  modify (fun w => set_logger (logger w ++ [line]) w).

(** [components.map(c => c.getRenderInfo()).map(...)] *)
Definition toRender (cs : list IOComponent) : list RenderItem :=
  map (fun c =>
         let info := getRenderInfo (base c) in
         let '(json, meta) := superjson_serialize (stripUndefined (ri_props info)) in
         {| item_methodName := ri_methodName info;
            item_label := ri_label info;
            item_props := json;
            item_propsMeta := meta |})
      cs.

(** [render()] of loop [lid]: pack and [send]. *)
Definition render (lid : nat) : M unit :=
  fun w =>
    match loops w !! lid with
    | None => (w, Ok ())
    | Some l =>
        let packed :=
          {| p_id := v4 (uuids w);
             p_inputGroupKey := inputGroupKey l;
             p_toRender := toRender (components l);
             p_validationErrorMessage := validationErrorMessage l |} in
        (set_sent (sent w ++ [packed]) (set_uuids (S (uuids w)) w), Ok ())
    end.

(** What a component call did: console lines, and the handler it called,
    which is the [render] of a loop. *)
Definition perform (e : Effect nat) : M unit :=
  match e with
  | ConsoleWarn line | ConsoleLog line =>
      modify (fun w => set_console (console w ++ [line]) w)
  | Notify lid => render lid
  end.

Definition perform_all (effects : list (Effect nat)) : M unit :=
  for_each (fun _ e => perform e) 0 effects.

(** [result.inputGroupKey && result.inputGroupKey !== inputGroupKey] *)
Definition other_group (result : T_IO_RESPONSE) (l : Loop) : bool :=
  truthy_str (r_inputGroupKey result) &&
  negb (bool_decide (r_inputGroupKey result = Some (inputGroupKey l))).

(** The values the branches work on: deserialized when [valuesMeta] is
    there. *)
Definition received_values (result : T_IO_RESPONSE) : list Value :=
  if truthy (r_valuesMeta result)
  then superjson_deserialize (r_values result) (r_valuesMeta result)
  else r_values result.

(** One entry of [validities]. *)
Definition validity (lid index : nat) (v : Value) : M bool :=
  let* component := component_at lid index in
  match validator component with
  | Some _ => ret (bool_decide (handleValidation component v = None))
  | None => ret true
  end.

(** [components[index].setReturnValue(v)] *)
Definition return_value (lid index : nat) (v : Value) : M unit :=
  let* component := component_at lid index in
  let '(b, r) := setReturnValue returns_parse v (base component) in
  let* _ := set_component lid index (set_base b component) in
  match r with
  | Ok _ => ret ()
  | Throw e => throw e
  end.

(** The branch [result.kind === 'RETURN'], in one piece: the awaits of the
    validations and of the group validator are where [handler_resume] goes
    on. *)
Definition handle_RETURN (lid : nat) (values : list Value) : M unit :=
  let* validities := map_indexed (validity lid) 0 values in
  if existsb negb validities then render lid
  else
    let* l := loop lid in
    let* again :=
      match groupValidator l with
      | Some validate =>
          let message := validate values in
          let* _ := update_loop lid (set_validationErrorMessage message) in
          if truthy_str message
          then let* _ := render lid in ret true
          else ret false
      | None => ret false
      end in
    if again : bool then ret ()
    else
      let* _ := update_loop lid (set_isReturned true) in
      for_each (return_value lid) 0 values.

(** [JSON.stringify(newState) !== JSON.stringify(prevState)] *)
Definition differs (newState prevState : Value) : bool :=
  negb (bool_decide (json_stringify newState = json_stringify prevState)).

(** One round of the loop over [result.values.entries()]. *)
Definition receive_state (lid index : nat) (newState : Value) : M unit :=
  let* component := component_at lid index in
  let prevState := state (getInstance (base component)) in
  if differs newState prevState then
    let* _ := logger_debug "New state at" in
    let '(b, effects, r) := setState state_parse newState (base component) in
    let* _ := set_component lid index (set_base b component) in
    let* _ := perform_all effects in
    match r with
    | Ok _ => ret ()
    | Throw e => throw e
    end
  else ret ().

(** The branch [result.kind === 'SET_STATE']. *)
Definition handle_SET_STATE (lid : nat) (values : list Value) : M unit :=
  let* _ := for_each (receive_state lid) 0 values in
  render lid.

(** [this.onResponseHandler] as loop [lid] installed it. *)
Definition onResponseHandler_of (lid : nat) (result : T_IO_RESPONSE) : M unit :=
  let* l := loop lid in
  if other_group result l then
    logger_debug "Received response for other input group"
  else
    let* canceled := gets isCanceled in
    if canceled || isReturned l then
      logger_debug "Received response after IO call complete"
    else
      match r_kind result with
      | K_CANCELED =>
          let* _ := modify (set_isCanceled true) in
          update_loop lid (fun l => set_outer (reject (outer l) (IOError CANCELED)) l)
      | kind =>
          if negb (length (r_values result) =? length (components l))%nat then
            throw (PlainError "Mismatch in return array length")
          else
            let values := received_values result in
            match kind with
            | K_RETURN => handle_RETURN lid values
            | K_SET_STATE => handle_SET_STATE lid values
            | K_CANCELED => ret ()
            end
      end.

(** [onResponse(result)]: the handler is an [async] function, so the
    [try]/[catch] around the call sees no exception; what the handler throws
    rejects a promise that is dropped. *)
Definition onResponse (result : T_IO_RESPONSE) (w : World) : World :=
  match onResponseHandler w with
  | None => w
  | Some lid => fst (onResponseHandler_of lid result w)
  end.

(** [renderComponents(components, groupValidator)]: the result is the loop
    behind the promise it returns, or the error the promise rejects with. *)
Definition renderComponents (cs : list IOComponent)
    (validate : option (list Value -> option string)) : M nat :=
  let* canceled := gets isCanceled in
  if canceled : bool then throw (IOError TRANSACTION_CLOSED)
  else
    fun w =>
      let lid := length (loops w) in
      let l :=
        {| inputGroupKey := v4 (uuids w);
           isReturned := false;
           validationErrorMessage := None;
           components :=
             map (fun c => set_base (onStateChange lid (base c)) c) cs;
           groupValidator := validate;
           outer := Pending |} in
      let w := set_uuids (S (uuids w)) w in
      let w := set_loops (loops w ++ [l]) w in
      let w := set_onResponseHandler (Some lid) w in
      (fst (render lid w), Ok lid).

(** [await Promise.all(components.map(comp => comp.returnValue))] and then
    [resolve(response)]: a loop whose components all have their value
    resolves its promise. *)
Definition settle (l : Loop) : Loop :=
  match mapM (fun c => fulfilled_value (returnValue (base c))) (components l) with
  | Some values => set_outer (resolve (outer l) values) l
  | None => l
  end.

Definition settle_all (w : World) : World :=
  set_loops (settle <$> loops w) w.

(** A component as the action builds it before it renders it: the
    constructor, the validator attached to it, and the calls made on it. *)
Record Built : Type := {
  b_methodName : MethodName;
  b_label : string;
  b_initialProps : Value;
  b_handleStateChange : option (Value -> Result Value);
  b_validator : option (Value -> option string);
  b_calls : list (@Call nat)
}.

Definition build (b : Built) : IOComponent :=
  {| base := Component.run returns_parse state_parse (b_calls b)
               (component (b_methodName b) (b_label b) (b_initialProps b)
                          (b_handleStateChange b));
     validator := b_validator b |}.

(** A call on a component that a loop renders. *)
Definition component_call (lid index : nat) (call : @Call nat) : M unit :=
  let* component := component_at lid index in
  match call with
  | SetReturnValue v => return_value lid index v
  | SetState newState =>
      let '(b, effects, r) := setState state_parse newState (base component) in
      let* _ := set_component lid index (set_base b component) in
      let* _ := perform_all effects in
      match r with
      | Ok _ => ret ()
      | Throw e => throw e
      end
  | SetProps newProps =>
      let '(b, effects) := setProps newProps (base component) in
      let* _ := set_component lid index (set_base b component) in
      perform_all effects
  | OnStateChange fn =>
      set_component lid index (set_base (onStateChange fn (base component)) component)
  end.

(** What happens to a client: the action awaits a batch, a response
    arrives, or the action's code calls a rendered component.  After each
    event the promises that can resolve do. *)
Inductive Event : Type :=
| RenderComponents (cs : list Built) (validate : option (list Value -> option string))
| OnResponse (result : T_IO_RESPONSE)
| ComponentCall (lid index : nat) (call : @Call nat).

Definition step (ev : Event) (w : World) : World :=
  settle_all
    match ev with
    | RenderComponents cs validate =>
        fst (renderComponents (build <$> cs) validate w)
    | OnResponse result => onResponse result w
    | ComponentCall lid index call => fst (component_call lid index call w)
    end.

Definition run (evs : list Event) (w : World) : World :=
  foldl (fun w ev => step ev w) w evs.

(** *** Invariants of the client

    [invariant Inv m R]: the computation [m] keeps [Inv], and a result it
    gives satisfies [R]. *)

Section Hoare.

Variable Inv : World -> Prop.

Definition invariant {A} (m : M A) (R : A -> Prop) : Prop :=
  forall w, Inv w -> Inv (m w).1 /\ forall a, (m w).2 = Ok a -> R a.

Lemma inv_ret {A} (a : A) (R : A -> Prop) : R a -> invariant (ret a) R.
Proof. intros Ha w Hw. split; [done|]. intros a' [= <-]. done. Qed.

Lemma inv_throw {A} (e : Error) (R : A -> Prop) : invariant (throw e) R.
Proof. intros w Hw. split; [done|]. intros a' [=]. Qed.

Lemma inv_bind {A B} (m : M A) (k : A -> M B) (R : A -> Prop) (R' : B -> Prop) :
  invariant m R ->
  (forall a, R a -> invariant (k a) R') ->
  invariant (bind m k) R'.
Proof.
  intros Hm Hk w Hw. destruct (Hm w Hw) as [Hw' Ha].
  unfold bind. destruct (m w) as [w' [a|e]]; simpl in *.
  - apply Hk; [by apply Ha|done].
  - split; [done|]. intros b [=].
Qed.

Lemma inv_weaken {A} (m : M A) (R R' : A -> Prop) :
  invariant m R -> (forall a, R a -> R' a) -> invariant m R'.
Proof.
  intros Hm HR w Hw. destruct (Hm w Hw) as [Hw' Ha].
  split; [done|]. intros a E. by apply HR, Ha.
Qed.

Lemma inv_gets {A} (f : World -> A) : invariant (gets f) (fun _ => True).
Proof. intros w Hw. done. Qed.

Lemma inv_modify (f : World -> World) :
  (forall w, Inv w -> Inv (f w)) -> invariant (modify f) (fun _ => True).
Proof. intros Hf w Hw. split; [by apply Hf|done]. Qed.

Lemma inv_for_each {A} (body : nat -> A -> M unit) (index : nat) (l : list A) :
  (forall i a, invariant (body i a) (fun _ => True)) ->
  invariant (for_each body index l) (fun _ => True).
Proof.
  intros Hbody. revert index. induction l as [|a l IH]; intros index; simpl.
  - by apply inv_ret.
  - eapply inv_bind; [apply Hbody|]. intros _ _. apply IH.
Qed.

Lemma inv_map_indexed {A B} (body : nat -> A -> M B) (index : nat) (l : list A) :
  (forall i a, invariant (body i a) (fun _ => True)) ->
  invariant (map_indexed body index l) (fun _ => True).
Proof.
  intros Hbody. revert index. induction l as [|a l IH]; intros index; simpl.
  - by apply inv_ret.
  - eapply inv_bind; [apply Hbody|]. intros b _.
    eapply inv_bind; [apply IH|]. intros bs _. by apply inv_ret.
Qed.

End Hoare.

(** An invariant in two parts, one on the loops and one on the rest of the
    client, with what it says about a component of a loop.  Under the
    hypotheses below every operation of the client keeps it. *)

Section Invariant.

Variable WP : World -> Prop.
Variable LsP : list Loop -> Prop.
Variable RC : IOComponent -> Prop.

Definition Inv (w : World) : Prop := WP w /\ LsP (loops w).

Hypothesis WP_loops : forall ls w, WP w -> WP (set_loops ls w).
Hypothesis WP_sent : forall s w, WP w -> WP (set_sent s w).
Hypothesis WP_uuids : forall n w, WP w -> WP (set_uuids n w).
Hypothesis WP_logger : forall ls w, WP w -> WP (set_logger ls w).
Hypothesis WP_console : forall ls w, WP w -> WP (set_console ls w).
Hypothesis WP_handler : forall h w, WP w -> WP (set_onResponseHandler h w).
Hypothesis WP_canceled : forall w, WP w -> WP (set_isCanceled true w).

Hypothesis LsP_component : forall ls lid l i c,
  LsP ls -> ls !! lid = Some l -> components l !! i = Some c -> RC c.
Hypothesis LsP_set_component : forall ls lid i c,
  LsP ls -> RC c ->
  LsP (alter (fun l => set_components (<[i := c]> (components l)) l) lid ls).
Hypothesis LsP_message : forall ls lid m,
  LsP ls -> LsP (alter (set_validationErrorMessage m) lid ls).
Hypothesis LsP_returned : forall ls lid b,
  LsP ls -> LsP (alter (set_isReturned b) lid ls).
Hypothesis LsP_outer : forall ls lid (p : Loop -> Promise (list Value)),
  LsP ls -> LsP (alter (fun l => set_outer (p l) l) lid ls).
Hypothesis LsP_settle : forall ls, LsP ls -> LsP (settle <$> ls).
Hypothesis LsP_new : forall ls key cs validate,
  LsP ls -> Forall RC cs ->
  LsP (ls ++ [{| inputGroupKey := key; isReturned := false;
                 validationErrorMessage := None; components := cs;
                 groupValidator := validate; outer := Pending |}]).

Hypothesis RC_setReturnValue : forall c v,
  RC c -> RC (set_base (setReturnValue returns_parse v (base c)).1 c).
Hypothesis RC_setState : forall c v,
  RC c -> RC (set_base (setState state_parse v (base c)).1.1 c).
Hypothesis RC_setProps : forall c v,
  RC c -> RC (set_base (setProps v (base c)).1 c).
Hypothesis RC_onStateChange : forall c fn,
  RC c -> RC (set_base (onStateChange fn (base c)) c).
Hypothesis RC_build : forall b, RC (build b).

Abbreviation keeps m := (invariant Inv m (fun _ => True)).

Lemma inv_loop (lid : nat) : keeps (loop lid).
Proof. intros w Hw. unfold loop. by destruct (loops w !! lid). Qed.

Lemma inv_component_at (lid index : nat) :
  invariant Inv (component_at lid index) RC.
Proof.
  intros w [Hw Hl]. unfold component_at, bind, loop.
  destruct (loops w !! lid) as [l|] eqn:El; simpl; [|done].
  destruct (components l !! index) as [c|] eqn:Ec; simpl; [|done].
  split; [done|]. intros a [= <-]. eauto.
Qed.

Lemma inv_set_component (lid index : nat) (c : IOComponent) :
  RC c -> keeps (set_component lid index c).
Proof.
  intros Hc. apply inv_modify. intros w [Hw Hl]. split; simpl; auto.
Qed.

Lemma inv_logger_debug (line : string) : keeps (logger_debug line).
Proof. apply inv_modify. intros w [Hw Hl]. split; simpl; auto. Qed.

Lemma inv_render (lid : nat) : keeps (render lid).
Proof.
  intros w [Hw Hl]. unfold render.
  destruct (loops w !! lid); simpl; [|done].
  split; [|done]. split; simpl; auto.
Qed.

Lemma inv_perform_all (effects : list (Effect nat)) : keeps (perform_all effects).
Proof.
  apply inv_for_each. intros _ [line|line|lid]; simpl.
  - apply inv_modify. intros w [Hw Hl]. split; simpl; auto.
  - apply inv_modify. intros w [Hw Hl]. split; simpl; auto.
  - apply inv_render.
Qed.

Lemma inv_validity (lid index : nat) (v : Value) : keeps (validity lid index v).
Proof.
  eapply inv_bind; [apply inv_component_at|]. intros c _.
  destruct (validator c); by apply inv_ret.
Qed.

Lemma inv_result {A} (r : Result A) :
  keeps (match r with Ok _ => ret () | Throw e => throw e end).
Proof. destruct r; [by apply inv_ret|apply inv_throw]. Qed.

Lemma inv_return_value (lid index : nat) (v : Value) :
  keeps (return_value lid index v).
Proof.
  eapply inv_bind; [apply inv_component_at|]. intros c Hc.
  pose proof (RC_setReturnValue c v Hc) as Hb.
  destruct (setReturnValue returns_parse v (base c)) as [b r]. simpl in Hb.
  eapply inv_bind; [by apply inv_set_component|]. intros _ _.
  apply inv_result.
Qed.

Lemma inv_set_state (lid index : nat) (newState : Value) (c : IOComponent) :
  RC c ->
  keeps (let '(b, effects, r) := setState state_parse newState (base c) in
         let* _ := set_component lid index (set_base b c) in
         let* _ := perform_all effects in
         match r with Ok _ => ret () | Throw e => throw e end).
Proof.
  intros Hc. pose proof (RC_setState c newState Hc) as Hb.
  destruct (setState state_parse newState (base c)) as [[b effects] r].
  simpl in Hb.
  eapply inv_bind; [by apply inv_set_component|]. intros _ _.
  eapply inv_bind; [apply inv_perform_all|]. intros _ _.
  apply (inv_result r).
Qed.

Lemma inv_handle_RETURN (lid : nat) (values : list Value) :
  keeps (handle_RETURN lid values).
Proof.
  eapply inv_bind; [apply inv_map_indexed, inv_validity|]. intros vs _.
  destruct (existsb negb vs); [apply inv_render|].
  eapply inv_bind; [apply inv_loop|]. intros l _.
  eapply inv_bind with (R := fun _ => True).
  - destruct (groupValidator l) as [validate|]; [|by apply inv_ret].
    eapply inv_bind.
    + apply inv_modify. intros w [Hw Hl]. split; simpl; auto.
    + intros _ _. cbn beta. destruct (truthy_str _); [|by apply inv_ret].
      eapply inv_bind; [apply inv_render|]. intros _ _. by apply inv_ret.
  - intros again _. destruct again; [by apply inv_ret|].
    eapply inv_bind.
    + apply inv_modify. intros w [Hw Hl]. split; simpl; auto.
    + intros _ _. apply inv_for_each, inv_return_value.
Qed.

Lemma inv_receive_state (lid index : nat) (newState : Value) :
  keeps (receive_state lid index newState).
Proof.
  eapply inv_bind; [apply inv_component_at|]. intros c Hc. cbn beta zeta.
  destruct (differs _ _); [|by apply inv_ret].
  eapply inv_bind; [apply inv_logger_debug|]. intros _ _.
  by apply inv_set_state.
Qed.

Lemma inv_handle_SET_STATE (lid : nat) (values : list Value) :
  keeps (handle_SET_STATE lid values).
Proof.
  eapply inv_bind; [apply inv_for_each, inv_receive_state|]. intros _ _.
  apply inv_render.
Qed.

Lemma inv_onResponseHandler_of (lid : nat) (result : T_IO_RESPONSE) :
  keeps (onResponseHandler_of lid result).
Proof.
  eapply inv_bind; [apply inv_loop|]. intros l _.
  destruct (other_group result l); [apply inv_logger_debug|].
  eapply inv_bind; [apply inv_gets|]. intros canceled _. cbn beta.
  destruct (canceled || isReturned l); [apply inv_logger_debug|].
  assert (keeps (let* _ := modify (set_isCanceled true) in
                 update_loop lid
                   (fun l => set_outer (reject (outer l) (IOError CANCELED)) l)))
    as Hcancel.
  { eapply inv_bind.
    - apply inv_modify. intros w [Hw Hl]. split; simpl; auto.
    - intros _ _. apply inv_modify. intros w [Hw Hl].
      split; simpl; auto. }
  destruct (r_kind result); [| |exact Hcancel].
  - destruct (negb (_ =? _)%nat); [apply inv_throw|apply inv_handle_RETURN].
  - destruct (negb (_ =? _)%nat); [apply inv_throw|apply inv_handle_SET_STATE].
Qed.

Lemma inv_renderComponents (cs : list IOComponent)
    (validate : option (list Value -> option string)) :
  Forall RC cs -> keeps (renderComponents cs validate).
Proof.
  intros Hcs. eapply inv_bind; [apply inv_gets|]. intros canceled _.
  destruct canceled; [apply inv_throw|].
  intros w [Hw Hl]. split; [|done].
  simpl. apply inv_render. split; simpl; auto.
  apply LsP_new; [done|].
  apply Forall_fmap. eapply Forall_impl; [exact Hcs|].
  intros c Hc. simpl. by apply RC_onStateChange.
Qed.

Lemma inv_component_call (lid index : nat) (call : @Call nat) :
  keeps (component_call lid index call).
Proof.
  eapply inv_bind; [apply inv_component_at|]. intros c Hc.
  destruct call as [v|newState|newProps|fn].
  - apply inv_return_value.
  - by apply inv_set_state.
  - pose proof (RC_setProps c newProps Hc) as Hb.
    destruct (setProps newProps (base c)) as [b effects]. simpl in Hb.
    eapply inv_bind; [by apply inv_set_component|]. intros _ _.
    apply inv_perform_all.
  - apply inv_set_component. by apply RC_onStateChange.
Qed.

Lemma inv_step (ev : Event) (w : World) : Inv w -> Inv (step ev w).
Proof.
  intros Hw.
  assert (forall w', Inv w' -> Inv (settle_all w')) as Hsettle.
  { intros w' [Hw' Hl']. unfold settle_all. split; simpl; auto. }
  apply Hsettle. destruct ev as [cs validate|result|lid index call].
  - apply inv_renderComponents; [|done].
    apply Forall_fmap, Forall_forall. intros b _. apply RC_build.
  - unfold onResponse. destruct (onResponseHandler w) as [lid|]; [|done].
    by apply inv_onResponseHandler_of.
  - by apply inv_component_call.
Qed.

Lemma inv_run (evs : list Event) (w : World) : Inv w -> Inv (run evs w).
Proof.
  revert w. induction evs as [|ev evs IH]; intros w Hw; [done|].
  apply (IH (step ev w)). by apply inv_step.
Qed.

End Invariant.

(** Three instances: a canceled client stays canceled; the [state] of every
    rendered component is [null]; a loop keeps its input group key. *)

Definition null_state (c : IOComponent) : Prop :=
  state (getInstance (base c)) = VNull.

Definition all_null (ls : list Loop) : Prop :=
  Forall (fun l => Forall null_state (components l)) ls.

Definition has_key (lid : nat) (key : string) (ls : list Loop) : Prop :=
  inputGroupKey <$> ls !! lid = Some key.

Lemma run_canceled (evs : list Event) (w : World) :
  isCanceled w = true -> isCanceled (run evs w) = true.
Proof.
  intros Hc.
  apply (inv_run (fun w => isCanceled w = true) (fun _ => True) (fun _ => True));
    try done.
Qed.

Lemma null_state_apply (call : @Call nat) (c : IOComponent) :
  null_state c ->
  null_state (set_base (Component.apply returns_parse state_parse call (base c)) c).
Proof.
  unfold null_state, getInstance. simpl. intros Hc.
  destruct (apply_frame returns_parse state_parse call (base c)) as (_ & _ & E).
  congruence.
Qed.

Lemma all_null_alter (f : Loop -> Loop) (lid : nat) (ls : list Loop) :
  (forall l, Forall null_state (components l) ->
             Forall null_state (components (f l))) ->
  all_null ls -> all_null (alter f lid ls).
Proof.
  intros Hf Hls. unfold all_null in *.
  apply Forall_lookup. intros i l Hl.
  destruct (decide (i = lid)) as [->|Hne].
  - rewrite list_lookup_alter_eq in Hl.
    destruct (ls !! lid) as [l0|] eqn:E; [|done].
    injection Hl as <-. apply Hf. by eapply (Forall_lookup_1 _ _ _ _ Hls).
  - rewrite list_lookup_alter_ne in Hl by done.
    by eapply (Forall_lookup_1 _ _ _ _ Hls).
Qed.

Lemma run_all_null (evs : list Event) (w : World) :
  all_null (loops w) -> all_null (loops (run evs w)).
Proof.
  intros Hw.
  apply (inv_run (fun _ => True) all_null null_state); try done.
  - intros ls lid l i c Hls Hl Hc.
    eapply Forall_lookup_1; [|exact Hc].
    by eapply (Forall_lookup_1 _ _ _ _ Hls).
  - intros ls lid i c Hls Hc. apply all_null_alter; [|done].
    intros l Hl. simpl. by apply Forall_insert.
  - intros ls lid m Hls. by apply all_null_alter.
  - intros ls lid b Hls. by apply all_null_alter.
  - intros ls lid p0 Hls. by apply all_null_alter.
  - intros ls Hls. unfold all_null in *. apply Forall_fmap.
    eapply Forall_impl; [exact Hls|]. intros l Hl. simpl.
    unfold settle. by destruct (mapM _ _).
  - intros ls key cs validate Hls Hcs. unfold all_null in *.
    apply Forall_app. split; [done|]. by apply Forall_singleton.
  - intros c v. apply (null_state_apply (SetReturnValue v)).
  - intros c v. apply (null_state_apply (SetState v)).
  - intros b. unfold null_state, build, getInstance. simpl.
    by destruct (run_frame returns_parse state_parse (b_calls b)
                   (component (b_methodName b) (b_label b) (b_initialProps b)
                      (b_handleStateChange b))) as (_ & _ & ->).
Qed.

Lemma has_key_alter (f : Loop -> Loop) (lid lid' : nat) (key : string)
    (ls : list Loop) :
  (forall l, inputGroupKey (f l) = inputGroupKey l) ->
  has_key lid key ls -> has_key lid key (alter f lid' ls).
Proof.
  intros Hf. unfold has_key.
  destruct (decide (lid = lid')) as [->|Hne].
  - rewrite list_lookup_alter_eq. destruct (ls !! lid'); simpl; [|done].
    by rewrite Hf.
  - by rewrite list_lookup_alter_ne.
Qed.

Lemma run_has_key (evs : list Event) (lid : nat) (key : string) (w : World) :
  has_key lid key (loops w) -> has_key lid key (loops (run evs w)).
Proof.
  intros Hw.
  apply (inv_run (fun _ => True) (has_key lid key) (fun _ => True)); try done.
  - intros ls lid' i c Hls _. by apply has_key_alter.
  - intros ls lid' m Hls. by apply has_key_alter.
  - intros ls lid' b Hls. by apply has_key_alter.
  - intros ls lid' p0 Hls. by apply has_key_alter.
  - intros ls. unfold has_key. rewrite list_lookup_fmap.
    destruct (ls !! lid) as [l|]; simpl; [|done].
    unfold settle. by destruct (mapM _ _).
  - intros ls key' cs validate Hls _. unfold has_key in *.
    destruct (ls !! lid) as [l|] eqn:E; [|done].
    by rewrite (lookup_app_l_Some _ _ _ _ E).
Qed.

(** What the handler does first: the two guards. *)
Lemma handler_other_group (w : World) (lid : nat) (l : Loop)
    (result : T_IO_RESPONSE) :
  loops w !! lid = Some l ->
  other_group result l = true ->
  onResponseHandler_of lid result w =
    (set_logger (logger w ++ ["Received response for other input group"]) w,
     Ok ()).
Proof.
  intros Hl Hg. unfold onResponseHandler_of, bind, loop. rewrite Hl.
  by rewrite Hg.
Qed.

Lemma handler_accepts (w : World) (lid : nat) (l : Loop)
    (result : T_IO_RESPONSE) :
  loops w !! lid = Some l ->
  other_group result l = false ->
  isCanceled w = false ->
  isReturned l = false ->
  onResponseHandler_of lid result w =
    match r_kind result with
    | K_CANCELED =>
        (set_loops
           (alter (fun l => set_outer (reject (outer l) (IOError CANCELED)) l)
                  lid (loops w))
           (set_isCanceled true w), Ok ())
    | kind =>
        if negb (length (r_values result) =? length (components l))%nat
        then (w, Throw (PlainError "Mismatch in return array length"))
        else
          match kind with
          | K_RETURN => handle_RETURN lid (received_values result) w
          | K_SET_STATE => handle_SET_STATE lid (received_values result) w
          | K_CANCELED => (w, Ok ())
          end
    end.
Proof.
  intros Hl Hg Hc Hr. unfold onResponseHandler_of, bind, loop, gets.
  rewrite Hl, Hg, Hc, Hr. simpl.
  destruct (r_kind result); try done.
  all: by destruct (negb _).
Qed.

(** A rejected promise stays rejected when the loop settles. *)
Lemma settle_rejected (l : Loop) (e : Error) :
  outer l = Rejected e -> outer (settle l) = Rejected e.
Proof.
  intros H. unfold settle. destruct (mapM _ _); simpl; [|done].
  by rewrite H.
Qed.

(** A call of [renderComponents] on a client that is not canceled opens a
    loop with a fresh key, installs its handler, and sends the first envelope
    under that key with no validation message. *)
Lemma renderComponents_first_render (cs : list IOComponent)
    (validate : option (list Value -> option string)) (w : World) :
  isCanceled w = false ->
  (renderComponents cs validate w).2 = Ok (length (loops w)) /\
  onResponseHandler (renderComponents cs validate w).1 = Some (length (loops w)) /\
  has_key (length (loops w)) (v4 (uuids w))
    (loops (renderComponents cs validate w).1) /\
  sent (renderComponents cs validate w).1 =
    sent w ++
    [{| p_id := v4 (S (uuids w));
        p_inputGroupKey := v4 (uuids w);
        p_toRender :=
          toRender (map (fun c => set_base (onStateChange (length (loops w)) (base c)) c) cs);
        p_validationErrorMessage := None |}].
Proof.
  intros Hc. unfold renderComponents, bind, gets, render, has_key.
  rewrite Hc. simpl. rewrite !list_lookup_middle by done. simpl.
  rewrite list_lookup_middle by done. done.
Qed.

(** The validators run without touching the client, and the entry of a
    component with a validator says whether the validator was silent. *)
Lemma validities_run (w : World) (lid : nat) (l : Loop) (values : list Value)
    (start : nat) :
  loops w !! lid = Some l ->
  (start + length values <= length (components l))%nat ->
  exists vs : list bool,
    map_indexed (validity lid) start values w = (w, Ok vs) /\
    forall i c v validate,
      components l !! (start + i)%nat = Some c ->
      values !! i = Some v ->
      validator c = Some validate ->
      vs !! i = Some (bool_decide (validate v = None)).
Proof.
  intros Hl. revert start. induction values as [|v0 values IH]; intros start Hlen.
  - exists []. split; [done|]. intros i c v validate _ Hv. done.
  - simpl in Hlen.
    destruct (lookup_lt_is_Some_2 (components l) start ltac:(lia)) as [c0 Hc0].
    destruct (IH (S start) ltac:(lia)) as (vs & Hvs & Hspec).
    pose (b0 := match validator c0 with
                | Some validate => bool_decide (validate v0 = None)
                | None => true
                end).
    assert (validity lid start v0 w = (w, Ok b0)) as Hb0.
    { unfold validity, component_at, bind, loop. rewrite Hl. simpl.
      rewrite Hc0. simpl. unfold handleValidation. subst b0.
      by destruct (validator c0). }
    assert (forall validate, validator c0 = Some validate ->
                             b0 = bool_decide (validate v0 = None)) as Hb0spec.
    { intros validate Hv. subst b0. by rewrite Hv. }
    exists (b0 :: vs). split.
    + simpl. unfold bind at 1. rewrite Hb0.
      unfold bind at 1. by rewrite Hvs.
    + intros [|i] c v validate Hc Hv Hval; simpl in *.
      * rewrite Nat.add_0_r, Hc0 in Hc. injection Hc as <-. injection Hv as <-.
        f_equal. by apply Hb0spec.
      * apply (Hspec i c v validate); [|done|done].
        by replace (S (start + i)) with (start + S i)%nat by lia.
Qed.

(** C1: what the handler does when the validator of a component refuses
    its value.  When a [RETURN] response passes the guards with as many values
    as components, and the validator of some component gives a message for
    its value, the handler renders again and returns.  One envelope is sent,
    under the key of the loop; its [validationErrorMessage] is the value the
    variable held before the response, not the message of the validator: the
    handler compares the result of [handleValidation] with [undefined] and
    drops it, where the branch of the group validator assigns
    [validationErrorMessage] before it renders.  The batch has not returned,
    its promise and the return values of its components are as before, and
    the loop keeps its key through every later event. *)
Theorem validator_message_rerenders (w : World) (lid : nat) (l : Loop)
    (result : T_IO_RESPONSE) (index : nat) (c : IOComponent)
    (validate : Value -> option string) (v : Value) (message : string) :
  loops w !! lid = Some l ->
  other_group result l = false ->
  isCanceled w = false ->
  isReturned l = false ->
  r_kind result = K_RETURN ->
  length (r_values result) = length (components l) ->
  length (received_values result) = length (components l) ->
  components l !! index = Some c ->
  received_values result !! index = Some v ->
  validator c = Some validate ->
  validate v = Some message ->
  let w' := (onResponseHandler_of lid result w).1 in
  (exists packed : T_IO_RENDER_INPUT,
      sent w' = sent w ++ [packed] /\
      p_inputGroupKey packed = inputGroupKey l /\
      p_validationErrorMessage packed = validationErrorMessage l) /\
  (exists l' : Loop,
      loops w' !! lid = Some l' /\
      validationErrorMessage l' = validationErrorMessage l /\
      isReturned l' = false /\
      outer l' = outer l /\
      (fun c => returnValue (base c)) <$> components l' =
        (fun c => returnValue (base c)) <$> components l) /\
  forall evs : list Event, has_key lid (inputGroupKey l) (loops (run evs w')).
Proof.
  intros Hl Hg Hc Hr Hk Hlen Hlen' Hci Hvi Hval Hmsg w'.
  assert (w' = (render lid w).1) as E.
  { subst w'. rewrite (handler_accepts w lid l result Hl Hg Hc Hr), Hk.
    rewrite Hlen, Nat.eqb_refl. simpl.
    destruct (validities_run w lid l (received_values result) 0 Hl
                ltac:(lia)) as (vs & Hvs & Hspec).
    unfold handle_RETURN, bind. rewrite Hvs.
    specialize (Hspec index c v validate Hci Hvi Hval).
    rewrite Hmsg in Hspec.
    assert (existsb negb vs = true) as ->; [|done].
    apply existsb_exists. exists false. split; [|done].
    apply list_elem_of_In. eapply list_elem_of_lookup_2. exact Hspec. }
  assert (loops w' = loops w) as Hloops.
  { rewrite E. unfold render. by rewrite Hl. }
  split; [|split].
  - rewrite E. unfold render. rewrite Hl. eexists. split; [reflexivity|done].
  - exists l. rewrite Hloops. done.
  - intros evs. apply run_has_key. unfold has_key. by rewrite Hloops, Hl.
Qed.

(** C10: no call on a component writes [state]: whatever calls are made
    after [component(...)], the instance has [state: null]; [setState] leaves
    the component as it is or replaces its props.  So in every client reached
    from a new one, each rendered component has [state: null], and the
    comparison of the [SET_STATE] branch is a comparison with
    [JSON.stringify(null)]. *)
Theorem setState_never_writes_state :
  (forall (m : MethodName) (lbl : string) (initialProps : Value)
          (h : option (Value -> Result Value)) (calls : list (@Call nat)),
      state (getInstance
               (Component.run returns_parse state_parse calls
                  (component m lbl initialProps h))) = VNull) /\
  (forall (newState : Value) (b : @Component.T nat),
      (setState state_parse newState b).1.1 = b \/
      exists newProps, (setState state_parse newState b).1.1 = set_props newProps b) /\
  (forall (evs : list Event) (lid index : nat) (l : Loop) (c : IOComponent),
      loops (run evs new) !! lid = Some l ->
      components l !! index = Some c ->
      state (getInstance (base c)) = VNull /\
      forall newState : Value,
        differs newState (state (getInstance (base c))) =
          negb (bool_decide (json_stringify newState = json_stringify VNull))).
Proof.
  split; [|split].
  - intros m lbl initialProps h calls. unfold getInstance.
    by destruct (run_frame returns_parse state_parse calls
                   (component m lbl initialProps h)) as (_ & _ & ->).
  - intros newState b. unfold setState.
    destruct (state_parse _ _); [|by left].
    destruct (handleStateChange b) as [handle|]; [|by left].
    destruct (handle _); [right; eauto|by left].
  - intros evs lid index l c Hl Hc.
    assert (state (getInstance (base c)) = VNull) as E.
    { pose proof (run_all_null evs new) as H.
      eapply (Forall_lookup_1 _ _ _ _ (Forall_lookup_1 _ _ _ _ (H _) Hl) Hc). }
    split; [done|]. intros newState. by rewrite E.
    Unshelve. by apply Forall_nil.
Qed.

(** C4 (amended): a response whose [inputGroupKey] is a non-empty string
    other than the key of the loop behind [onResponseHandler] is dropped:
    the handler writes one debug line and nothing else changes, neither the
    loops (components, flags, promises) nor what was sent nor [isCanceled]. *)
Theorem stale_response_discarded (w : World) (lid : nat) (l : Loop)
    (result : T_IO_RESPONSE) (key : string) :
  onResponseHandler w = Some lid ->
  loops w !! lid = Some l ->
  r_inputGroupKey result = Some key ->
  key <> "" ->
  key <> inputGroupKey l ->
  onResponse result w =
    set_logger (logger w ++ ["Received response for other input group"]) w /\
  loops (onResponse result w) = loops w /\
  sent (onResponse result w) = sent w /\
  isCanceled (onResponse result w) = isCanceled w.
Proof.
  intros Hh Hl Hk Hne Hkey.
  assert (other_group result l = true) as Hg.
  { unfold other_group. rewrite Hk. simpl.
    apply andb_true_intro. split.
    - apply negb_true_iff, String.eqb_neq, Hne.
    - apply negb_true_iff, bool_decide_eq_false. congruence. }
  unfold onResponse. rewrite Hh, (handler_other_group w lid l result Hl Hg).
  done.
Qed.

(** C6: what the code does with a length mismatch.  When a response that is
    not [CANCELED] passes the two guards and the length of [values] differs
    from the number of components, the handler throws
    [Error('Mismatch in return array length')] before it touches anything.
    The handler is an [async] function that [onResponse] calls without
    [await], so the [catch] around the call never sees the error: the
    rejection is dropped, not even logged.  The promise of the render is
    neither resolved nor rejected and the client is as it was. *)
Theorem length_mismatch_throws (w : World) (lid : nat) (l : Loop)
    (result : T_IO_RESPONSE) :
  onResponseHandler w = Some lid ->
  loops w !! lid = Some l ->
  other_group result l = false ->
  isCanceled w = false ->
  isReturned l = false ->
  r_kind result <> K_CANCELED ->
  length (r_values result) <> length (components l) ->
  onResponseHandler_of lid result w =
    (w, Throw (PlainError "Mismatch in return array length")) /\
  onResponse result w = w.
Proof.
  intros Hh Hl Hg Hc Hr Hk Hlen.
  assert (onResponseHandler_of lid result w =
            (w, Throw (PlainError "Mismatch in return array length"))) as E.
  { rewrite (handler_accepts w lid l result Hl Hg Hc Hr).
    apply Nat.eqb_neq in Hlen. rewrite Hlen. simpl.
    by destruct (r_kind result). }
  split; [done|]. unfold onResponse. by rewrite Hh, E.
Qed.

(** C2 (amended): when a [CANCELED] response passes the two guards of the
    handler, [isCanceled] is set and the pending promise of the current
    render is rejected with [CANCELED], with nothing sent; and after any
    further events, every call of [renderComponents] throws
    [TRANSACTION_CLOSED] and leaves the client, and so what was sent, as it
    is. *)
Theorem cancel_is_sticky (w : World) (lid : nat) (l : Loop)
    (result : T_IO_RESPONSE) :
  onResponseHandler w = Some lid ->
  loops w !! lid = Some l ->
  other_group result l = false ->
  isCanceled w = false ->
  isReturned l = false ->
  outer l = Pending ->
  r_kind result = K_CANCELED ->
  let w1 := step (OnResponse result) w in
  isCanceled w1 = true /\
  outer <$> loops w1 !! lid = Some (Rejected (IOError CANCELED)) /\
  sent w1 = sent w /\
  forall (evs : list Event) (cs : list IOComponent)
         (validate : option (list Value -> option string)),
    renderComponents cs validate (run evs w1) =
      (run evs w1, Throw (IOError TRANSACTION_CLOSED)).
Proof.
  intros Hh Hl Hg Hc Hr Hp Hk w1.
  assert (w1 = settle_all
                 (set_loops
                    (alter (fun l => set_outer (reject (outer l) (IOError CANCELED)) l)
                           lid (loops w))
                    (set_isCanceled true w))) as E.
  { subst w1. unfold step, onResponse.
    rewrite Hh, (handler_accepts w lid l result Hl Hg Hc Hr), Hk. done. }
  assert (isCanceled w1 = true) as Hc1 by (by rewrite E).
  split; [done|]. split; [|split].
  - rewrite E. unfold settle_all. simpl.
    rewrite list_lookup_fmap, list_lookup_alter_eq, Hl. simpl.
    f_equal. apply settle_rejected. simpl. by rewrite Hp.
  - by rewrite E.
  - intros evs cs validate.
    pose proof (run_canceled evs w1 Hc1) as Hc2.
    unfold renderComponents, bind, gets. by rewrite Hc2.
Qed.

(** *** Further properties of the render loop *)

(** Whether the validator of a component lets a value pass. *)
Definition accepts (c : IOComponent) (v : Value) : bool :=
  match validator c with
  | Some validate => bool_decide (validate v = None)
  | None => true
  end.

Lemma alter_lookup_insert {A} (f : A -> A) (i : nat) (x : A) (l : list A) :
  l !! i = Some x -> alter f i l = <[i := f x]> l.
Proof.
  intros Hi. apply list_eq. intros j.
  destruct (decide (j = i)) as [->|Hne].
  - rewrite list_lookup_alter_eq, Hi.
    by rewrite list_lookup_insert_eq by (by eapply lookup_lt_Some).
  - by rewrite list_lookup_alter_ne, list_lookup_insert_ne.
Qed.

(** The whole of [validities]: one entry per value, from the component at
    the same index, with the client untouched. *)
Lemma validities_all (w : World) (lid : nat) (l : Loop) (values : list Value)
    (start : nat) :
  loops w !! lid = Some l ->
  (start + length values <= length (components l))%nat ->
  map_indexed (validity lid) start values w =
    (w, Ok (zip_with accepts (drop start (components l)) values)).
Proof.
  intros Hl. revert start. induction values as [|v values IH]; intros start Hlen.
  - simpl. by destruct (drop start (components l)).
  - simpl in Hlen.
    destruct (lookup_lt_is_Some_2 (components l) start ltac:(lia)) as [c Hc].
    rewrite (drop_S _ _ _ Hc). simpl.
    assert (validity lid start v w = (w, Ok (accepts c v))) as Hv.
    { unfold validity, component_at, bind, loop. rewrite Hl. simpl.
      rewrite Hc. simpl. unfold accepts, handleValidation.
      by destruct (validator c). }
    unfold bind at 1. rewrite Hv.
    unfold bind at 1. by rewrite IH by lia.
Qed.

(** Once the loop has returned or the client is canceled, responses are
    dropped, however many arrive: each writes a debug line, and the loops
    (components, promises), what was sent, the flag [isCanceled] and the
    UUIDs drawn stay as they are. *)
Theorem late_responses_are_dropped (w : World) (lid : nat) (l : Loop)
    (results : list T_IO_RESPONSE) :
  onResponseHandler w = Some lid ->
  loops w !! lid = Some l ->
  isCanceled w = true \/ isReturned l = true ->
  loops (foldl (fun w r => onResponse r w) w results) = loops w /\
  sent (foldl (fun w r => onResponse r w) w results) = sent w /\
  isCanceled (foldl (fun w r => onResponse r w) w results) = isCanceled w /\
  uuids (foldl (fun w r => onResponse r w) w results) = uuids w /\
  length (logger (foldl (fun w r => onResponse r w) w results)) =
    (length (logger w) + length results)%nat.
Proof.
  intros Hh Hl Hdone.
  assert (forall r w', onResponseHandler w' = Some lid -> loops w' = loops w ->
            isCanceled w' = isCanceled w ->
            exists line, onResponse r w' = set_logger (logger w' ++ [line]) w')
    as Hone.
  { intros r w' Hh' Hl' Hc'. unfold onResponse, onResponseHandler_of, bind, loop, gets.
    rewrite Hh', Hl', Hl. destruct (other_group r l); [by eexists|].
    rewrite Hc'. simpl.
    assert (isCanceled w || isReturned l = true) as ->; [|by eexists].
    destruct Hdone as [-> | ->]; [done|apply orb_true_r]. }
  revert w Hh Hl Hdone Hone.
  induction results as [|r results IH]; intros w Hh Hl Hdone Hone.
  - simpl. repeat split; try done; lia.
  - simpl. destruct (Hone r w Hh eq_refl eq_refl) as [line E].
    rewrite E.
    destruct (IH (set_logger (logger w ++ [line]) w)) as (H1 & H2 & H3 & H4 & H5);
      try done.
    rewrite H1, H2, H3, H4, H5. simpl. rewrite length_app. simpl.
    repeat split; try done; lia.
Qed.

(** When every component validator lets its value pass and the group
    validator gives a non-empty message, the handler stores the message and
    renders again: the new envelope carries the message under the key of the
    loop; the loop has not returned and no component changed. *)
Theorem group_validator_message_rerenders (w : World) (lid : nat) (l : Loop)
    (result : T_IO_RESPONSE) (validate : list Value -> option string)
    (message : string) :
  loops w !! lid = Some l ->
  other_group result l = false ->
  isCanceled w = false ->
  isReturned l = false ->
  r_kind result = K_RETURN ->
  length (r_values result) = length (components l) ->
  length (received_values result) = length (components l) ->
  forallb id (zip_with accepts (components l) (received_values result)) = true ->
  groupValidator l = Some validate ->
  validate (received_values result) = Some message ->
  message <> "" ->
  sent (onResponseHandler_of lid result w).1 =
    sent w ++
    [{| p_id := v4 (uuids w);
        p_inputGroupKey := inputGroupKey l;
        p_toRender := toRender (components l);
        p_validationErrorMessage := Some message |}] /\
  loops (onResponseHandler_of lid result w).1 =
    <[lid := set_validationErrorMessage (Some message) l]> (loops w).
Proof.
  intros Hl Hg Hc Hr Hk Hlen Hlen' Hacc Hgv Hmsg Hne.
  assert ((onResponseHandler_of lid result w).1 =
            (render lid
               (set_loops (<[lid := set_validationErrorMessage (Some message) l]>
                             (loops w)) w)).1) as ->.
  { rewrite (handler_accepts w lid l result Hl Hg Hc Hr), Hk.
    rewrite Hlen, Nat.eqb_refl. simpl.
    unfold handle_RETURN. unfold bind at 1.
    rewrite (validities_all w lid l _ 0 Hl) by lia. rewrite drop_0.
    assert (existsb negb (zip_with accepts (components l) (received_values result))
            = false) as ->.
    { apply not_true_is_false. intros E.
      apply existsb_exists in E as (b & Hin & Hb).
      rewrite forallb_forall in Hacc. specialize (Hacc b Hin).
      destruct b; simpl in *; congruence. }
    unfold bind, loop, update_loop, modify. rewrite Hl, Hgv, Hmsg. simpl.
    assert (negb (String.eqb message "") = true) as ->
      by (by apply negb_true_iff, String.eqb_neq).
    rewrite (alter_lookup_insert _ _ _ _ Hl).
    by destruct (render lid _) as [w' [[]|e]]. }
  unfold render. simpl.
  rewrite list_lookup_insert_eq by (by eapply lookup_lt_Some). done.
Qed.

(** A [setProps] on a rendered component whose handler is the [render] of
    its loop sends one envelope, under the key of the loop, in which the
    component appears with the new props as the codec serializes them. *)
Theorem setProps_rerenders (w : World) (lid index : nat) (l : Loop)
    (c : IOComponent) (newProps : Value) :
  loops w !! lid = Some l ->
  components l !! index = Some c ->
  onStateChangeHandler (base c) = Some lid ->
  exists packed : T_IO_RENDER_INPUT,
    sent (component_call lid index (SetProps newProps) w).1 = sent w ++ [packed] /\
    p_id packed = v4 (uuids w) /\
    p_inputGroupKey packed = inputGroupKey l /\
    p_validationErrorMessage packed = validationErrorMessage l /\
    length (p_toRender packed) = length (components l) /\
    item_props <$> p_toRender packed !! index =
      Some (superjson_serialize (stripUndefined newProps)).1.
Proof.
  intros Hl Hc Hh.
  unfold component_call, component_at, bind, loop. rewrite Hl. simpl.
  rewrite Hc. simpl. unfold notify. simpl. rewrite Hh. simpl.
  unfold perform_all, for_each, perform, bind, render, ret. simpl.
  rewrite list_lookup_alter_eq, Hl. simpl.
  eexists. split; [reflexivity|]. simpl. repeat split.
  - unfold toRender. by rewrite length_map, length_insert.
  - unfold toRender. rewrite list_lookup_fmap.
    rewrite list_lookup_insert_eq by (by eapply lookup_lt_Some). simpl.
    by destruct (superjson_serialize _).
Qed.

(** The component after [setReturnValue(v)]. *)
Definition with_return (c : IOComponent) (v : Value) : IOComponent :=
  set_base (setReturnValue returns_parse v (base c)).1 c.

Lemma set_loops_same (w : World) (lid : nat) (l : Loop) :
  loops w !! lid = Some l ->
  set_loops (<[lid := set_components (components l) l]> (loops w)) w = w.
Proof.
  intros Hl. replace (set_components (components l) l) with l by (by destruct l).
  rewrite list_insert_id by done. by destruct w.
Qed.

(** The loop over the values of an accepted [RETURN]: when the returns
    schema takes every value, each component gets its value and nothing
    throws. *)
Lemma return_values_run (lid : nat) (values : list Value) :
  forall (pre cs : list IOComponent) (w : World) (l : Loop),
    loops w !! lid = Some l ->
    components l = pre ++ cs ->
    Forall2 (fun c v => is_Some (returns_parse (schema (base c)) v)) cs values ->
    for_each (return_value lid) (length pre) values w =
      (set_loops
         (<[lid := set_components (pre ++ zip_with with_return cs values) l]>
            (loops w)) w,
       Ok ()).
Proof.
  induction values as [|v values IH]; intros pre cs w l Hl Hcs Hparse.
  - apply Forall2_nil_inv_r in Hparse as ->. simpl.
    rewrite <- Hcs. unfold ret. f_equal. symmetry. by apply set_loops_same.
  - apply Forall2_cons_inv_r in Hparse as (c & cs' & [parsed Hp] & Hparse & ->).
    assert (components l !! length pre = Some c) as Hc
      by (by rewrite Hcs, list_lookup_middle).
    assert (return_value lid (length pre) v w =
              (set_loops
                 (<[lid := set_components (pre ++ with_return c v :: cs') l]>
                    (loops w)) w, Ok ())) as Hstep.
    { unfold return_value, component_at, bind, loop. rewrite Hl. simpl.
      rewrite Hc. simpl.
      assert ((setReturnValue returns_parse v (base c)).2 = Ok ()) as Hok.
      { unfold setReturnValue. rewrite Hp. by destruct (resolver (base c)). }
      unfold with_return.
      destruct (setReturnValue returns_parse v (base c)) as [b r]. simpl in *.
      subst r. unfold set_component, update_loop, modify, ret.
      rewrite (alter_lookup_insert _ _ _ _ Hl), Hcs.
      rewrite insert_app_r_alt by lia. by rewrite Nat.sub_diag. }
    cbn [for_each]. unfold bind at 1. rewrite Hstep.
    replace (S (length pre)) with (length (pre ++ [with_return c v]))
      by (rewrite length_app; simpl; lia).
    rewrite (IH (pre ++ [with_return c v]) cs' _
               (set_components (pre ++ with_return c v :: cs') l)).
    + simpl. rewrite list_insert_insert_eq. by rewrite <- app_assoc.
    + simpl. by rewrite list_lookup_insert_eq by (by eapply lookup_lt_Some).
    + simpl. by rewrite <- app_assoc.
    + done.
Qed.

(** What the components hold after the loop, when they were pending. *)
Lemma with_return_fulfilled (cs : list IOComponent) :
  forall (values parsed : list Value),
    Forall (fun c => resolver (base c) = true /\ returnValue (base c) = Pending) cs ->
    length cs = length values ->
    zip_with (fun c v => returns_parse (schema (base c)) v) cs values =
      Some <$> parsed ->
    Forall2 (fun c v => is_Some (returns_parse (schema (base c)) v)) cs values /\
    Forall2 (fun c p => returnValue (base c) = Fulfilled p)
            (zip_with with_return cs values) parsed.
Proof.
  induction cs as [|c cs IH]; intros values parsed Hcs Hlen Hzip.
  - destruct values; [|done]. destruct parsed; [|done]. split; constructor.
  - destruct values as [|v values]; [done|].
    destruct parsed as [|p parsed]; [done|].
    simpl in Hzip. injection Hzip as Hp Hzip.
    apply Forall_cons in Hcs as [[Hres Hpend] Hcs].
    destruct (IH values parsed Hcs ltac:(simpl in Hlen; lia) Hzip) as [H1 H2].
    split; constructor; eauto.
    unfold with_return, setReturnValue. rewrite Hp, Hres. simpl.
    by rewrite Hpend.
Qed.

(** The loop of the [SET_STATE] branch changes nothing when no value
    differs, as JSON, from the state of its component. *)
Lemma receive_states_unchanged (w : World) (lid : nat) (l : Loop)
    (values : list Value) (start : nat) :
  loops w !! lid = Some l ->
  (start + length values <= length (components l))%nat ->
  (forall i c v, components l !! (start + i)%nat = Some c -> values !! i = Some v ->
                 differs v (state (getInstance (base c))) = false) ->
  for_each (receive_state lid) start values w = (w, Ok ()).
Proof.
  intros Hl. revert start. induction values as [|v values IH]; intros start Hlen Hsame.
  - done.
  - simpl in Hlen.
    destruct (lookup_lt_is_Some_2 (components l) start ltac:(lia)) as [c Hc].
    cbn [for_each]. unfold bind at 1.
    assert (receive_state lid start v w = (w, Ok ())) as ->.
    { unfold receive_state, component_at, bind, loop. rewrite Hl. simpl.
      rewrite Hc. simpl. rewrite (Hsame 0%nat c v); [done| |done].
      by rewrite Nat.add_0_r. }
    apply IH; [lia|]. intros i c' v' Hc' Hv'.
    apply (Hsame (S i) c' v'); [|done].
    by replace (start + S i)%nat with (S start + i)%nat by lia.
Qed.

(** A [SET_STATE] response that brings no news only renders again: when it
    passes the guards and each value has the JSON text of the state of its
    component, no component is touched and one envelope is sent, under the
    key of the loop. *)
Theorem unchanged_state_only_rerenders (w : World) (lid : nat) (l : Loop)
    (result : T_IO_RESPONSE) :
  loops w !! lid = Some l ->
  other_group result l = false ->
  isCanceled w = false ->
  isReturned l = false ->
  r_kind result = K_SET_STATE ->
  length (r_values result) = length (components l) ->
  length (received_values result) = length (components l) ->
  (forall i c v, components l !! i = Some c ->
                 received_values result !! i = Some v ->
                 json_stringify v = json_stringify (state (getInstance (base c)))) ->
  loops (onResponseHandler_of lid result w).1 = loops w /\
  sent (onResponseHandler_of lid result w).1 =
    sent w ++
    [{| p_id := v4 (uuids w);
        p_inputGroupKey := inputGroupKey l;
        p_toRender := toRender (components l);
        p_validationErrorMessage := validationErrorMessage l |}] /\
  console (onResponseHandler_of lid result w).1 = console w.
Proof.
  intros Hl Hg Hc Hr Hk Hlen Hlen' Hsame.
  rewrite (handler_accepts w lid l result Hl Hg Hc Hr), Hk.
  rewrite Hlen, Nat.eqb_refl. simpl.
  unfold handle_SET_STATE, bind.
  rewrite (receive_states_unchanged w lid l _ 0 Hl) by
    (first [lia | intros i c v Hci Hvi; unfold differs;
                  rewrite (Hsame i c v Hci Hvi);
                  by rewrite bool_decide_eq_true_2]).
  unfold render. rewrite Hl. done.
Qed.

(** A state change renders twice: when a [SET_STATE] response for a batch of
    one component brings a state that differs as JSON, the state schema takes
    it, and the component has a state handler that gives new props, then the
    component holds the new props and its old [state], and two envelopes are
    sent under the key of the loop, both with the new props: one by the
    state-change handler of the component and one at the end of the branch. *)
Theorem state_change_renders_twice (w : World) (lid : nat) (l : Loop)
    (result : T_IO_RESPONSE) (c : IOComponent) (newState parsedState newProps : Value)
    (handle : Value -> Result Value) :
  loops w !! lid = Some l ->
  other_group result l = false ->
  isCanceled w = false ->
  isReturned l = false ->
  r_kind result = K_SET_STATE ->
  components l = [c] ->
  length (r_values result) = 1%nat ->
  received_values result = [newState] ->
  json_stringify newState <> json_stringify (state (getInstance (base c))) ->
  state_parse (schema (base c)) newState = Some parsedState ->
  handleStateChange (base c) = Some handle ->
  handle parsedState = Ok newProps ->
  onStateChangeHandler (base c) = Some lid ->
  let c' := set_base (set_props newProps (base c)) c in
  let w' := (onResponseHandler_of lid result w).1 in
  loops w' = <[lid := set_components [c'] l]> (loops w) /\
  state (getInstance (base c')) = state (getInstance (base c)) /\
  sent w' =
    sent w ++
    [{| p_id := v4 (uuids w);
        p_inputGroupKey := inputGroupKey l;
        p_toRender := toRender [c'];
        p_validationErrorMessage := validationErrorMessage l |};
     {| p_id := v4 (S (uuids w));
        p_inputGroupKey := inputGroupKey l;
        p_toRender := toRender [c'];
        p_validationErrorMessage := validationErrorMessage l |}].
Proof.
  intros Hl Hg Hc Hr Hk Hcs Hraw Hvals Hdiff Hparse Hhandle Hprops Hobs c' w'.
  subst w'. rewrite (handler_accepts w lid l result Hl Hg Hc Hr), Hk.
  rewrite Hraw, Hcs, Hvals. simpl.
  unfold handle_SET_STATE. cbn [for_each].
  unfold receive_state, component_at, bind, loop. rewrite Hl, Hcs. simpl.
  unfold differs. rewrite bool_decide_eq_false_2 by done. simpl.
  unfold setState, notify. rewrite Hparse, Hhandle, Hprops, Hobs. simpl.
  unfold perform_all, for_each, perform, bind, render, ret, modify. simpl.
  rewrite list_lookup_alter_eq, Hl. simpl. rewrite Hcs. simpl.
  rewrite list_lookup_alter_eq, Hl. simpl. rewrite Hcs. simpl.
  split; [|split; [done|]].
  - rewrite (alter_lookup_insert _ lid l) by done. by rewrite Hcs.
  - by rewrite <- app_assoc.
Qed.

(** *** The handler across its awaits

    The handler is an [async] function and [onResponse] does not await it.
    In the [RETURN] branch it awaits the validations of the components and
    then the group validator; in the [SET_STATE] branch it awaits each
    [setState].  While it waits the client takes other events.  The
    definitions above run a handler in one piece; here it runs from one
    await to the next, and the guards are only those it passed before the
    first. *)

(** A handler suspended at an [await], with the local variables it goes on
    with: the values, and in the loop over the states the index it is at.
    At [await components[index].setState(newState)] the call has either
    reached its own [await handleStateChange(parsedState)], with the rest of
    [setState] still to come, or it has run to its end. *)
Inductive Waiting : Type :=
| AwaitValidities (values : list Value)
| AwaitGroupValidator (values : list Value)
| AwaitStateHandler (index : nat) (newState : Value) (rest : list Value)
| AwaitSetState (index : nat) (rest : list Value).

(** The end of the [RETURN] branch: [isReturned = true] and the return
    values. *)
Definition return_all (lid : nat) (values : list Value) : M unit :=
  let* _ := update_loop lid (set_isReturned true) in
  for_each (return_value lid) 0 values.

(** [components[index].setState(newState)] from its call to its end. *)
Definition call_setState (lid index : nat) (newState : Value) : M unit :=
  let* component := component_at lid index in
  let '(b, effects, r) := setState state_parse newState (base component) in
  let* _ := set_component lid index (set_base b component) in
  let* _ := perform_all effects in
  match r with
  | Ok _ => ret ()
  | Throw e => throw e
  end.

(** Whether [setState(newState)] reaches [await handleStateChange(...)]:
    the state schema takes the value and the component has a state
    handler.  Otherwise [setState] runs to its end, or throws, within the
    call. *)
Definition reaches_state_handler (c : IOComponent) (newState : Value) : bool :=
  match handleStateChange (base c), state_parse (schema (base c)) newState with
  | Some _, Some _ => true
  | _, _ => false
  end.

(** The loop over [result.values.entries()] from [index] on, up to the next
    [await components[index].setState(newState)], or to the [render()]
    after the loop. *)
Fixpoint states_from (lid index : nat) (values : list Value)
    : M (option Waiting) :=
  match values with
  | [] => let* _ := render lid in ret None
  | newState :: rest =>
      let* component := component_at lid index in
      let prevState := state (getInstance (base component)) in
      if differs newState prevState then
        let* _ := logger_debug "New state at" in
        if reaches_state_handler component newState then
          ret (Some (AwaitStateHandler index newState rest))
        else
          let* _ := call_setState lid index newState in
          ret (Some (AwaitSetState index rest))
      else states_from lid (S index) rest
  end.

(** The handler of loop [lid] up to its first [await]. *)
Definition handler_begin (lid : nat) (result : T_IO_RESPONSE)
    : M (option Waiting) :=
  let* l := loop lid in
  if other_group result l then
    let* _ := logger_debug "Received response for other input group" in
    ret None
  else
    let* canceled := gets isCanceled in
    if canceled || isReturned l then
      let* _ := logger_debug "Received response after IO call complete" in
      ret None
    else
      match r_kind result with
      | K_CANCELED =>
          let* _ := modify (set_isCanceled true) in
          let* _ := update_loop lid
                      (fun l => set_outer (reject (outer l) (IOError CANCELED)) l) in
          ret None
      | kind =>
          if negb (length (r_values result) =? length (components l))%nat then
            throw (PlainError "Mismatch in return array length")
          else
            let values := received_values result in
            match kind with
            | K_RETURN => ret (Some (AwaitValidities values))
            | K_SET_STATE => states_from lid 0 values
            | K_CANCELED => ret None
            end
      end.

(** The handler of loop [lid] from an [await] to the next one, or to its
    end. *)
Definition handler_resume (lid : nat) (point : Waiting) : M (option Waiting) :=
  match point with
  | AwaitValidities values =>
      let* validities := map_indexed (validity lid) 0 values in
      if existsb negb validities then
        let* _ := render lid in ret None
      else
        let* l := loop lid in
        match groupValidator l with
        | Some _ => ret (Some (AwaitGroupValidator values))
        | None => let* _ := return_all lid values in ret None
        end
  | AwaitGroupValidator values =>
      let* l := loop lid in
      match groupValidator l with
      | Some validate =>
          let message := validate values in
          let* _ := update_loop lid (set_validationErrorMessage message) in
          if truthy_str message then
            let* _ := render lid in ret None
          else
            let* _ := return_all lid values in ret None
      | None => ret None
      end
  | AwaitStateHandler index newState rest =>
      let* _ := call_setState lid index newState in
      states_from lid (S index) rest
  | AwaitSetState index rest => states_from lid (S index) rest
  end.


(** The client with the handlers that wait, each with the loop it belongs
    to. *)
Record Runtime : Type := {
  client : World;
  suspended : list (nat * Waiting)
}.

(** A turn of the event loop: the client takes an event, a response as far
    as the first [await] of the handler (a call of the action on a component
    is taken in one piece, as in [step]); or the [i]-th waiting handler goes
    on.  After each turn the promises that can resolve do. *)
Inductive Turn : Type :=
| Takes (ev : Event)
| Resumes (i : nat).

Definition turn (t : Turn) (r : Runtime) : Runtime :=
  match t with
  | Takes (OnResponse result) =>
      match onResponseHandler (client r) with
      | None => {| client := settle_all (client r); suspended := suspended r |}
      | Some lid =>
          let '(w, outcome) := handler_begin lid result (client r) in
          {| client := settle_all w;
             suspended :=
               match outcome with
               | Ok (Some point) => suspended r ++ [(lid, point)]
               | _ => suspended r
               end |}
      end
  | Takes ev => {| client := step ev (client r); suspended := suspended r |}
  | Resumes i =>
      match suspended r !! i with
      | None => r
      | Some (lid, point) =>
          let '(w, outcome) := handler_resume lid point (client r) in
          {| client := settle_all w;
             suspended :=
               match outcome with
               | Ok (Some next) => <[i := (lid, next)]> (suspended r)
               | _ => delete i (suspended r)
               end |}
      end
  end.

Definition turns (ts : list Turn) (r : Runtime) : Runtime :=
  foldl (fun r t => turn t r) r ts.

(** [settle] only writes [outer], and does nothing the second time. *)
Lemma settle_fields (l : Loop) :
  inputGroupKey (settle l) = inputGroupKey l /\
  isReturned (settle l) = isReturned l /\
  validationErrorMessage (settle l) = validationErrorMessage l /\
  components (settle l) = components l /\
  groupValidator (settle l) = groupValidator l.
Proof. unfold settle. by destruct (mapM _ _). Qed.

Lemma settle_idem (l : Loop) : settle (settle l) = settle l.
Proof.
  unfold settle. destruct (mapM _ (components l)) as [values|] eqn:E.
  - simpl. rewrite E. unfold set_outer. simpl. f_equal.
    by destruct (outer l).
  - by rewrite E.
Qed.

Lemma settle_all_lookup (w : World) (lid : nat) :
  loops (settle_all w) !! lid = settle <$> loops w !! lid.
Proof. unfold settle_all. simpl. apply list_lookup_fmap. Qed.

(** A loop with a component that is still pending does not settle. *)
Lemma settle_pending (l : Loop) :
  components l <> [] ->
  Forall (fun c => returnValue (base c) = Pending) (components l) ->
  settle l = l.
Proof.
  intros Hne Hp. unfold settle.
  destruct (components l) as [|c cs]; [done|].
  apply Forall_cons in Hp as [Hc _]. simpl. by rewrite Hc.
Qed.

(** The handler up to its first await, for a response that passes the
    guards. *)
Lemma handler_begin_accepts (w : World) (lid : nat) (l : Loop)
    (result : T_IO_RESPONSE) :
  loops w !! lid = Some l ->
  other_group result l = false ->
  isCanceled w = false ->
  isReturned l = false ->
  handler_begin lid result w =
    match r_kind result with
    | K_CANCELED =>
        (set_loops
           (alter (fun l => set_outer (reject (outer l) (IOError CANCELED)) l)
                  lid (loops w))
           (set_isCanceled true w), Ok None)
    | kind =>
        if negb (length (r_values result) =? length (components l))%nat
        then (w, Throw (PlainError "Mismatch in return array length"))
        else
          match kind with
          | K_RETURN => (w, Ok (Some (AwaitValidities (received_values result))))
          | K_SET_STATE => states_from lid 0 (received_values result) w
          | K_CANCELED => (w, Ok None)
          end
    end.
Proof.
  intros Hl Hg Hc Hr. unfold handler_begin, bind, loop, gets.
  rewrite Hl, Hg, Hc, Hr. simpl.
  destruct (r_kind result); try done.
  all: by destruct (negb _).
Qed.

(** The end of the [RETURN] branch when the returns schema takes every
    value. *)
Lemma return_all_accepted (w : World) (lid : nat) (l : Loop)
    (values : list Value) :
  loops w !! lid = Some l ->
  Forall2 (fun c v => is_Some (returns_parse (schema (base c)) v))
          (components l) values ->
  return_all lid values w =
    (set_loops
       (<[lid := set_components (zip_with with_return (components l) values)
                   (set_isReturned true l)]> (loops w)) w,
     Ok ()).
Proof.
  intros Hl Hparse. unfold return_all, bind, update_loop, modify.
  rewrite (alter_lookup_insert _ _ _ _ Hl).
  rewrite (return_values_run lid _ [] (components l)
             _ (set_isReturned true l)); simpl.
  - by rewrite list_insert_insert_eq.
  - by rewrite list_lookup_insert_eq by (by eapply lookup_lt_Some).
  - done.
  - done.
Qed.

(** When every validator lets its value pass, no entry of [validities] is
    [false]. *)
Lemma no_refusal (cs : list IOComponent) (values : list Value) :
  forallb id (zip_with accepts cs values) = true ->
  existsb negb (zip_with accepts cs values) = false.
Proof.
  intros Hacc. apply not_true_is_false. intros E.
  apply existsb_exists in E as (b & Hin & Hb).
  rewrite forallb_forall in Hacc. specialize (Hacc b Hin).
  destruct b; simpl in *; congruence.
Qed.

(** The loop an accepted [RETURN] leaves: the message of the group
    validator, [isReturned], and the return values of the components. *)
Definition returned_loop (values : list Value) (l : Loop) : Loop :=
  set_components (zip_with with_return (components l) values)
    (set_isReturned true
       match groupValidator l with
       | Some validate => set_validationErrorMessage (validate values) l
       | None => l
       end).

(** A handler that waits with the values of an accepted [RETURN] goes on to
    its end in one or two turns, whatever happened to the promise of the
    render while it waited: the batch has returned, each pending component
    holds its parsed value, and the promise is resolved if it was still
    pending. *)
Lemma resumes_accepted_return (w : World) (lid : nat) (l : Loop)
    (values parsed : list Value) :
  loops w !! lid = Some l ->
  settle l = l ->
  length values = length (components l) ->
  forallb id (zip_with accepts (components l) values) = true ->
  truthy_str (groupValidator l ≫= fun validate => validate values) = false ->
  Forall (fun c => resolver (base c) = true /\ returnValue (base c) = Pending)
         (components l) ->
  zip_with (fun c v => returns_parse (schema (base c)) v)
           (components l) values = Some <$> parsed ->
  let r := turns [Resumes 0; Resumes 0]
             {| client := w; suspended := [(lid, AwaitValidities values)] |} in
  suspended r = [] /\
  sent (client r) = sent w /\
  isCanceled (client r) = isCanceled w /\
  exists l' : Loop,
    loops (client r) !! lid = Some l' /\
    isReturned l' = true /\
    outer l' = resolve (outer l) parsed /\
    (fun c => returnValue (base c)) <$> components l' = Fulfilled <$> parsed /\
    inputGroupKey l' = inputGroupKey l.
Proof.
  intros Hl Hs Hlen Hacc Hgv Hcs Hzip r.
  destruct (with_return_fulfilled (components l) values parsed Hcs
              ltac:(lia) Hzip) as [Hparse Hful].
  assert (mapM (fun c => fulfilled_value (returnValue (base c)))
               (components (returned_loop values l)) = Some parsed) as Hm.
  { apply mapM_Some. unfold returned_loop. simpl.
    eapply Forall2_impl; [exact Hful|]. intros c p Hcp. simpl in Hcp.
    by rewrite Hcp. }
  assert (exists w0, loops w0 !! lid = Some l /\ sent w0 = sent w /\
                     isCanceled w0 = isCanceled w /\
                     r = {| client :=
                              settle_all
                                (set_loops (<[lid := returned_loop values l]>
                                              (loops w0)) w0);
                            suspended := [] |}) as (w0 & Hl0 & Hsent & Hcan & ->).
  { assert (forall w0 p,
              turn (Resumes 0) {| client := w0; suspended := [(lid, p)] |} =
                {| client := settle_all (handler_resume lid p w0).1;
                   suspended :=
                     match (handler_resume lid p w0).2 with
                     | Ok (Some next) => [(lid, next)]
                     | _ => []
                     end |}) as Hturn.
    { intros w0 p. unfold turn. simpl.
      by destruct (handler_resume lid p w0) as [w1 [[next|]|e]]. }
    subst r. unfold turns. cbn [foldl]. rewrite Hturn.
    destruct (groupValidator l) as [validate|] eqn:Hv; simpl in Hgv.
    - assert (handler_resume lid (AwaitValidities values) w =
                (w, Ok (Some (AwaitGroupValidator values)))) as ->.
      { unfold handler_resume. unfold bind at 1.
        rewrite (validities_all w lid l _ 0 Hl) by lia. rewrite drop_0.
        rewrite (no_refusal _ _ Hacc).
        unfold bind, loop. by rewrite Hl, Hv. }
      cbn [fst snd]. rewrite Hturn.
      assert (loops (settle_all w) !! lid = Some l) as Hl'
        by (by rewrite settle_all_lookup, Hl; simpl; rewrite Hs).
      exists (settle_all w). split; [exact Hl'|]. split; [done|]. split; [done|].
      assert (handler_resume lid (AwaitGroupValidator values) (settle_all w) =
                (set_loops (<[lid := returned_loop values l]>
                              (loops (settle_all w))) (settle_all w),
                 Ok None)) as ->; [|done].
      unfold handler_resume. unfold bind at 1, loop at 1. rewrite Hl', Hv.
      unfold bind at 1, update_loop at 1, modify at 1.
      rewrite (alter_lookup_insert _ _ _ _ Hl'). rewrite Hgv.
      unfold bind at 1.
      rewrite (return_all_accepted _ lid
                 (set_validationErrorMessage (validate values) l)); simpl.
      + unfold returned_loop. rewrite Hv. by rewrite list_insert_insert_eq.
      + by rewrite list_lookup_insert_eq by (by eapply lookup_lt_Some).
      + done.
    - assert (handler_resume lid (AwaitValidities values) w =
                (set_loops (<[lid := returned_loop values l]> (loops w)) w,
                 Ok None)) as ->.
      { unfold handler_resume. unfold bind at 1.
        rewrite (validities_all w lid l _ 0 Hl) by lia. rewrite drop_0.
        rewrite (no_refusal _ _ Hacc).
        unfold bind at 1, loop at 1. rewrite Hl, Hv.
        unfold bind at 1. rewrite (return_all_accepted _ lid l _ Hl Hparse).
        unfold returned_loop. by rewrite Hv. }
      cbn [fst snd]. exists w. done. }
  simpl. split; [done|]. split; [done|]. split; [done|].
  exists (settle (returned_loop values l)).
  rewrite list_lookup_fmap.
  rewrite list_lookup_insert_eq by (by eapply lookup_lt_Some). simpl.
  split; [done|]. unfold settle. rewrite Hm. simpl.
  split; [|split; [|split]].
  - by destruct (groupValidator l).
  - by destruct (groupValidator l).
  - clear -Hful. induction Hful as [|c p cs ps Hcp _ IH]; [done|].
    rewrite !fmap_cons. by f_equal.
  - by destruct (groupValidator l).
Qed.

(** A [RETURN] or a [CANCELED] response that passes the guards, as the
    client takes it: the handler of a [RETURN] waits for the validators, the
    handler of a [CANCELED] ends at once. *)
Lemma takes_return (w : World) (lid : nat) (l : Loop)
    (result : T_IO_RESPONSE) (waiting : list (nat * Waiting)) :
  onResponseHandler w = Some lid ->
  loops w !! lid = Some l ->
  other_group result l = false ->
  isCanceled w = false ->
  isReturned l = false ->
  r_kind result = K_RETURN ->
  length (r_values result) = length (components l) ->
  turn (Takes (OnResponse result)) {| client := w; suspended := waiting |} =
    {| client := settle_all w;
       suspended := waiting ++ [(lid, AwaitValidities (received_values result))] |}.
Proof.
  intros Hh Hl Hg Hc Hr Hk Hlen.
  unfold turn. cbn [client suspended]. rewrite Hh.
  rewrite (handler_begin_accepts w lid l result Hl Hg Hc Hr), Hk.
  by rewrite Hlen, Nat.eqb_refl.
Qed.

Lemma takes_canceled (w : World) (lid : nat) (l : Loop)
    (result : T_IO_RESPONSE) (waiting : list (nat * Waiting)) :
  onResponseHandler w = Some lid ->
  loops w !! lid = Some l ->
  other_group result l = false ->
  isCanceled w = false ->
  isReturned l = false ->
  r_kind result = K_CANCELED ->
  turn (Takes (OnResponse result)) {| client := w; suspended := waiting |} =
    {| client :=
         settle_all
           (set_loops
              (alter (fun l => set_outer (reject (outer l) (IOError CANCELED)) l)
                     lid (loops w))
              (set_isCanceled true w));
       suspended := waiting |}.
Proof.
  intros Hh Hl Hg Hc Hr Hk.
  unfold turn. cbn [client suspended]. rewrite Hh.
  by rewrite (handler_begin_accepts w lid l result Hl Hg Hc Hr), Hk.
Qed.

(** The promise of a pending render whose components are pending, after the
    promises that can resolve have. *)
Lemma resolve_after_settle (l : Loop) (parsed : list Value) :
  outer l = Pending ->
  Forall (fun c => resolver (base c) = true /\ returnValue (base c) = Pending)
         (components l) ->
  length parsed = length (components l) ->
  resolve (outer (settle l)) parsed = Fulfilled parsed.
Proof.
  intros Hp Hcs Hlen. unfold settle.
  destruct (components l) as [|c cs] eqn:E.
  - destruct parsed; [|done]. simpl. by rewrite Hp.
  - apply Forall_cons in Hcs as [[_ Hc] _]. simpl. rewrite Hc. simpl.
    by rewrite Hp.
Qed.

(** An accepted [RETURN] that nothing interrupts: when the response passes
    the guards, every component validator lets its value pass, the group
    validator (if any) gives no message, the returns schema takes every
    value, and the handler goes on after its awaits before the client takes
    another event, then the batch has returned: each pending component holds
    its parsed value, the promise of the render is fulfilled with the parsed
    values in the order of the components, nothing is sent, and no handler
    waits. *)
Theorem accepted_return_resolves_render (w : World) (lid : nat) (l : Loop)
    (result : T_IO_RESPONSE) (parsed : list Value) :
  onResponseHandler w = Some lid ->
  loops w !! lid = Some l ->
  other_group result l = false ->
  isCanceled w = false ->
  isReturned l = false ->
  outer l = Pending ->
  r_kind result = K_RETURN ->
  length (r_values result) = length (components l) ->
  length (received_values result) = length (components l) ->
  forallb id (zip_with accepts (components l) (received_values result)) = true ->
  truthy_str (groupValidator l ≫= fun validate => validate (received_values result))
    = false ->
  Forall (fun c => resolver (base c) = true /\ returnValue (base c) = Pending)
         (components l) ->
  zip_with (fun c v => returns_parse (schema (base c)) v)
           (components l) (received_values result) = Some <$> parsed ->
  let r := turns [Takes (OnResponse result); Resumes 0; Resumes 0]
             {| client := w; suspended := [] |} in
  suspended r = [] /\
  sent (client r) = sent w /\
  isCanceled (client r) = false /\
  exists l' : Loop,
    loops (client r) !! lid = Some l' /\
    isReturned l' = true /\
    outer l' = Fulfilled parsed /\
    (fun c => returnValue (base c)) <$> components l' = Fulfilled <$> parsed /\
    inputGroupKey l' = inputGroupKey l.
Proof.
  intros Hh Hl Hg Hc Hr Hp Hk Hlen Hlen' Hacc Hgv Hcs Hzip r.
  destruct (settle_fields l) as (Fk & Fr & Fm & Fc & Fg).
  assert (length parsed = length (components l)) as Hlp.
  { rewrite <- (length_fmap Some parsed), <- Hzip, length_zip_with. lia. }
  subst r. unfold turns. cbn [foldl].
  rewrite (takes_return w lid l result [] Hh Hl Hg Hc Hr Hk Hlen).
  cbn [app].
  destruct (resumes_accepted_return (settle_all w) lid (settle l)
              (received_values result) parsed)
    as (H1 & H2 & H3 & l' & H4 & H5 & H6 & H7 & H8).
  - by rewrite settle_all_lookup, Hl.
  - apply settle_idem.
  - by rewrite Fc.
  - by rewrite Fc.
  - by rewrite Fg.
  - by rewrite Fc.
  - by rewrite Fc.
  - unfold turns in *. cbn [foldl] in *.
    split; [exact H1|]. split; [exact H2|]. split; [by rewrite H3|].
    exists l'. split; [exact H4|]. split; [exact H5|]. split.
    + rewrite H6. by apply resolve_after_settle.
    + split; [exact H7|]. by rewrite H8.
Qed.

(** A cancellation that arrives while the handler of an accepted [RETURN]
    waits for the validators wins: the handler checked [isCanceled] before
    its first await and not again, so it goes on to mark the batch returned
    and to give the components their values, but the promise of the render
    stays rejected with [CANCELED] and the client stays canceled. *)
Theorem cancel_while_validating (w : World) (lid : nat) (l : Loop)
    (result cancel : T_IO_RESPONSE) (parsed : list Value) :
  onResponseHandler w = Some lid ->
  loops w !! lid = Some l ->
  other_group result l = false ->
  isCanceled w = false ->
  isReturned l = false ->
  outer l = Pending ->
  components l <> [] ->
  r_kind result = K_RETURN ->
  length (r_values result) = length (components l) ->
  length (received_values result) = length (components l) ->
  forallb id (zip_with accepts (components l) (received_values result)) = true ->
  truthy_str (groupValidator l ≫= fun validate => validate (received_values result))
    = false ->
  Forall (fun c => resolver (base c) = true /\ returnValue (base c) = Pending)
         (components l) ->
  zip_with (fun c v => returns_parse (schema (base c)) v)
           (components l) (received_values result) = Some <$> parsed ->
  r_kind cancel = K_CANCELED ->
  other_group cancel l = false ->
  let r := turns [Takes (OnResponse result); Takes (OnResponse cancel);
                  Resumes 0; Resumes 0]
             {| client := w; suspended := [] |} in
  suspended r = [] /\
  sent (client r) = sent w /\
  isCanceled (client r) = true /\
  exists l' : Loop,
    loops (client r) !! lid = Some l' /\
    outer l' = Rejected (IOError CANCELED) /\
    isReturned l' = true /\
    (fun c => returnValue (base c)) <$> components l' = Fulfilled <$> parsed.
Proof.
  intros Hh Hl Hg Hc Hr Hp Hne Hk Hlen Hlen' Hacc Hgv Hcs Hzip Hkc Hgc r.
  assert (Forall (fun c => returnValue (base c) = Pending) (components l)) as Hpend.
  { eapply Forall_impl; [exact Hcs|]. by intros c [_ ?]. }
  assert (settle l = l) as Hs by (by apply settle_pending).
  subst r. unfold turns. cbn [foldl].
  rewrite (takes_return w lid l result [] Hh Hl Hg Hc Hr Hk Hlen).
  cbn [app].
  assert (loops (settle_all w) !! lid = Some l) as Hl1
    by (by rewrite settle_all_lookup, Hl; simpl; rewrite Hs).
  rewrite (takes_canceled (settle_all w) lid l cancel _ Hh Hl1 Hgc Hc Hr Hkc).
  pose (lc := set_outer (Rejected (IOError CANCELED)) l).
  destruct (resumes_accepted_return
              (settle_all
                 (set_loops
                    (alter (fun l => set_outer (reject (outer l) (IOError CANCELED)) l)
                           lid (loops (settle_all w)))
                    (set_isCanceled true (settle_all w))))
              lid lc (received_values result) parsed)
    as (H1 & H2 & H3 & l' & H4 & H5 & H6 & H7 & H8); try done.
  - rewrite settle_all_lookup. cbn [loops set_loops].
    rewrite list_lookup_alter_eq, Hl1. cbn [fmap option_fmap option_map].
    f_equal. rewrite Hp. cbn [reject]. fold lc. by apply settle_pending.
  - by apply settle_pending.
  - unfold turns in *. cbn [foldl] in *.
    split; [exact H1|]. split; [exact H2|]. split; [by rewrite H3|].
    exists l'. split; [exact H4|]. split; [by rewrite H6|]. by split.
Qed.



Lemma bind_ret_r_at {A} (m : M A) (w : World) : bind m ret w = m w.
Proof. unfold bind. by destruct (m w) as [w' [a|e]]. Qed.









(** *** What every event preserves between two states

    [advances R m]: the computation [m] takes a client to one related to it
    by [R].  For a reflexive and transitive [R] that the elementary updates
    respect, every operation and every run of events does. *)

Section Progress.

Variable R : World -> World -> Prop.

Hypothesis R_refl : forall w, R w w.
Hypothesis R_trans : forall w1 w2 w3, R w1 w2 -> R w2 w3 -> R w1 w3.
Hypothesis R_logger : forall w lines, R w (set_logger lines w).
Hypothesis R_console : forall w lines, R w (set_console lines w).
Hypothesis R_canceled : forall w, R w (set_isCanceled true w).
Hypothesis R_component : forall w lid i c,
  R w (set_loops
         (alter (fun l => set_components (<[i := c]> (components l)) l) lid
                (loops w)) w).
Hypothesis R_message : forall w lid m,
  R w (set_loops (alter (set_validationErrorMessage m) lid (loops w)) w).
Hypothesis R_returned : forall w lid,
  R w (set_loops (alter (set_isReturned true) lid (loops w)) w).
Hypothesis R_rejected : forall w lid e,
  R w (set_loops (alter (fun l => set_outer (reject (outer l) e) l) lid (loops w)) w).
Hypothesis R_render : forall w lid, R w (render lid w).1.
Hypothesis R_renderComponents : forall w cs validate,
  R w (renderComponents cs validate w).1.
Hypothesis R_settle : forall w, R w (settle_all w).

Definition advances {A} (m : M A) : Prop := forall w, R w (m w).1.

Lemma adv_ret {A} (a : A) : advances (ret a).
Proof. intros w. apply R_refl. Qed.

Lemma adv_throw {A} (e : Error) : advances (@throw A e).
Proof. intros w. apply R_refl. Qed.

Lemma adv_bind {A B} (m : M A) (k : A -> M B) :
  advances m -> (forall a, advances (k a)) -> advances (bind m k).
Proof.
  intros Hm Hk w. specialize (Hm w). unfold bind.
  destruct (m w) as [w' [a|e]]; simpl in *; [|done].
  eapply R_trans; [exact Hm|apply Hk].
Qed.

Lemma adv_for_each {A} (body : nat -> A -> M unit) (index : nat) (l : list A) :
  (forall i a, advances (body i a)) -> advances (for_each body index l).
Proof.
  intros Hbody. revert index. induction l as [|a l IH]; intros index; simpl.
  - apply adv_ret.
  - apply adv_bind; [apply Hbody|]. intros _. apply IH.
Qed.

Lemma adv_map_indexed {A B} (body : nat -> A -> M B) (index : nat) (l : list A) :
  (forall i a, advances (body i a)) -> advances (map_indexed body index l).
Proof.
  intros Hbody. revert index. induction l as [|a l IH]; intros index; simpl.
  - apply adv_ret.
  - apply adv_bind; [apply Hbody|]. intros b.
    apply adv_bind; [apply IH|]. intros bs. apply adv_ret.
Qed.

Lemma adv_loop (lid : nat) : advances (loop lid).
Proof. intros w. unfold loop. destruct (loops w !! lid); apply R_refl. Qed.

Lemma adv_component_at (lid index : nat) : advances (component_at lid index).
Proof.
  apply adv_bind; [apply adv_loop|]. intros l.
  destruct (components l !! index); [apply adv_ret|apply adv_throw].
Qed.

Lemma adv_set_component (lid index : nat) (c : IOComponent) :
  advances (set_component lid index c).
Proof. intros w. apply R_component. Qed.

Lemma adv_logger_debug (line : string) : advances (logger_debug line).
Proof. intros w. apply R_logger. Qed.

Lemma adv_render (lid : nat) : advances (render lid).
Proof. intros w. apply R_render. Qed.

Lemma adv_perform_all (effects : list (Effect nat)) : advances (perform_all effects).
Proof.
  apply adv_for_each. intros _ [line|line|lid]; simpl.
  - intros w. apply R_console.
  - intros w. apply R_console.
  - apply adv_render.
Qed.

Lemma adv_result {A} (r : Result A) :
  advances (match r with Ok _ => ret () | Throw e => throw e end).
Proof. destruct r; [apply adv_ret|apply adv_throw]. Qed.

Lemma adv_validity (lid index : nat) (v : Value) : advances (validity lid index v).
Proof.
  apply adv_bind; [apply adv_component_at|]. intros c.
  destruct (validator c); apply adv_ret.
Qed.

Lemma adv_return_value (lid index : nat) (v : Value) :
  advances (return_value lid index v).
Proof.
  apply adv_bind; [apply adv_component_at|]. intros c.
  destruct (setReturnValue returns_parse v (base c)) as [b r].
  apply adv_bind; [apply adv_set_component|]. intros _. apply adv_result.
Qed.

Lemma adv_set_state (lid index : nat) (newState : Value) (c : IOComponent) :
  advances (let '(b, effects, r) := setState state_parse newState (base c) in
            let* _ := set_component lid index (set_base b c) in
            let* _ := perform_all effects in
            match r with Ok _ => ret () | Throw e => throw e end).
Proof.
  destruct (setState state_parse newState (base c)) as [[b effects] r].
  apply adv_bind; [apply adv_set_component|]. intros _.
  apply adv_bind; [apply adv_perform_all|]. intros _. apply (adv_result r).
Qed.

Lemma adv_handle_RETURN (lid : nat) (values : list Value) :
  advances (handle_RETURN lid values).
Proof.
  apply adv_bind; [apply adv_map_indexed, adv_validity|]. intros vs.
  destruct (existsb negb vs); [apply adv_render|].
  apply adv_bind; [apply adv_loop|]. intros l.
  apply adv_bind.
  - destruct (groupValidator l) as [validate|]; [|apply adv_ret].
    apply adv_bind; [intros w; apply R_message|]. intros _.
    destruct (truthy_str _); [|apply adv_ret].
    apply adv_bind; [apply adv_render|]. intros _. apply adv_ret.
  - intros again. destruct again; [apply adv_ret|].
    apply adv_bind; [intros w; apply R_returned|]. intros _.
    apply adv_for_each, adv_return_value.
Qed.

Lemma adv_receive_state (lid index : nat) (newState : Value) :
  advances (receive_state lid index newState).
Proof.
  apply adv_bind; [apply adv_component_at|]. intros c. cbn beta zeta.
  destruct (differs _ _); [|apply adv_ret].
  apply adv_bind; [apply adv_logger_debug|]. intros _. apply adv_set_state.
Qed.

Lemma adv_handle_SET_STATE (lid : nat) (values : list Value) :
  advances (handle_SET_STATE lid values).
Proof.
  apply adv_bind; [apply adv_for_each, adv_receive_state|]. intros _.
  apply adv_render.
Qed.

Lemma adv_onResponseHandler_of (lid : nat) (result : T_IO_RESPONSE) :
  advances (onResponseHandler_of lid result).
Proof.
  apply adv_bind; [apply adv_loop|]. intros l.
  destruct (other_group result l); [apply adv_logger_debug|].
  apply adv_bind; [intros w; apply R_refl|]. intros canceled. cbn beta.
  destruct (canceled || isReturned l); [apply adv_logger_debug|].
  assert (advances (let* _ := modify (set_isCanceled true) in
                    update_loop lid
                      (fun l => set_outer (reject (outer l) (IOError CANCELED)) l)))
    as Hcancel.
  { apply adv_bind; [intros w; apply R_canceled|]. intros _ w. apply R_rejected. }
  destruct (r_kind result); [| |exact Hcancel].
  - destruct (negb (_ =? _)%nat); [apply adv_throw|apply adv_handle_RETURN].
  - destruct (negb (_ =? _)%nat); [apply adv_throw|apply adv_handle_SET_STATE].
Qed.

Lemma adv_component_call (lid index : nat) (call : @Call nat) :
  advances (component_call lid index call).
Proof.
  apply adv_bind; [apply adv_component_at|]. intros c.
  destruct call as [v|newState|newProps|fn].
  - apply adv_return_value.
  - apply adv_set_state.
  - destruct (setProps newProps (base c)) as [b effects].
    apply adv_bind; [apply adv_set_component|]. intros _. apply adv_perform_all.
  - apply adv_set_component.
Qed.

Lemma adv_step (ev : Event) (w : World) : R w (step ev w).
Proof.
  unfold step. eapply R_trans; [|apply R_settle].
  destruct ev as [cs validate|result|lid index call].
  - apply R_renderComponents.
  - unfold onResponse. destruct (onResponseHandler w) as [lid|]; [|apply R_refl].
    apply adv_onResponseHandler_of.
  - apply adv_component_call.
Qed.

Lemma adv_run (evs : list Event) (w : World) : R w (run evs w).
Proof.
  revert w. induction evs as [|ev evs IH]; intros w; [apply R_refl|].
  eapply R_trans; [apply (adv_step ev)|apply IH].
Qed.

End Progress.

(** Three relations that every run of events respects. *)

(** Loops stay, with their key and their size; a canceled client, a returned
    loop and a settled promise stay as they are. *)
Definition keeps_status (w w' : World) : Prop :=
  (isCanceled w = true -> isCanceled w' = true) /\
  forall lid l, loops w !! lid = Some l ->
    exists l', loops w' !! lid = Some l' /\
      inputGroupKey l' = inputGroupKey l /\
      length (components l') = length (components l) /\
      (isReturned l = true -> isReturned l' = true) /\
      (outer l <> Pending -> outer l' = outer l).

(** The handler is unchanged while no loop is added, and belongs to the last
    loop once one is. *)
Definition handler_follows (w w' : World) : Prop :=
  (length (loops w') = length (loops w) /\
   onResponseHandler w' = onResponseHandler w) \/
  (length (loops w) < length (loops w') /\
   onResponseHandler w' = Some (pred (length (loops w'))))%nat.

(** The new keys and the ids of the new envelopes are UUIDs drawn in
    between, each drawn once. *)
Definition drawn_between (w w' : World) : Prop :=
  exists (es : list T_IO_RENDER_INPUT) (ks ns : list nat),
    sent w' = sent w ++ es /\
    p_id <$> es = v4 <$> ns /\
    inputGroupKey <$> loops w' = (inputGroupKey <$> loops w) ++ (v4 <$> ks) /\
    NoDup (ks ++ ns) /\
    Forall (fun n => uuids w <= n < uuids w')%nat (ks ++ ns) /\
    (uuids w <= uuids w')%nat.

Lemma keeps_status_alter (f : Loop -> Loop) (lid : nat) (w : World) :
  (forall l, inputGroupKey (f l) = inputGroupKey l /\
             length (components (f l)) = length (components l) /\
             (isReturned l = true -> isReturned (f l) = true) /\
             (outer l <> Pending -> outer (f l) = outer l)) ->
  keeps_status w (set_loops (alter f lid (loops w)) w).
Proof.
  intros Hf. split; [done|]. intros lid' l Hl. simpl.
  destruct (decide (lid' = lid)) as [->|Hne].
  - exists (f l). rewrite list_lookup_alter_eq, Hl. split; [done|]. apply Hf.
  - exists l. by rewrite list_lookup_alter_ne.
Qed.

Lemma keeps_status_same_loops (w w' : World) :
  loops w' = loops w -> isCanceled w' = isCanceled w -> keeps_status w w'.
Proof.
  intros Hl Hc. split; [by rewrite Hc|]. intros lid l H. exists l.
  by rewrite Hl.
Qed.

Lemma run_keeps_status (evs : list Event) (w : World) :
  keeps_status w (run evs w).
Proof.
  apply (adv_run keeps_status).
  - intros w0. by apply keeps_status_same_loops.
  - intros w1 w2 w3 [Hc1 H1] [Hc2 H2]. split; [auto|].
    intros lid l Hl. destruct (H1 lid l Hl) as (l' & Hl' & Hk & Hn & Hr & Ho).
    destruct (H2 lid l' Hl') as (l'' & Hl'' & Hk' & Hn' & Hr' & Ho').
    exists l''. split; [done|]. split; [congruence|]. split; [congruence|].
    split; [auto|]. intros Hp. rewrite <- (Ho Hp). apply Ho'. by rewrite (Ho Hp).
  - intros w0 lines. by apply keeps_status_same_loops.
  - intros w0 lines. by apply keeps_status_same_loops.
  - intros w0. split; [done|]. intros lid l H. by exists l.
  - intros w0 lid i c. apply keeps_status_alter. intros l. simpl.
    by rewrite length_insert.
  - intros w0 lid m. by apply keeps_status_alter.
  - intros w0 lid. by apply keeps_status_alter.
  - intros w0 lid e. apply keeps_status_alter. intros l. simpl.
    repeat split; try done. by destruct (outer l).
  - intros w0 lid. apply keeps_status_same_loops; unfold render;
      by destruct (loops w0 !! lid).
  - intros w0 cs validate. unfold renderComponents, bind, gets.
    destruct (isCanceled w0) eqn:Hc; [by apply keeps_status_same_loops|].
    split; [by rewrite Hc|]. intros lid l Hl. exists l.
    split; [|done]. unfold render. simpl.
    rewrite list_lookup_middle by done. simpl.
    by apply lookup_app_l_Some.
  - intros w0. split; [done|]. intros lid l Hl. exists (settle l).
    unfold settle_all. simpl. rewrite list_lookup_fmap, Hl.
    split; [done|]. unfold settle. destruct (mapM _ _); [|done]. simpl.
    repeat split; try done. by destruct (outer l).
Qed.

Lemma handler_follows_same (w w' : World) :
  length (loops w') = length (loops w) ->
  onResponseHandler w' = onResponseHandler w ->
  handler_follows w w'.
Proof. intros. by left. Qed.

Lemma run_handler_follows (evs : list Event) (w : World) :
  handler_follows w (run evs w).
Proof.
  apply (adv_run handler_follows).
  - intros w0. by left.
  - intros w1 w2 w3 [[L1 H1]|[L1 H1]] [[L2 H2]|[L2 H2]].
    + left. split; congruence.
    + right. split; [lia|done].
    + right. split; [lia|]. rewrite H2, H1. by rewrite L2.
    + right. split; [lia|done].
  - intros w0 lines. by left.
  - intros w0 lines. by left.
  - intros w0. by left.
  - intros w0 lid i c. left. simpl. by rewrite length_alter.
  - intros w0 lid m. left. simpl. by rewrite length_alter.
  - intros w0 lid. left. simpl. by rewrite length_alter.
  - intros w0 lid e. left. simpl. by rewrite length_alter.
  - intros w0 lid. left. unfold render. by destruct (loops w0 !! lid).
  - intros w0 cs validate. unfold renderComponents, bind, gets.
    destruct (isCanceled w0); [by left|]. right.
    unfold render. simpl. rewrite list_lookup_middle by done. simpl.
    rewrite length_app. simpl. split; [lia|]. f_equal. lia.
  - intros w0. left. unfold settle_all. simpl. by rewrite length_fmap.
Qed.

Lemma drawn_between_same (w w' : World) :
  sent w' = sent w ->
  inputGroupKey <$> loops w' = inputGroupKey <$> loops w ->
  uuids w' = uuids w ->
  drawn_between w w'.
Proof.
  intros Hs Hk Hu. exists [], [], []. rewrite Hs, Hk, Hu, !app_nil_r.
  split_and!; [done|done|done|constructor|constructor|lia].
Qed.

Lemma keys_alter (f : Loop -> Loop) (lid : nat) (ls : list Loop) :
  (forall l, inputGroupKey (f l) = inputGroupKey l) ->
  inputGroupKey <$> alter f lid ls = inputGroupKey <$> ls.
Proof.
  intros Hf. apply list_eq. intros i. rewrite !list_lookup_fmap.
  destruct (decide (i = lid)) as [->|Hne].
  - rewrite list_lookup_alter_eq. destruct (ls !! lid); simpl; [|done].
    by rewrite Hf.
  - by rewrite list_lookup_alter_ne.
Qed.

Lemma drawn_between_render (w : World) (lid : nat) :
  drawn_between w (render lid w).1.
Proof.
  unfold render. destruct (loops w !! lid) as [l|]; simpl;
    [|by apply drawn_between_same].
  eexists [_], [], [uuids w]. simpl. rewrite app_nil_r.
  repeat split; try done.
  - apply NoDup_singleton.
  - apply Forall_singleton. lia.
  - lia.
Qed.

Lemma run_drawn_between (evs : list Event) (w : World) :
  drawn_between w (run evs w).
Proof.
  apply (adv_run drawn_between).
  - intros w0. by apply drawn_between_same.
  - intros w1 w2 w3 (es1 & ks1 & ns1 & Hs1 & Hi1 & Hk1 & Hd1 & Hr1 & Hu1)
                    (es2 & ks2 & ns2 & Hs2 & Hi2 & Hk2 & Hd2 & Hr2 & Hu2).
    exists (es1 ++ es2), (ks1 ++ ks2), (ns1 ++ ns2).
    split; [by rewrite Hs2, Hs1, app_assoc|].
    split; [by rewrite !fmap_app, Hi1, Hi2|].
    split; [by rewrite Hk2, Hk1, fmap_app, app_assoc|].
    assert ((ks1 ++ ks2) ++ ns1 ++ ns2 ≡ₚ (ks1 ++ ns1) ++ ks2 ++ ns2) as Hperm.
    { rewrite <- !app_assoc. f_equiv. rewrite !app_assoc. f_equiv.
      apply Permutation_app_comm. }
    split; [|split; [|lia]].
    + rewrite Hperm. apply NoDup_app. split; [done|]. split; [|done].
      intros n Hn1 Hn2.
      rewrite Forall_forall in Hr1, Hr2.
      specialize (Hr1 n Hn1). specialize (Hr2 n Hn2). lia.
    + rewrite Hperm. apply Forall_app. split.
      * eapply Forall_impl; [exact Hr1|]. simpl. lia.
      * eapply Forall_impl; [exact Hr2|]. simpl. lia.
  - intros w0 lines. by apply drawn_between_same.
  - intros w0 lines. by apply drawn_between_same.
  - intros w0. by apply drawn_between_same.
  - intros w0 lid i c. apply drawn_between_same; [done| |done].
    simpl. by apply keys_alter.
  - intros w0 lid m. apply drawn_between_same; [done| |done].
    simpl. by apply keys_alter.
  - intros w0 lid. apply drawn_between_same; [done| |done].
    simpl. by apply keys_alter.
  - intros w0 lid e. apply drawn_between_same; [done| |done].
    simpl. by apply keys_alter.
  - apply drawn_between_render.
  - intros w0 cs validate. unfold renderComponents, bind, gets.
    destruct (isCanceled w0); [by apply drawn_between_same|].
    unfold render. simpl. rewrite list_lookup_middle by done. simpl.
    eexists [_], [uuids w0], [S (uuids w0)]. simpl.
    split; [done|]. split; [done|]. split; [by rewrite fmap_app|].
    split; [|split; [|lia]].
    + apply NoDup_cons. split; [|apply NoDup_singleton].
      rewrite list_elem_of_singleton. lia.
    + repeat constructor; lia.
  - intros w0. apply drawn_between_same; [done| |done].
    unfold settle_all. simpl. rewrite <- list_fmap_compose.
    apply list_fmap_ext. intros _ l _. simpl.
    unfold settle. by destruct (mapM _ _).
Qed.

(** Over any events a loop stays where it is with its key and the size of
    its batch; once it has returned it stays returned, and once the promise
    of its render is settled, fulfilled or rejected, the promise never
    changes again. *)
Theorem render_settles_once (evs : list Event) (w : World) (lid : nat)
    (l : Loop) :
  loops w !! lid = Some l ->
  exists l' : Loop,
    loops (run evs w) !! lid = Some l' /\
    inputGroupKey l' = inputGroupKey l /\
    length (components l') = length (components l) /\
    (isReturned l = true -> isReturned l' = true) /\
    (outer l <> Pending -> outer l' = outer l).
Proof. intros Hl. by destruct (run_keeps_status evs w) as [_ H]; apply H. Qed.

(** Responses always go to the loop of the latest [renderComponents] that
    was not refused: in every client reached from a new one, there is no
    handler while there is no loop, and otherwise the handler is that of the
    last loop. *)
Theorem handler_is_latest_loop (evs : list Event) :
  onResponseHandler (run evs new) =
    match length (loops (run evs new)) with
    | O => None
    | S n => Some n
    end.
Proof.
  destruct (run_handler_follows evs new) as [[L H]|[L H]].
  - rewrite L, H. done.
  - rewrite H. simpl in L.
    destruct (length (loops (run evs new))); [lia|done].
Qed.

(** Every input group key and every envelope id of a client is a UUID of
    its own: in a client reached from a new one, the keys of the loops and
    the ids of the envelopes sent are the values of [v4] at pairwise
    different draws, all of them draws that were made. *)
Theorem uuids_are_used_once (evs : list Event) :
  exists ks ns : list nat,
    inputGroupKey <$> loops (run evs new) = v4 <$> ks /\
    p_id <$> sent (run evs new) = v4 <$> ns /\
    NoDup (ks ++ ns) /\
    Forall (fun n => n < uuids (run evs new))%nat (ks ++ ns).
Proof.
  destruct (run_drawn_between evs new)
    as (es & ks & ns & Hs & Hi & Hk & Hd & Hr & _).
  exists ks, ns. simpl in *. rewrite Hs, Hk, Hi. repeat split; try done.
  eapply Forall_impl; [exact Hr|]. simpl. lia.
Qed.

(** A late reply to an earlier batch cannot reach the current one: when
    [v4] never repeats itself and never gives the empty string, a response
    that carries the key of any loop but the last is dropped by a client
    reached from a new one, with a debug line and no other change. *)
Theorem earlier_batch_response_is_stale (evs : list Event) (lid : nat)
    (l : Loop) (result : T_IO_RESPONSE) :
  (forall a b, v4 a = v4 b -> a = b) ->
  (forall n, v4 n <> "") ->
  loops (run evs new) !! lid = Some l ->
  (S lid < length (loops (run evs new)))%nat ->
  r_inputGroupKey result = Some (inputGroupKey l) ->
  onResponse result (run evs new) =
    set_logger (logger (run evs new) ++ ["Received response for other input group"])
               (run evs new).
Proof.
  intros Hinj Hne Hl Hlt Hkey.
  assert (onResponseHandler (run evs new) =
          Some (pred (length (loops (run evs new))))) as Hh.
  { destruct (run_handler_follows evs new) as [[L _]|[_ H]]; [|done].
    rewrite L in Hlt. simpl in Hlt. lia. }
  destruct (length (loops (run evs new))) as [|last] eqn:Hlen; [lia|].
  simpl in Hh.
  destruct (lookup_lt_is_Some_2 (loops (run evs new)) last ltac:(lia))
    as [l_last Hlast].
  destruct (run_drawn_between evs new)
    as (es & ks & ns & _ & _ & Hk & Hd & _ & _).
  simpl in Hk.
  assert (exists a, ks !! lid = Some a /\ inputGroupKey l = v4 a) as (a & Ha & Hka).
  { pose proof (f_equal (fun keys => keys !! lid) Hk) as E. simpl in E.
    rewrite !list_lookup_fmap, Hl in E. simpl in E.
    destruct (ks !! lid) as [a|]; [|done]. exists a. split; [done|].
    by injection E. }
  assert (exists b, ks !! last = Some b /\ inputGroupKey l_last = v4 b)
    as (b & Hb & Hkb).
  { pose proof (f_equal (fun keys => keys !! last) Hk) as E. simpl in E.
    rewrite !list_lookup_fmap, Hlast in E. simpl in E.
    destruct (ks !! last) as [b|]; [|done]. exists b. split; [done|].
    by injection E. }
  assert (a <> b) as Hab.
  { intros ->. apply NoDup_app in Hd as (Hd & _ & _).
    pose proof (NoDup_lookup _ _ _ _ Hd Ha Hb). lia. }
  assert (other_group result l_last = true) as Hg.
  { unfold other_group. rewrite Hkey, Hka, Hkb. simpl.
    apply andb_true_intro. split.
    - apply negb_true_iff, String.eqb_neq, Hne.
    - apply negb_true_iff, bool_decide_eq_false. intros [= E]. auto. }
  unfold onResponse. rewrite Hh.
  by rewrite (handler_other_group _ last l_last result Hlast Hg).
Qed.

End Client.

(** ** [group] *)

(** What [group] reads of a promise: whether it is an instance of
    [ExclusiveIOPromise], and the label of its component. *)
Record GroupMember : Type := {
  exclusive : bool;
  member_label : string;
}.

(** [Array.prototype.join] on strings. *)
Fixpoint join (sep : string) (parts : list string) : string :=
  match parts with
  | [] => EmptyString
  | part :: rest =>
      match rest with
      | [] => part
      | _ :: _ => part +:+ sep +:+ join sep rest
      end
  end.

Inductive GroupOutcome : Type :=
| IOGroupPromise (promises : list GroupMember)
| IntervalError (message : string).

Definition group (promises : list GroupMember) : GroupOutcome :=
  let exclusivePromises := filter (fun pi => exclusive pi = true) promises in
  if (0 <? length exclusivePromises)%nat then
    IntervalError
      ("Components with the following labels are not supported inside groups, please remove them from the group: "
       +:+ join ", " (member_label <$> exclusivePromises))
  else IOGroupPromise promises.

Lemma no_exclusive_filter (promises : list GroupMember) :
  filter (fun pi => exclusive pi = true) promises = [] <->
  Forall (fun pi => exclusive pi = false) promises.
Proof.
  induction promises as [|pi promises IH].
  - split; [constructor|done].
  - destruct (exclusive pi) eqn:E.
    + rewrite filter_cons_True by done. split; [done|].
      intros H. apply Forall_cons in H as [H _]. congruence.
    + rewrite filter_cons_False by congruence. rewrite IH.
      split; [by constructor|]. intros H. by apply Forall_cons in H as [_ H].
Qed.

(** [group] throws exactly when one of the promises is exclusive, wherever it
    stands, and otherwise passes all the promises on in their order; the
    promises that are not exclusive have no part in the message of the error:
    the exclusive ones alone give the same error. *)
Theorem group_refuses_exclusive (promises : list GroupMember) :
  (Exists (fun pi => exclusive pi = true) promises <->
   exists message, group promises = IntervalError message) /\
  (Forall (fun pi => exclusive pi = false) promises <->
   group promises = IOGroupPromise promises) /\
  (Exists (fun pi => exclusive pi = true) promises ->
   group (filter (fun pi => exclusive pi = true) promises) = group promises).
Proof.
  assert (Forall (fun pi => exclusive pi = false) promises <->
          group promises = IOGroupPromise promises) as Hall.
  { rewrite <- no_exclusive_filter. unfold group.
    destruct (filter _ promises) as [|pi rest]; simpl; split; done. }
  assert (Exists (fun pi => exclusive pi = true) promises <->
          ~ Forall (fun pi => exclusive pi = false) promises) as Hex.
  { rewrite Exists_exists, Forall_forall. split.
    - intros (pi & Hin & E) H. specialize (H pi Hin). congruence.
    - intros H.
      destruct (decide (Exists (fun pi => exclusive pi = true) promises))
        as [Hyes|Hno]; [by apply Exists_exists|].
      destruct H. intros pi Hin. destruct (exclusive pi) eqn:E; [|done].
      destruct Hno. apply Exists_exists. by exists pi. }
  split; [|split; [done|]].
  - rewrite Hex, Hall. unfold group.
    destruct (0 <? _)%nat; split; try done; try (by eexists).
    intros [message ?]. done.
  - rewrite Hex, Hall. unfold group.
    rewrite list_filter_filter_l by done.
    by destruct (0 <? _)%nat.
Qed.

(** *** A sample client *)

(** UUIDs in the order they are drawn; [JSON.stringify] on scalars (the
    examples compare no arrays or objects); a codec without metadata. *)
Definition v4_sample (n : nat) : string := "uuid-" +:+ pretty n.

Definition stringify_sample (v : Value) : option string :=
  match v with
  | VUndefined => None
  | VNull => Some "null"
  | VBool true => Some "true"
  | VBool false => Some "false"
  | VNum z => Some (pretty z)
  | VStr s => Some ("'" +:+ s +:+ "'")
  | VArr _ => Some "[]"
  | VObj _ => Some "{}"
  end.

Definition serialize_sample (v : Value) : Value * Value := (v, VUndefined).
Definition deserialize_sample (vs : list Value) (_ : Value) : list Value := vs.
Definition strip_sample (v : Value) : Value := v.

Definition sample_step : Event -> World -> World :=
  step v4_sample stringify_sample serialize_sample deserialize_sample
       strip_sample text_returns any_state.

Definition sample_run : list Event -> World -> World :=
  run v4_sample stringify_sample serialize_sample deserialize_sample
      strip_sample text_returns any_state.

Definition sample_onResponse : T_IO_RESPONSE -> World -> World :=
  onResponse v4_sample stringify_sample serialize_sample deserialize_sample
             strip_sample text_returns any_state.

(** [io.input.text("name").validate(v => v.length < 2 ? "too short" : undefined)] *)
Definition too_short (v : Value) : option string :=
  match v with
  | VStr s => if (String.length s <? 2)%nat then Some "too short" else None
  | _ => None
  end.

Definition name_input : Built :=
  {| b_methodName := "INPUT_TEXT"; b_label := "name";
     b_initialProps := VUndefined; b_handleStateChange := None;
     b_validator := Some too_short; b_calls := [] |}.

(** The client once the action awaits the input: loop 0 with key
    ["uuid-0"], one envelope sent. *)
Definition awaiting_name : World :=
  sample_run [RenderComponents [name_input] None] new.

Definition waiting_loop : Loop :=
  {| inputGroupKey := "uuid-0"; isReturned := false;
     validationErrorMessage := None;
     components :=
       [{| base := onStateChange 0%nat
                     (component "INPUT_TEXT" "name" VUndefined None);
           validator := Some too_short |}];
     groupValidator := None; outer := Pending |}.

Definition response (key : option string) (kind : ResponseKind)
    (values : list Value) : T_IO_RESPONSE :=
  {| r_inputGroupKey := key; r_kind := kind; r_values := values;
     r_valuesMeta := VUndefined |}.

(** The scenarios of a text input with a validator: a refused value is
    rendered again under the same key and the next value resolves the
    render; a cancellation closes the transaction. *)
Example scenario_validation_retry :
  p_inputGroupKey <$>
    sent (sample_run [OnResponse (response (Some "uuid-0") K_RETURN [VStr ""]);
                      OnResponse (response (Some "uuid-0") K_RETURN [VStr "ok"])]
            awaiting_name) = ["uuid-0"; "uuid-0"] /\
  outer <$>
    loops (sample_run [OnResponse (response (Some "uuid-0") K_RETURN [VStr ""]);
                       OnResponse (response (Some "uuid-0") K_RETURN [VStr "ok"])]
             awaiting_name) = [Fulfilled [VStr "ok"]].
Proof. split; reflexivity. Qed.

Example scenario_cancel :
  outer <$>
    loops (sample_run [OnResponse (response (Some "uuid-0") K_CANCELED []);
                       RenderComponents [name_input] None]
             awaiting_name) = [Rejected (IOError CANCELED)] /\
  length (sent (sample_run [OnResponse (response (Some "uuid-0") K_CANCELED []);
                            RenderComponents [name_input] None]
                  awaiting_name)) = 1%nat.
Proof. split; reflexivity. Qed.

(** A search whose state handler turns the query into new props: the
    [SET_STATE] response renders twice under the same key, once from the
    component's state-change handler and once at the end of the branch. *)
Definition search_input : Built :=
  {| b_methodName := "SEARCH"; b_label := "user";
     b_initialProps := VObj [("results", VArr [])];
     b_handleStateChange :=
       Some (fun query => Ok (VObj [("results", VArr [query])]));
     b_validator := None; b_calls := [] |}.

Example scenario_state_rerender :
  (fun p => (p_inputGroupKey p, item_props <$> p_toRender p)) <$>
    sent (sample_run [RenderComponents [search_input] None;
                      OnResponse (response (Some "uuid-0") K_SET_STATE [VStr "abc"])]
            new) =
    [("uuid-0", [VObj [("results", VArr [])]]);
     ("uuid-0", [VObj [("results", VArr [VStr "abc"])]]);
     ("uuid-0", [VObj [("results", VArr [VStr "abc"])]])].
Proof. reflexivity. Qed.

Lemma stale_response_discarded_witness :
  sample_onResponse (response (Some "uuid-9") K_RETURN [VStr "late"])
    awaiting_name =
    set_logger ["Received response for other input group"] awaiting_name /\
  loops (sample_onResponse (response (Some "uuid-9") K_RETURN [VStr "late"])
           awaiting_name) = loops awaiting_name /\
  sent (sample_onResponse (response (Some "uuid-9") K_RETURN [VStr "late"])
          awaiting_name) = sent awaiting_name /\
  isCanceled (sample_onResponse (response (Some "uuid-9") K_RETURN [VStr "late"])
                awaiting_name) = isCanceled awaiting_name.
Proof.
  apply (stale_response_discarded v4_sample stringify_sample serialize_sample
           deserialize_sample strip_sample text_returns any_state
           awaiting_name 0%nat waiting_loop
           (response (Some "uuid-9") K_RETURN [VStr "late"]) "uuid-9").
  - reflexivity.
  - reflexivity.
  - reflexivity.
  - discriminate.
  - discriminate.
Defined.

(** C4 as stated fails for a key that is empty or missing: a [CANCELED]
    response whose [inputGroupKey] is the empty string, or that has none,
    differs in its key from the loop with key ["uuid-0"] and is not dropped;
    it cancels the client and rejects the promise of the render. *)
Lemma empty_key_not_discarded :
  loops awaiting_name !! 0%nat = Some waiting_loop /\
  isCanceled awaiting_name = false /\
  (r_inputGroupKey (response (Some "") K_CANCELED []) <>
     Some (inputGroupKey waiting_loop) /\
   isCanceled (sample_onResponse (response (Some "") K_CANCELED []) awaiting_name)
     = true /\
   outer <$> loops (sample_onResponse (response (Some "") K_CANCELED [])
                      awaiting_name) !! 0%nat =
     Some (Rejected (IOError CANCELED))) /\
  (r_inputGroupKey (response None K_CANCELED []) <>
     Some (inputGroupKey waiting_loop) /\
   isCanceled (sample_onResponse (response None K_CANCELED []) awaiting_name)
     = true /\
   outer <$> loops (sample_onResponse (response None K_CANCELED [])
                      awaiting_name) !! 0%nat =
     Some (Rejected (IOError CANCELED))).
Proof.
  split; [reflexivity|]. split; [reflexivity|].
  split; (split; [discriminate|]); split; reflexivity.
Qed.

Lemma length_mismatch_throws_witness :
  onResponseHandler_of v4_sample stringify_sample serialize_sample
    deserialize_sample strip_sample text_returns any_state 0
    (response (Some "uuid-0") K_RETURN []) awaiting_name =
    (awaiting_name, Throw (PlainError "Mismatch in return array length")) /\
  sample_onResponse (response (Some "uuid-0") K_RETURN []) awaiting_name =
    awaiting_name.
Proof.
  apply (length_mismatch_throws v4_sample stringify_sample serialize_sample
           deserialize_sample strip_sample text_returns any_state
           awaiting_name 0%nat waiting_loop
           (response (Some "uuid-0") K_RETURN [])).
  - reflexivity.
  - reflexivity.
  - reflexivity.
  - reflexivity.
  - reflexivity.
  - discriminate.
  - simpl. lia.
Defined.

(** The failing input of C6 run as events: after a [RETURN] with no values
    for one component, the promise of the render is still pending, not
    rejected, and the transaction goes on: the next [RETURN] resolves it. *)
Lemma mismatch_leaves_render_pending :
  outer <$> loops (sample_run [OnResponse (response (Some "uuid-0") K_RETURN [])]
                     awaiting_name) !! 0%nat = Some Pending /\
  isCanceled (sample_run [OnResponse (response (Some "uuid-0") K_RETURN [])]
                awaiting_name) = false /\
  outer <$> loops (sample_run
                     [OnResponse (response (Some "uuid-0") K_RETURN []);
                      OnResponse (response (Some "uuid-0") K_RETURN [VStr "ok"])]
                     awaiting_name) !! 0%nat = Some (Fulfilled [VStr "ok"]).
Proof. repeat split. Qed.

(** The scenario of the specification: the validator answers ["too short"]
    for the empty string, and the envelope sent next has no
    [validationErrorMessage]. *)
Lemma validator_message_rerenders_witness :
  too_short (VStr "") = Some "too short" /\
  (exists packed : T_IO_RENDER_INPUT,
      sent (sample_onResponse (response (Some "uuid-0") K_RETURN [VStr ""])
              awaiting_name) = sent awaiting_name ++ [packed] /\
      p_inputGroupKey packed = "uuid-0" /\
      p_validationErrorMessage packed = None) /\
  has_key 0 "uuid-0"
    (loops (sample_run [OnResponse (response (Some "uuid-0") K_RETURN [VStr "ok"])]
              (sample_onResponse (response (Some "uuid-0") K_RETURN [VStr ""])
                 awaiting_name))).
Proof.
  destruct (validator_message_rerenders v4_sample stringify_sample
              serialize_sample deserialize_sample strip_sample text_returns
              any_state awaiting_name 0%nat waiting_loop
              (response (Some "uuid-0") K_RETURN [VStr ""]) 0%nat
              {| base := onStateChange 0%nat
                           (component "INPUT_TEXT" "name" VUndefined None);
                 validator := Some too_short |}
              too_short (VStr "") "too short"
              eq_refl eq_refl eq_refl eq_refl eq_refl eq_refl eq_refl eq_refl
              eq_refl eq_refl eq_refl)
    as (H1 & _ & H3).
  split; [reflexivity|]. split; [exact H1|].
  apply (H3 [OnResponse (response (Some "uuid-0") K_RETURN [VStr "ok"])]).
Defined.

(** The same scenario run as events: the message of the validator is not
    the [validationErrorMessage] of the envelope sent last. *)
Lemma validator_message_not_in_envelope :
  too_short (VStr "") = Some "too short" /\
  p_validationErrorMessage <$>
    last (sent (sample_run [OnResponse (response (Some "uuid-0") K_RETURN [VStr ""])]
                  awaiting_name)) = Some None /\
  p_validationErrorMessage <$>
    last (sent (sample_run [OnResponse (response (Some "uuid-0") K_RETURN [VStr ""])]
                  awaiting_name)) <> Some (Some "too short").
Proof. split; [reflexivity|]. split; [reflexivity|discriminate]. Qed.

Lemma setState_never_writes_state_witness :
  state (getInstance
           (Component.run text_returns any_state
              [SetState (VStr "abc"); SetProps (VStr "p"); SetState (VNum 1)]
              (@component nat "SEARCH" "user" VUndefined
                 (Some (fun st => Ok st))))) = VNull /\
  (state (getInstance
            (base (build text_returns any_state name_input))) = VNull /\
   forall newState : Value,
     differs stringify_sample newState
       (state (getInstance (base (build text_returns any_state name_input)))) =
       negb (bool_decide (stringify_sample newState = stringify_sample VNull))).
Proof.
  destruct (setState_never_writes_state v4_sample stringify_sample
              serialize_sample deserialize_sample strip_sample text_returns
              any_state) as (H1 & _ & H3).
  split; [apply H1|].
  apply (H3 [RenderComponents [name_input] None;
             OnResponse (response (Some "uuid-0") K_SET_STATE [VStr "abc"])]
            0%nat 0%nat
            (set_components
               [{| base := onStateChange 0%nat
                             (base (build text_returns any_state name_input));
                   validator := Some too_short |}] waiting_loop)
            {| base := onStateChange 0%nat
                         (base (build text_returns any_state name_input));
               validator := Some too_short |});
    reflexivity.
Defined.

Lemma cancel_is_sticky_witness :
  isCanceled (sample_step (OnResponse (response (Some "uuid-0") K_CANCELED []))
                awaiting_name) = true /\
  outer <$> loops (sample_step (OnResponse (response (Some "uuid-0") K_CANCELED []))
                     awaiting_name) !! 0%nat =
    Some (Rejected (IOError CANCELED)) /\
  sent (sample_step (OnResponse (response (Some "uuid-0") K_CANCELED []))
          awaiting_name) = sent awaiting_name /\
  renderComponents v4_sample serialize_sample strip_sample
    [build text_returns any_state name_input] None
    (sample_run [OnResponse (response None K_RETURN [VStr "ok"])]
       (sample_step (OnResponse (response (Some "uuid-0") K_CANCELED []))
          awaiting_name)) =
    (sample_run [OnResponse (response None K_RETURN [VStr "ok"])]
       (sample_step (OnResponse (response (Some "uuid-0") K_CANCELED []))
          awaiting_name),
     Throw (IOError TRANSACTION_CLOSED)).
Proof.
  destruct (cancel_is_sticky v4_sample stringify_sample serialize_sample
              deserialize_sample strip_sample text_returns any_state
              awaiting_name 0%nat waiting_loop
              (response (Some "uuid-0") K_CANCELED [])
              eq_refl eq_refl eq_refl eq_refl eq_refl eq_refl eq_refl)
    as (H1 & H2 & H3 & H4).
  split; [exact H1|]. split; [exact H2|]. split; [exact H3|].
  apply (H4 [OnResponse (response None K_RETURN [VStr "ok"])]
            [build text_returns any_state name_input] None).
Defined.

(** C2 as stated fails for a [CANCELED] response that a guard drops.  After
    the input was answered the batch has returned: the response is dropped,
    the client is not canceled, the promise of the render keeps its value,
    and the next [renderComponents] opens a loop and sends its envelope.  The
    same holds for a [CANCELED] response that carries the key of another
    batch. *)
Lemma dropped_cancel_closes_nothing :
  (isCanceled
     (sample_run [OnResponse (response (Some "uuid-0") K_RETURN [VStr "ok"]);
                  OnResponse (response (Some "uuid-0") K_CANCELED [])]
        awaiting_name) = false /\
   outer <$>
     loops (sample_run [OnResponse (response (Some "uuid-0") K_RETURN [VStr "ok"]);
                        OnResponse (response (Some "uuid-0") K_CANCELED [])]
              awaiting_name) = [Fulfilled [VStr "ok"]] /\
   (renderComponents v4_sample serialize_sample strip_sample
      [build text_returns any_state name_input] None
      (sample_run [OnResponse (response (Some "uuid-0") K_RETURN [VStr "ok"]);
                   OnResponse (response (Some "uuid-0") K_CANCELED [])]
         awaiting_name)).2 = Ok 1%nat /\
   p_inputGroupKey <$>
     sent (sample_run [OnResponse (response (Some "uuid-0") K_RETURN [VStr "ok"]);
                       OnResponse (response (Some "uuid-0") K_CANCELED []);
                       RenderComponents [name_input] None]
             awaiting_name) = ["uuid-0"; "uuid-2"]) /\
  (isCanceled
     (sample_run [OnResponse (response (Some "uuid-9") K_CANCELED [])]
        awaiting_name) = false /\
   outer <$>
     loops (sample_run [OnResponse (response (Some "uuid-9") K_CANCELED [])]
              awaiting_name) = [Pending]).
Proof. repeat split. Qed.

(** Witnesses of the further properties. *)

Definition sample_handler : nat -> T_IO_RESPONSE -> M unit :=
  onResponseHandler_of v4_sample stringify_sample serialize_sample
    deserialize_sample strip_sample text_returns any_state.

Definition sample_call : nat -> nat -> @Call nat -> M unit :=
  component_call v4_sample serialize_sample strip_sample text_returns any_state.

(** The client after the input was answered with ["ok"]. *)
Definition answered_name : World :=
  sample_run [OnResponse (response (Some "uuid-0") K_RETURN [VStr "ok"])]
             awaiting_name.

Lemma late_responses_are_dropped_witness :
  loops (foldl (fun w r => sample_onResponse r w) answered_name
           [response (Some "uuid-0") K_SET_STATE [VStr "late"];
            response None K_CANCELED []]) = loops answered_name /\
  sent (foldl (fun w r => sample_onResponse r w) answered_name
          [response (Some "uuid-0") K_SET_STATE [VStr "late"];
           response None K_CANCELED []]) = sent answered_name /\
  isCanceled (foldl (fun w r => sample_onResponse r w) answered_name
                [response (Some "uuid-0") K_SET_STATE [VStr "late"];
                 response None K_CANCELED []]) = isCanceled answered_name /\
  uuids (foldl (fun w r => sample_onResponse r w) answered_name
           [response (Some "uuid-0") K_SET_STATE [VStr "late"];
            response None K_CANCELED []]) = uuids answered_name /\
  length (logger (foldl (fun w r => sample_onResponse r w) answered_name
                    [response (Some "uuid-0") K_SET_STATE [VStr "late"];
                     response None K_CANCELED []])) =
    (length (logger answered_name) + 2)%nat.
Proof.
  eapply late_responses_are_dropped with (lid := 0%nat).
  - reflexivity.
  - reflexivity.
  - right. reflexivity.
Defined.

(** Two inputs under a validator of the group. *)
Definition both_or_none (values : list Value) : option string :=
  match values with
  | [VStr a; VStr b] =>
      if String.eqb a b then None else Some "the two entries differ"
  | _ => None
  end.

Definition plain_input (lbl : string) : Built :=
  {| b_methodName := "INPUT_TEXT"; b_label := lbl;
     b_initialProps := VUndefined; b_handleStateChange := None;
     b_validator := None; b_calls := [] |}.

Definition awaiting_pair : World :=
  sample_run [RenderComponents [plain_input "email"; plain_input "again"]
                (Some both_or_none)] new.

Lemma group_validator_message_rerenders_witness :
  p_validationErrorMessage <$>
    last (sent (sample_handler 0
                  (response (Some "uuid-0") K_RETURN [VStr "a@b"; VStr "a@c"])
                  awaiting_pair).1) = Some (Some "the two entries differ") /\
  p_inputGroupKey <$>
    last (sent (sample_handler 0
                  (response (Some "uuid-0") K_RETURN [VStr "a@b"; VStr "a@c"])
                  awaiting_pair).1) = Some "uuid-0" /\
  isReturned <$>
    loops (sample_handler 0
             (response (Some "uuid-0") K_RETURN [VStr "a@b"; VStr "a@c"])
             awaiting_pair).1 !! 0%nat = Some false.
Proof.
  edestruct group_validator_message_rerenders
    with (v4 := v4_sample) (json_stringify := stringify_sample)
         (superjson_serialize := serialize_sample)
         (superjson_deserialize := deserialize_sample)
         (stripUndefined := strip_sample) (returns_parse := text_returns)
         (state_parse := any_state) (w := awaiting_pair) (lid := 0%nat)
         (result := response (Some "uuid-0") K_RETURN [VStr "a@b"; VStr "a@c"])
         (validate := both_or_none) (message := "the two entries differ")
    as [Hsent Hloops].
  - reflexivity.
  - reflexivity.
  - reflexivity.
  - reflexivity.
  - reflexivity.
  - reflexivity.
  - reflexivity.
  - reflexivity.
  - reflexivity.
  - reflexivity.
  - discriminate.
  - unfold sample_handler. rewrite Hsent, Hloops, !last_snoc.
    split; [reflexivity|]. split; reflexivity.
Defined.

Lemma setProps_rerenders_witness :
  exists packed : T_IO_RENDER_INPUT,
    sent (sample_call 0 0 (SetProps (VStr "hint")) awaiting_name).1 =
      sent awaiting_name ++ [packed] /\
    p_id packed = "uuid-2" /\
    p_inputGroupKey packed = "uuid-0" /\
    p_validationErrorMessage packed = None /\
    length (p_toRender packed) = 1%nat /\
    item_props <$> p_toRender packed !! 0%nat = Some (VStr "hint").
Proof.
  apply (setProps_rerenders v4_sample serialize_sample strip_sample
           text_returns any_state awaiting_name 0%nat 0%nat waiting_loop
           {| base := onStateChange 0%nat
                        (component "INPUT_TEXT" "name" VUndefined None);
              validator := Some too_short |}
           (VStr "hint")); reflexivity.
Defined.

Definition sample_turns : list Turn -> Runtime -> Runtime :=
  turns v4_sample stringify_sample serialize_sample deserialize_sample
        strip_sample text_returns any_state.

Lemma accepted_return_resolves_render_witness :
  suspended
    (sample_turns [Takes (OnResponse (response (Some "uuid-0") K_RETURN [VStr "ok"]));
                   Resumes 0; Resumes 0]
       {| client := awaiting_name; suspended := [] |}) = [] /\
  sent
    (client
       (sample_turns [Takes (OnResponse (response (Some "uuid-0") K_RETURN [VStr "ok"]));
                      Resumes 0; Resumes 0]
          {| client := awaiting_name; suspended := [] |})) = sent awaiting_name /\
  isCanceled
    (client
       (sample_turns [Takes (OnResponse (response (Some "uuid-0") K_RETURN [VStr "ok"]));
                      Resumes 0; Resumes 0]
          {| client := awaiting_name; suspended := [] |})) = false /\
  exists l' : Loop,
    loops
      (client
         (sample_turns [Takes (OnResponse (response (Some "uuid-0") K_RETURN [VStr "ok"]));
                        Resumes 0; Resumes 0]
            {| client := awaiting_name; suspended := [] |})) !! 0%nat = Some l' /\
    isReturned l' = true /\
    outer l' = Fulfilled [VStr "ok"] /\
    (fun c => returnValue (base c)) <$> components l' = [Fulfilled (VStr "ok")] /\
    inputGroupKey l' = "uuid-0".
Proof.
  apply (accepted_return_resolves_render v4_sample stringify_sample
           serialize_sample deserialize_sample strip_sample text_returns
           any_state awaiting_name 0%nat waiting_loop
           (response (Some "uuid-0") K_RETURN [VStr "ok"]) [VStr "ok"]);
    try reflexivity.
  repeat constructor.
Defined.

(** The operator cancels while the validator of the input is at work: the
    action sees the render rejected, and the component has its value. *)
Lemma cancel_while_validating_witness :
  suspended
    (sample_turns [Takes (OnResponse (response (Some "uuid-0") K_RETURN [VStr "ok"]));
                   Takes (OnResponse (response (Some "uuid-0") K_CANCELED []));
                   Resumes 0; Resumes 0]
       {| client := awaiting_name; suspended := [] |}) = [] /\
  sent
    (client
       (sample_turns [Takes (OnResponse (response (Some "uuid-0") K_RETURN [VStr "ok"]));
                      Takes (OnResponse (response (Some "uuid-0") K_CANCELED []));
                      Resumes 0; Resumes 0]
          {| client := awaiting_name; suspended := [] |})) = sent awaiting_name /\
  isCanceled
    (client
       (sample_turns [Takes (OnResponse (response (Some "uuid-0") K_RETURN [VStr "ok"]));
                      Takes (OnResponse (response (Some "uuid-0") K_CANCELED []));
                      Resumes 0; Resumes 0]
          {| client := awaiting_name; suspended := [] |})) = true /\
  exists l' : Loop,
    loops
      (client
         (sample_turns [Takes (OnResponse (response (Some "uuid-0") K_RETURN [VStr "ok"]));
                        Takes (OnResponse (response (Some "uuid-0") K_CANCELED []));
                        Resumes 0; Resumes 0]
            {| client := awaiting_name; suspended := [] |})) !! 0%nat = Some l' /\
    outer l' = Rejected (IOError CANCELED) /\
    isReturned l' = true /\
    (fun c => returnValue (base c)) <$> components l' = [Fulfilled (VStr "ok")].
Proof.
  apply (cancel_while_validating v4_sample stringify_sample
           serialize_sample deserialize_sample strip_sample text_returns
           any_state awaiting_name 0%nat waiting_loop
           (response (Some "uuid-0") K_RETURN [VStr "ok"])
           (response (Some "uuid-0") K_CANCELED []) [VStr "ok"]);
    try reflexivity.
  - discriminate.
  - repeat constructor.
Defined.


Lemma render_settles_once_witness :
  exists l' : Loop,
    loops (sample_run [OnResponse (response (Some "uuid-0") K_CANCELED []);
                       ComponentCall 0 0 (SetReturnValue (VStr "late"))]
             answered_name) !! 0%nat = Some l' /\
    inputGroupKey l' = "uuid-0" /\
    length (components l') = 1%nat /\
    (true = true -> isReturned l' = true) /\
    (Fulfilled [VStr "ok"] <> Pending -> outer l' = Fulfilled [VStr "ok"]).
Proof.
  eapply (render_settles_once v4_sample stringify_sample serialize_sample
            deserialize_sample strip_sample text_returns any_state
            [OnResponse (response (Some "uuid-0") K_CANCELED []);
             ComponentCall 0 0 (SetReturnValue (VStr "late"))]
            answered_name 0%nat
            (set_outer (Fulfilled [VStr "ok"])
               (set_components
                  [{| base := (setReturnValue text_returns (VStr "ok")
                                 (onStateChange 0%nat
                                    (component "INPUT_TEXT" "name" VUndefined None))).1;
                      validator := Some too_short |}]
                  (set_isReturned true waiting_loop)))).
  reflexivity.
Defined.

(** UUIDs in unary, which never repeat and are never empty. *)
Fixpoint v4_unary (n : nat) : string :=
  match n with
  | O => "u"
  | S n => String (Ascii.ascii_of_nat 117) (v4_unary n)
  end.

Lemma v4_unary_inj (a b : nat) : v4_unary a = v4_unary b -> a = b.
Proof.
  revert b. induction a as [|a IH]; intros [|b] H; simpl in H; try done.
  - destruct b; discriminate.
  - destruct a; discriminate.
  - injection H as H. f_equal. by apply IH.
Qed.

Lemma v4_unary_nonempty (n : nat) : v4_unary n <> "".
Proof. by destruct n. Qed.

Definition two_batches : list Event :=
  [RenderComponents [name_input] None;
   OnResponse (response (Some "u") K_RETURN [VStr "ok"]);
   RenderComponents [plain_input "email"] None].

Lemma earlier_batch_response_is_stale_witness :
  onResponse v4_unary stringify_sample serialize_sample deserialize_sample
    strip_sample text_returns any_state
    (response (Some "u") K_RETURN [VStr "late"])
    (run v4_unary stringify_sample serialize_sample deserialize_sample
       strip_sample text_returns any_state two_batches new) =
    set_logger
      (logger (run v4_unary stringify_sample serialize_sample
                 deserialize_sample strip_sample text_returns any_state
                 two_batches new) ++
       ["Received response for other input group"])
      (run v4_unary stringify_sample serialize_sample deserialize_sample
         strip_sample text_returns any_state two_batches new).
Proof.
  eapply earlier_batch_response_is_stale with (lid := 0%nat).
  - apply v4_unary_inj.
  - apply v4_unary_nonempty.
  - reflexivity.
  - vm_compute. lia.
  - reflexivity.
Defined.

Definition awaiting_search : World :=
  sample_run [RenderComponents [search_input] None] new.

Definition search_handler (query : Value) : Result Value :=
  Ok (VObj [("results", VArr [query])]).

Definition searching : IOComponent :=
  {| base := onStateChange 0%nat
               (component "SEARCH" "user" (VObj [("results", VArr [])])
                  (Some search_handler));
     validator := None |}.

Definition search_loop : Loop :=
  {| inputGroupKey := "uuid-0"; isReturned := false;
     validationErrorMessage := None;
     components := [searching];
     groupValidator := None; outer := Pending |}.

Lemma unchanged_state_only_rerenders_witness :
  loops (sample_handler 0 (response (Some "uuid-0") K_SET_STATE [VNull])
           awaiting_search).1 = loops awaiting_search /\
  sent (sample_handler 0 (response (Some "uuid-0") K_SET_STATE [VNull])
          awaiting_search).1 =
    sent awaiting_search ++
    [{| p_id := "uuid-2"; p_inputGroupKey := "uuid-0";
        p_toRender := toRender serialize_sample strip_sample [searching];
        p_validationErrorMessage := None |}] /\
  console (sample_handler 0 (response (Some "uuid-0") K_SET_STATE [VNull])
             awaiting_search).1 = console awaiting_search.
Proof.
  apply (unchanged_state_only_rerenders v4_sample stringify_sample
           serialize_sample deserialize_sample strip_sample text_returns
           any_state awaiting_search 0%nat search_loop
           (response (Some "uuid-0") K_SET_STATE [VNull]));
    try reflexivity.
  intros [|i] c v Hc Hv; [|done].
  injection Hc as <-. injection Hv as <-. reflexivity.
Defined.

Lemma state_change_renders_twice_witness :
  loops (sample_handler 0 (response (Some "uuid-0") K_SET_STATE [VStr "abc"])
           awaiting_search).1 =
    [set_components
       [set_base (set_props (VObj [("results", VArr [VStr "abc"])])
                    (base searching)) searching] search_loop] /\
  item_props <$>
    mjoin (p_toRender <$>
      sent (sample_handler 0 (response (Some "uuid-0") K_SET_STATE [VStr "abc"])
              awaiting_search).1) =
    [VObj [("results", VArr [])];
     VObj [("results", VArr [VStr "abc"])];
     VObj [("results", VArr [VStr "abc"])]].
Proof.
  destruct (state_change_renders_twice v4_sample stringify_sample
              serialize_sample deserialize_sample strip_sample text_returns
              any_state awaiting_search 0%nat search_loop
              (response (Some "uuid-0") K_SET_STATE [VStr "abc"])
              searching (VStr "abc") (VStr "abc")
              (VObj [("results", VArr [VStr "abc"])]) search_handler)
    as (Hloops & _ & Hsent); try reflexivity.
  - discriminate.
  - unfold sample_handler. rewrite Hloops, Hsent. split; reflexivity.
Defined.

End IOClient.
